(** * brick-tools: gearbox propagation, gear couplings and liftarm geometry

    A shallow embedding of the calculators of the brick-tools repository:

    - [Arith]     the arithmetic the JavaScript runs on (IEEE binary64) and the
                  exact arithmetic in which its algebra is stated;
    - [Gearbox]   the gearbox module: tools, connections, the per-mode
                  propagation [computeGearMode] and the three evaluators;
    - [Geometry]  the two circle-intersection routines;
    - [Gears]     the gear-coupling enumerator [findMountingPositions];
    - [Liftarms]  the "remove larger" pass of [calculatePositions];
    - [Editor]    the state of the gearbox editor and its listeners;
    - [GearCouplings]  the table of gear couplings and the gears selected;
    - [LiftarmInputs]  the inputs of the liftarm calculator;
    - [LiftarmsSeen]   the liftarm enumerator that keeps a set of keys;
    - [RealGeometry]   the circle-intersection routines in real arithmetic;
    - [DataTable]      the filters and the sort of the table of results;
    - [FloatUtils], [Distances]  the comparisons with a tolerance and the
                  table of planar distances.

    Definitions come first in every module and keep the names of the source. *)

From Stdlib Require Import Floats ZArith QArith Qcanon Qround.
From Stdlib Require Reals Lra.
From stdpp Require Import gmap strings list pretty sorting lexico.

Set Default Proof Using "Type".
Set Warnings "-inexact-float".

(* ===================================================================== *)
(** ** Numbers *)
(* ===================================================================== *)

Module Arith.

(** What the calculators need of a JavaScript number: integer literals, the
    four operations, the comparisons [<], [<=] and [===], and truthiness (the
    [x || d] idiom takes [d] when [x] is [0], [NaN] or [undefined]). *)
Class Number (num : Type) := {
  of_Z : Z → num;
  nadd : num → num → num;
  nsub : num → num → num;
  nmul : num → num → num;
  ndiv : num → num → num;
  nltb : num → num → bool;
  nleb : num → num → bool;
  neqb : num → num → bool;
  truthy : num → bool;
}.

(** A decimal literal [m / 10^e], e.g. [0.001] is [decimal 1 3]. On binary64
    the division of two exactly represented integers rounds correctly, so this
    is the double the literal denotes. *)
Definition decimal {num : Type} `{!Number num} (m : Z) (e : nat) : num :=
  ndiv (of_Z m) (of_Z (10 ^ Z.of_nat e)).

(** [x >= y] is [y <= x]. *)
Definition ngeb {num : Type} `{!Number num} (x y : num) : bool := nleb y x.

(** IEEE binary64, the numbers JavaScript computes with. *)
Definition float_of_Z (z : Z) : float :=
  match z with
  | Z0 => PrimFloat.zero
  | Zpos _ => PrimFloat.of_uint63 (Uint63.of_Z z)
  | Zneg p => PrimFloat.opp (PrimFloat.of_uint63 (Uint63.of_Z (Zpos p)))
  end.

Definition float_truthy (x : float) : bool :=
  negb (PrimFloat.eqb x PrimFloat.zero || PrimFloat.is_nan x).

#[global] Instance float64 : Number float := {|
  of_Z := float_of_Z;
  nadd := PrimFloat.add;
  nsub := PrimFloat.sub;
  nmul := PrimFloat.mul;
  ndiv := PrimFloat.div;
  nltb := PrimFloat.ltb;
  nleb := PrimFloat.leb;
  neqb := PrimFloat.eqb;
  truthy := float_truthy;
|}.

(** Exact rational arithmetic, in canonical form so that equal numbers are
    equal terms. *)
Definition Qc_ltb (x y : Qc) : bool :=
  match (x ?= y)%Qc with Lt => true | _ => false end.

Definition Qc_leb (x y : Qc) : bool :=
  match (x ?= y)%Qc with Gt => false | _ => true end.

#[global] Instance exact : Number Qc := {|
  of_Z := λ z, Q2Qc (inject_Z z);
  nadd := Qcplus;
  nsub := Qcminus;
  nmul := Qcmult;
  ndiv := Qcdiv;
  nltb := Qc_ltb;
  nleb := Qc_leb;
  neqb := Qc_eq_bool;
  truthy := λ x, negb (Qc_eq_bool x (Q2Qc 0));
|}.

End Arith.

(* ===================================================================== *)
(** ** The gearbox module *)
(* ===================================================================== *)

Module Gearbox.
Import Arith.

(** [tool.type]: 'source', 'coupling', 'selector', 'differential'. *)
Inductive ToolType := source | coupling | selector | differential.

#[global] Instance ToolType_eq_dec : EqDecision ToolType.
Proof. solve_decision. Defined.

(** [class Connection]: a named port of a tool; [axleId = None] is the
    JavaScript [null] (disconnected). The back pointer [tool] is kept by the
    caller, who always has the tool at hand. *)
Record Connection := {
  name : string;
  axleId : option Z;
}.

Section Engine.
Context {num : Type} `{!Number num}.

(** [tool.params]: an object whose keys depend on the tool's type. An absent
    key ([undefined]) is [None]; [modes !! g] is the key [`mode${g}`]. *)
Record Params := {
  teethA : option num;
  teethB : option num;
  invertDirection : option bool;
  modes : gmap nat string;
}.

(** [class Tool]. The per-mode status record [tool.status] is kept in the
    state of the computation, keyed by the tool's id (see [State]). *)
Record Tool := {
  type : ToolType;
  id : string;
  connections : list Connection;
  params : Params;
}.

(** An entry of the map [axleValues]: [{ speed, torque, outputBy }]. *)
Record AxleValue := {
  speed : num;
  torque : num;
  outputBy : string;
}.

(** [tool.status[gearModeNum]]: [{ error, flagged }], [error = None] being
    [null]. *)
Record Status := {
  error : option string;
  flagged : bool;
}.

(** The [output] object an evaluator returns: [{ axleId, speed, torque }]. *)
Record Output := {
  o_axleId : Z;
  o_speed : num;
  o_torque : num;
}.

(** What an evaluator returns: an object with some of the keys [error],
    [flagged], [output], [outputs]; an absent key is [None] (for [flagged],
    which is only ever [true] or absent, [false]). *)
Record Result := {
  r_error : option string;
  r_flagged : bool;
  r_output : option Output;
  r_outputs : option (list Output);
}.

Definition res_flagged : Result :=
  {| r_error := None; r_flagged := true; r_output := None; r_outputs := None |}.
Definition res_error (msg : string) : Result :=
  {| r_error := Some msg; r_flagged := false; r_output := None; r_outputs := None |}.
Definition res_output (o : Output) : Result :=
  {| r_error := None; r_flagged := false; r_output := Some o; r_outputs := None |}.
Definition res_outputs (os : list Output) : Result :=
  {| r_error := None; r_flagged := false; r_output := None; r_outputs := Some os |}.

(** The module state that a computation reads: the array [tools] and the
    variable [sourceTool] (in the source the same object as the first element
    of [tools], which the sweep skips by its type). *)
Record Gearbox := {
  sourceTool : Tool;
  tools : list Tool;
}.

(** [tool.connections.find(c => c.name === n)]. *)
Definition findConnection (n : string) (tool : Tool) : option Connection :=
  List.find (λ c, String.eqb (name c) n) (connections tool).

(** [x || d] on an optional number. *)
Definition or_default (x : option num) (d : num) : num :=
  match x with
  | Some v => if truthy v then v else d
  | None => d
  end.

(** The test written out in every evaluator:
    [conn.axleId !== null && axleValues.has(conn.axleId) &&
     axleValues.get(conn.axleId).outputBy !== tool.id]. *)
Definition hasInput (tool : Tool) (conn : Connection)
    (axleValues : gmap Z AxleValue) : bool :=
  match axleId conn with
  | None => false
  | Some a =>
      match axleValues !! a with
      | None => false
      | Some v => bool_decide (outputBy v ≠ id tool)
      end
  end.

(** [axleValues.get(conn.axleId)]; the evaluators only read it of a connection
    for which [hasInput] holds, where it is [Some] (lemma [hasInput_getInput]). *)
Definition getInput (conn : Connection) (axleValues : gmap Z AxleValue)
    : option AxleValue :=
  a ← axleId conn; axleValues !! a.

Definition evaluateCoupling (tool : Tool) (gearModeNum : nat)
    (axleValues : gmap Z AxleValue) : Result :=
  match findConnection "Gear A" tool, findConnection "Gear B" tool with
  | Some connA, Some connB =>
      let teethA := or_default (teethA (params tool)) (of_Z 16) in
      let teethB := or_default (teethB (params tool)) (of_Z 16) in
      let hasInputA := hasInput tool connA axleValues in
      let hasInputB := hasInput tool connB axleValues in
      if hasInputA && hasInputB then res_error "Conflicting outputs"
      else if negb hasInputA && negb hasInputB then res_flagged
      else
        let '(inputConn, outputConn, inputTeeth, outputTeeth) :=
          if hasInputA then (connA, connB, teethA, teethB)
          else (connB, connA, teethB, teethA) in
        match axleId outputConn with
        | None => res_flagged
        | Some out =>
            match getInput inputConn axleValues with
            | None => res_flagged (* not reached *)
            | Some input =>
                let invertDirection :=
                  match invertDirection (params tool) with
                  | Some b => b
                  | None => true
                  end in
                let directionMultiplier :=
                  if invertDirection then of_Z (-1) else of_Z 1 in
                let outputSpeed :=
                  nmul (nmul directionMultiplier (speed input))
                       (ndiv inputTeeth outputTeeth) in
                let outputTorque :=
                  nmul (torque input) (ndiv outputTeeth inputTeeth) in
                res_output {| o_axleId := out; o_speed := outputSpeed;
                              o_torque := outputTorque |}
            end
        end
  | _, _ => res_flagged
  end.

(** [tool.params[`mode${gearModeNum}`] || 'Locked']: the empty string is the
    only falsy string. *)
Definition selection (tool : Tool) (gearModeNum : nat) : string :=
  match modes (params tool) !! gearModeNum with
  | Some s => if String.eqb s "" then "Locked" else s
  | None => "Locked"
  end.

(** The body of the loop over [[connCenter, connA, connB]] in Locked mode. *)
Definition lockedOutputs (tool : Tool) (axleValues : gmap Z AxleValue)
    (conns : list Connection) : list Output :=
  flat_map (λ conn,
    match axleId conn with
    | None => []
    | Some a =>
        let hasExistingOutput :=
          match axleValues !! a with
          | None => false
          | Some v => bool_decide (outputBy v ≠ id tool)
          end in
        if hasExistingOutput then []
        else [{| o_axleId := a; o_speed := of_Z 0; o_torque := of_Z 0 |}]
    end) conns.

Definition evaluateSelector (tool : Tool) (gearModeNum : nat)
    (axleValues : gmap Z AxleValue) : Result :=
  match findConnection "Center" tool, findConnection "A" tool,
        findConnection "B" tool with
  | Some connCenter, Some connA, Some connB =>
      let selection := selection tool gearModeNum in
      if String.eqb selection "Locked" then
        let outputs := lockedOutputs tool axleValues [connCenter; connA; connB] in
        if (0 <? length outputs)%nat then res_outputs outputs else res_flagged
      else
        let activeConn := if String.eqb selection "A" then connA else connB in
        let hasCenterInput := hasInput tool connCenter axleValues in
        let hasActiveInput := hasInput tool activeConn axleValues in
        if hasCenterInput && hasActiveInput then res_error "Conflicting outputs"
        else if negb hasCenterInput && negb hasActiveInput then res_flagged
        else
          let '(inputConn, outputConn) :=
            if hasCenterInput then (connCenter, activeConn)
            else (activeConn, connCenter) in
          match axleId outputConn with
          | None => res_flagged
          | Some out =>
              match getInput inputConn axleValues with
              | None => res_flagged (* not reached *)
              | Some input =>
                  res_output {| o_axleId := out; o_speed := speed input;
                                o_torque := torque input |}
              end
          end
  | _, _, _ => res_flagged
  end.

(** The three formulas of the differential. *)
Definition bodyFromSides (inputA inputB : AxleValue) : num * num :=
  (ndiv (nadd (speed inputA) (speed inputB)) (of_Z 2),
   nmul (of_Z 2) (nadd (torque inputA) (torque inputB))).

Definition sideFromBody (bodyInput sideInput : AxleValue) : num * num :=
  (nsub (nmul (of_Z 2) (speed bodyInput)) (speed sideInput),
   ndiv (nadd (torque bodyInput) (torque sideInput)) (of_Z 2)).

Definition evaluateDifferential (tool : Tool) (gearModeNum : nat)
    (axleValues : gmap Z AxleValue) : Result :=
  match findConnection "Body" tool, findConnection "A" tool,
        findConnection "B" tool with
  | Some connBody, Some connA, Some connB =>
      let hasBodyInput := hasInput tool connBody axleValues in
      let hasAInput := hasInput tool connA axleValues in
      let hasBInput := hasInput tool connB axleValues in
      let inputCount :=
        ((if hasBodyInput then 1 else 0) + (if hasAInput then 1 else 0)
         + (if hasBInput then 1 else 0))%nat in
      if (inputCount =? 0)%nat || (inputCount =? 1)%nat then res_flagged
      else if (inputCount =? 3)%nat then res_error "Conflicting outputs"
      else
        let computed : option (Connection * (num * num)) :=
          if negb hasBodyInput then
            inputA ← getInput connA axleValues;
            inputB ← getInput connB axleValues;
            Some (connBody, bodyFromSides inputA inputB)
          else if negb hasAInput then
            bodyInput ← getInput connBody axleValues;
            bInput ← getInput connB axleValues;
            Some (connA, sideFromBody bodyInput bInput)
          else
            bodyInput ← getInput connBody axleValues;
            aInput ← getInput connA axleValues;
            Some (connB, sideFromBody bodyInput aInput) in
        match computed with
        | None => res_flagged (* not reached *)
        | Some (outputConn, (outputSpeed, outputTorque)) =>
            match axleId outputConn with
            | None => res_flagged
            | Some out =>
                res_output {| o_axleId := out; o_speed := outputSpeed;
                              o_torque := outputTorque |}
            end
        end
  | _, _, _ => res_flagged
  end.

Definition evaluateTool (tool : Tool) (gearModeNum : nat)
    (axleValues : gmap Z AxleValue) : Result :=
  match type tool with
  | coupling => evaluateCoupling tool gearModeNum axleValues
  | selector => evaluateSelector tool gearModeNum axleValues
  | differential => evaluateDifferential tool gearModeNum axleValues
  | source => res_flagged
  end.

Definition getToolTypeName (t : ToolType) : string :=
  match t with
  | source => "Source Axle"
  | coupling => "Coupling"
  | selector => "Selector"
  | differential => "Differential"
  end.

Definition getToolLabel (g : Gearbox) (toolId : string) : string :=
  if String.eqb toolId "source" then "Source"
  else match List.find (λ t, String.eqb (id t) toolId) (tools g) with
       | Some tool => getToolTypeName (type tool)
       | None => toolId
       end.

(** The variables of [computeGearMode]: the map [axleValues], the status
    records written so far (by tool id; ids are unique, [addTool] numbers
    them), and the loop's [changed] and [iterations]. *)
Record State := {
  axleValues : gmap Z AxleValue;
  status : gmap string Status;
  changed : bool;
  iterations : nat;
}.

Definition set_status (i : string) (s : Status) (st : State) : State :=
  {| axleValues := axleValues st; status := <[i := s]> (status st);
     changed := changed st; iterations := iterations st |}.

(** [axleValues.set(axleId, { speed, torque, outputBy: tool.id });
     changed = true;] *)
Definition set_value (a : Z) (v : AxleValue) (st : State) : State :=
  {| axleValues := <[a := v]> (axleValues st); status := status st;
     changed := true; iterations := iterations st |}.

(** [s || null] for an optional string. *)
Definition or_null (s : option string) : option string :=
  match s with
  | Some e => if String.eqb e "" then None else Some e
  | None => None
  end.

(** "Handle single output". *)
Definition handleOutput (g : Gearbox) (tool : Tool) (o : Output) (st : State)
    : State :=
  match axleValues st !! o_axleId o with
  | Some existing =>
      if bool_decide (outputBy existing ≠ id tool) then
        set_status (id tool)
          {| error := Some ("Conflict with " +:+ getToolLabel g (outputBy existing));
             flagged := false |} st
      else st
  | None =>
      set_value (o_axleId o)
        {| speed := o_speed o; torque := o_torque o; outputBy := id tool |} st
  end.

(** "Handle multiple outputs (for Locked mode)": one turn of the inner loop. *)
Definition handleOutputs1 (tool : Tool) (st : State) (o : Output) : State :=
  match axleValues st !! o_axleId o with
  | Some existing =>
      if bool_decide (outputBy existing ≠ id tool) then st (* continue *)
      else st
  | None =>
      set_value (o_axleId o)
        {| speed := o_speed o; torque := o_torque o; outputBy := id tool |} st
  end.

(** The body of [for (const tool of tools)]. *)
Definition toolStep (g : Gearbox) (gearModeNum : nat) (st : State)
    (tool : Tool) : State :=
  if decide (type tool = source) then st
  else
    let result := evaluateTool tool gearModeNum (axleValues st) in
    let st := set_status (id tool)
                {| error := or_null (r_error result);
                   flagged := r_flagged result |} st in
    let st :=
      match r_output result, or_null (r_error result) with
      | Some o, None => handleOutput g tool o st
      | _, _ => st
      end in
    match r_outputs result, or_null (r_error result) with
    | Some os, None => foldl (handleOutputs1 tool) st os
    | _, _ => st
    end.

(** The body of the [while]: [changed = false; iterations++;] and one sweep
    over [tools]. *)
Definition sweep (g : Gearbox) (gearModeNum : nat) (st : State) : State :=
  foldl (toolStep g gearModeNum)
    {| axleValues := axleValues st; status := status st; changed := false;
       iterations := S (iterations st) |}
    (tools g).

(** [while (changed && iterations < maxIterations)]: [budget] is
    [maxIterations - iterations], so the loop is structural on it. *)
Fixpoint propagate (g : Gearbox) (gearModeNum : nat) (budget : nat)
    (st : State) : State :=
  match budget with
  | O => st
  | S budget' =>
      if changed st then propagate g gearModeNum budget' (sweep g gearModeNum st)
      else st
  end.

Definition maxIterations : nat := 100.

(** The state before the loop: the source axle seeded, the source's status
    written, [changed = true], [iterations = 0]. *)
Definition initialState (g : Gearbox) : State :=
  let sourceConn := head (connections (sourceTool g)) in
  {| axleValues :=
       match sourceConn ≫= axleId with
       | Some a => {[ a := {| speed := of_Z 1; torque := of_Z 1;
                               outputBy := "source" |} ]}
       | None => ∅
       end;
     status := {[ id (sourceTool g) := {| error := None; flagged := false |} ]};
     changed := true;
     iterations := 0 |}.

(** [computeGearMode(gearModeNum)]: the final state, of which the source
    returns [axleValues] and leaves [status] on the tools. *)
Definition computeGearMode (g : Gearbox) (gearModeNum : nat) : State :=
  propagate g gearModeNum maxIterations (initialState g).

(** [compute()]: the computation of every gear mode, [1] to [numGearModes]
    (the source clears the statuses first and draws the chart afterwards). *)
Definition compute (g : Gearbox) (numGearModes : nat) : list State :=
  (λ gearModeNum, computeGearMode g gearModeNum) <$> seq 1 numGearModes.

End Engine.

Arguments Params : clear implicits.
Arguments Tool : clear implicits.
Arguments AxleValue : clear implicits.
Arguments Output : clear implicits.
Arguments Result : clear implicits.
Arguments Gearbox : clear implicits.
Arguments State : clear implicits.

End Gearbox.


(* ===================================================================== *)
(** ** The geometry kernel *)
(* ===================================================================== *)

(** The two circle-intersection routines of the repository, on binary64:
    the function [circleIntersections(c0, r0, c1, r1)] of
    [modules/geometry/point.js] and the method
    [Point.circleIntersections(r0, other, r1)] of the liftarms module.
    [Math.sqrt] is the IEEE square root and [v ** 2] is [v * v], as the
    engines compute them; [Math.hypot] is left to the implementation by the
    language and is a parameter here. *)
Module Geometry.
Local Open Scope float_scope.

Record Point := { x : float; y : float }.

(** The literal [1e-12]. *)
Definition eps : float := 1e-12.

Section Hypot.
Variable Math_hypot : float → float → float.

Definition circleIntersections (c0 : Point) (r0 : float) (c1 : Point)
    (r1 : float) : list Point :=
  let dx := x c1 - x c0 in
  let dy := y c1 - y c0 in
  let d := Math_hypot dx dy in
  if d <? eps then []
  else if r0 + r1 + eps <? d then []
  else if d <? abs (r0 - r1) - eps then []
  else
    let a := (r0 * r0 - r1 * r1 + d * d) / (2 * d) in
    let h2 := r0 * r0 - a * a in
    let h := if h2 <=? 0 then 0 else sqrt h2 in
    let x2 := x c0 + a * (dx / d) in
    let y2 := y c0 + a * (dy / d) in
    let rx := - dy * (h / d) in
    let ry := dx * (h / d) in
    if h =? 0 then [{| x := x2; y := y2 |}]
    else [{| x := x2 + rx; y := y2 + ry |}; {| x := x2 - rx; y := y2 - ry |}].

End Hypot.

(** One way to compute [Math.hypot]; it is exact whenever the sum of the
    squares and its root are. *)
Definition hypot_sqrt (a b : float) : float := sqrt (a * a + b * b).

(** [Point.distanceTo(other)]. *)
Definition distanceTo (this other : Point) : float :=
  sqrt ((x this - x other) * (x this - x other)
        + (y this - y other) * (y this - y other)).

(** [Point.circleIntersections(r0, other, r1)]. *)
Definition Point_circleIntersections (this : Point) (r0 : float)
    (other : Point) (r1 : float) : list Point :=
  let d := distanceTo this other in
  if (r0 + r1 <? d) || (d <? abs (r0 - r1)) || (d =? 0) then []
  else
    let a := (r0 * r0 - r1 * r1 + d * d) / (2 * d) in
    let h2 := r0 * r0 - a * a in
    if h2 <? 0 then []
    else
      let h := sqrt h2 in
      let px := x this + a * (x other - x this) / d in
      let py := y this + a * (y other - y this) / d in
      let rx := - (y other - y this) * h / d in
      let ry := (x other - x this) * h / d in
      if h =? 0 then [{| x := px; y := py |}]
      else [{| x := px + rx; y := py + ry |}; {| x := px - rx; y := py - ry |}].

End Geometry.

(* ===================================================================== *)
(** ** The gear-coupling enumerator *)
(* ===================================================================== *)

Module Gears.
Import SpecFloat.
Local Open Scope float_scope.

(** A gear as the module names it: the two worm gears ['1(1L)'] and
    ['1(2L)'], or a number of teeth. *)
Inductive Gear := worm1L | worm2L | teeth (n : float).

Definition getGearRadius (g : Gear) : float :=
  match g with
  | worm1L => 0.75
  | worm2L => 0.5
  | teeth n => n / 16
  end.

Definition isWormGear (g : Gear) : bool :=
  match g with
  | worm1L | worm2L => true
  | teeth _ => false
  end.

(** [calculateCenterDistance(gearA, gearB)]; the follower [gearB] is a
    number, the enumerator having skipped the worm gears as followers. *)
Definition calculateCenterDistance (gearA : Gear) (gearB : float) : float :=
  match gearA with
  | worm1L => 0.75 + gearB / 16
  | worm2L => 0.5 + gearB / 16
  | teeth a => (a + gearB) / 16
  end.

Definition calculateGearRatio (gearA : Gear) (gearB : float) : float :=
  match gearA with
  | worm1L | worm2L => 1 / gearB
  | teeth a => a / gearB
  end.

(** [Math.ceil]: the least integer not below [v], read off the mantissa and
    exponent of [v]; [-0] for [-1 < v < 0], and [v] itself when it is an
    integer, an infinity or a NaN. *)
Definition Math_ceil (v : float) : float :=
  match Prim2SF v with
  | S754_finite s m e =>
      if (0 <=? e)%Z then v
      else
        let n := (2 ^ (- e))%Z in
        if s then
          let q := (Zpos m / n)%Z in
          if (q =? 0)%Z then - 0 else - Arith.float_of_Z q
        else Arith.float_of_Z ((Zpos m + n - 1) / n)
  | _ => v
  end.

(** A mounting position [{ x, y, dist }]. *)
Record Position := { pos_x : float; pos_y : float; pos_dist : float }.

(** The three lists that [findMountingPositions] fills and returns as
    [{ exact, overfit, underfit }]. *)
Record Positions := {
  exactList : list Position;
  overfitList : list Position;
  underfitList : list Position;
}.

(** The body of the inner loop, for the offset ([px], [py]). *)
Definition visit (dist maxOverfit maxUnderfit : float) (acc : Positions)
    (px py : float) : Positions :=
  let actualDist := sqrt (px * px + py * py) in
  if dist + maxOverfit <? actualDist then acc
  else if actualDist <? dist - maxUnderfit then acc
  else if actualDist =? 0 then acc
  else
    let diff := actualDist - dist in
    let p := {| pos_x := px; pos_y := py; pos_dist := actualDist |} in
    if abs diff <? 0.0001 then
      {| exactList := exactList acc ++ [p]; overfitList := overfitList acc;
         underfitList := underfitList acc |}
    else if 0 <? diff then
      {| exactList := exactList acc; overfitList := overfitList acc ++ [p];
         underfitList := underfitList acc |}
    else
      {| exactList := exactList acc; overfitList := overfitList acc;
         underfitList := underfitList acc ++ [p] |}.

(** [for (let y = 0; y <= x; y += 0.5)], from the current [py] on. The
    counter is a float, so the loop is run on fuel: [None] when the fuel runs
    out before the loop ends. *)
Fixpoint loopY (fuel : nat) (dist maxOverfit maxUnderfit : float)
    (px py : float) (acc : Positions) : option Positions :=
  if py <=? px then
    match fuel with
    | O => None
    | S fuel' =>
        loopY fuel' dist maxOverfit maxUnderfit px (py + 0.5)
          (visit dist maxOverfit maxUnderfit acc px py)
    end
  else Some acc.

(** [for (let x = 0; x <= maxCoord; x += 0.5)], from the current [px] on. *)
Fixpoint loopX (fuel fuelY : nat) (dist maxOverfit maxUnderfit : float)
    (maxCoord px : float) (acc : Positions) : option Positions :=
  if px <=? maxCoord then
    match fuel with
    | O => None
    | S fuel' =>
        match loopY fuelY dist maxOverfit maxUnderfit px 0 acc with
        | None => None
        | Some acc' =>
            loopX fuel' fuelY dist maxOverfit maxUnderfit maxCoord (px + 0.5) acc'
        end
    end
  else Some acc.

Definition findMountingPositions (fuel : nat)
    (dist maxOverfit maxUnderfit : float) : option Positions :=
  let maxCoord := Math_ceil (dist + maxOverfit + 1) in
  loopX fuel fuel dist maxOverfit maxUnderfit maxCoord 0
    {| exactList := []; overfitList := []; underfitList := [] |}.


End Gears.

(* ===================================================================== *)
(** ** The liftarm enumerator: removing the larger liftarms *)
(* ===================================================================== *)

(** [calculatePositions] of the liftarms module, from the point where a row
    is about to be recorded (the test on [removeLarger] in the innermost
    loop) to the sorted result. The loops over the target point, the two
    lengths, the intersections and the stud positions, and the filters on the
    quadrant and on the decimal part, read neither [results] nor [minLenSum]:
    they are represented by [candidates], the rows that reach that point, in
    the order of the loops. *)
Module Liftarms.
Import Arith.

Section Rows.
Context {num : Type} `{!Number num}.
(** The fields of a row that neither the removal nor the sort reads: sNum,
    cLen, tx, ty, ix, iy and the six angles. *)
Variable Others : Type.

Record Row := {
  sx : num;
  sy : num;
  aLen : num;
  bLen : num;
  keyRemoveLarger : string;
  others : Others;
}.

(** The literal [0.001]. *)
Definition tolerance : num := decimal 1 3.

Definition lenSum (row : Row) : num := nadd (aLen row) (bLen row).

(** One row in the innermost loop: "Filter out larger liftarms if option is
    enabled", then [results.push]. *)
Definition offer (removeLarger : bool)
    (st : list Row * gmap string num) (row : Row) : list Row * gmap string num :=
  let '(results, minLenSum) := st in
  if removeLarger then
    let thisVal := nadd (aLen row) (bLen row) in
    match minLenSum !! keyRemoveLarger row with
    | Some m =>
        if ngeb thisVal (nadd m tolerance) then st (* continue *)
        else (results ++ [row], <[keyRemoveLarger row := thisVal]> minLenSum)
    | None => (results ++ [row], <[keyRemoveLarger row := thisVal]> minLenSum)
    end
  else (results ++ [row], minLenSum).

(** The loop after the enumeration that splices out every row with
    [lenSum >= minLenSum.get(row.keyRemoveLarger) + 0.001]. *)
Definition spliceLarger (minLenSum : gmap string num) (results : list Row)
    : list Row :=
  List.filter (λ row,
    match minLenSum !! keyRemoveLarger row with
    | Some m => negb (ngeb (lenSum row) (nadd m tolerance))
    | None => true
    end) results.

(** The comparator of the final sort, by Sx, Sy, aLen, bLen. *)
Definition compareRows (a b : Row) : num :=
  if negb (neqb (sx a) (sx b)) then nsub (sx a) (sx b)
  else if negb (neqb (sy a) (sy b)) then nsub (sy a) (sy b)
  else if negb (neqb (aLen a) (aLen b)) then nsub (aLen a) (aLen b)
  else nsub (bLen a) (bLen b).

(** [Array.prototype.sort] with a comparator: a stable sort, here by
    insertion; a row goes before the first row that it must precede. *)
Fixpoint insertRow (row : Row) (sorted : list Row) : list Row :=
  match sorted with
  | [] => [row]
  | r :: rest =>
      if nltb (compareRows row r) (of_Z 0) then row :: r :: rest
      else r :: insertRow row rest
  end.

Definition sortRows (rows : list Row) : list Row :=
  foldl (λ sorted row, insertRow row sorted) [] rows.

Definition calculatePositions (removeLarger : bool) (candidates : list Row)
    : list Row :=
  let '(results, minLenSum) := foldl (offer removeLarger) ([], ∅) candidates in
  let results :=
    if removeLarger then spliceLarger minLenSum results else results in
  sortRows results.

End Rows.

Arguments sx {num Others}.
Arguments sy {num Others}.
Arguments aLen {num Others}.
Arguments bLen {num Others}.
Arguments keyRemoveLarger {num Others}.
Arguments others {num Others}.
Arguments lenSum {num _ Others}.
Arguments offer {num _ Others}.
Arguments spliceLarger {num _ Others}.
Arguments compareRows {num _ Others}.
Arguments insertRow {num _ Others}.
Arguments sortRows {num _ Others}.
Arguments calculatePositions {num _ Others}.

End Liftarms.

(* ===================================================================== *)
(** ** The gearbox editor *)
(* ===================================================================== *)

(** The module state of the gearbox calculator and the operations that the
    editor's buttons, selects and inputs run on it. The drawing of the page
    ([updateDiagram], [renderResultsChart]) reads the state and is left out;
    [compute()] is [Gearbox.compute] on the tools of the state. The variable
    [sourceTool] holds the object that [resetData] pushes first onto [tools]:
    it is read here as the first element of [tools]. *)
Module Editor.
Import Arith Gearbox.

(** [class Axle]: [{ id, name }]. *)
Record Axle := { axle_id : Z; axle_name : string }.

(** What a connection's select offers: '+ New Axle' (the value 'new'),
    '-- None --' (the empty value), or one of the axles. *)
Inductive AxleChoice := choice_new | choice_none | choice_axle (a : Z).

(** *** The teeth inputs *)

(** The value that [parseInt] reads off an input: an integer, or [NaN]
    ([None]), with which every comparison is false and all arithmetic gives
    [NaN]. *)
Definition js_lt (a b : option Z) : bool :=
  match a, b with Some x, Some y => (x <? y)%Z | _, _ => false end.
Definition js_gt (a b : option Z) : bool := js_lt b a.
Definition js_ge (a b : option Z) : bool :=
  match a, b with Some x, Some y => (y <=? x)%Z | _, _ => false end.
Definition js_eq (a b : option Z) : bool :=
  match a, b with Some x, Some y => (x =? y)%Z | _, _ => false end.

(** [Math.ceil(v / 4)] and [Math.floor(v / 4)] of an integer [v]. *)
Definition ceil_quarter (v : Z) : Z := (- ((- v) / 4))%Z.
Definition floor_quarter (v : Z) : Z := (v / 4)%Z.

(** The 'change' listener of a teeth input ([attachParamListeners]), from
    [value = parseInt(value)] to [e.target.value = value]: [isTeethA] is
    [paramName === 'teethA'], [prevValue] is what
    [parseInt(e.target.dataset.prevValue)] reads. *)
Definition snapTeeth (isTeethA : bool) (prevValue value : option Z) : option Z :=
  let prevValue :=
    match prevValue with
    | Some p => if (p =? 0)%Z then Some 16%Z else Some p
    | None => Some 16%Z
    end in
  let min := Some (if isTeethA then 1 else 8)%Z in
  let isValid :=
    (js_eq value (Some 1%Z) && isTeethA)
    || (js_ge value (Some 8%Z)
        && js_eq ((λ v, Z.rem (v - 8) 4) <$> value) (Some 0%Z)) in
  let value :=
    if negb isValid then
      let goingUp := js_gt value prevValue in
      if goingUp then
        if js_lt value (Some 8%Z) then Some 8%Z
        else (λ v, ceil_quarter (v - 8) * 4 + 8)%Z <$> value
      else
        if isTeethA && js_lt value (Some 8%Z) && js_ge value (Some 1%Z)
        then Some 1%Z
        else if js_lt value (Some 8%Z) then min
        else
          let value := (λ v, floor_quarter (v - 8) * 4 + 8)%Z <$> value in
          if js_lt value min then min else value
    else value in
  if js_lt value min then min else value.

(** The values the listener accepts as they are: 1 (for Gear A only), 8, 12,
    16, 20, ... *)
Definition validTeeth (isTeethA : bool) (v : Z) : Prop :=
  (v = 1%Z ∧ isTeethA = true) ∨ (8 ≤ v ∧ (v - 8) mod 4 = 0)%Z.

(** *** The status of a tool *)



Section Editor.
Context {num : Type} `{!Number num}.

(** A parameter and the value a listener passes to [updateParam]. *)
Inductive ParamValue :=
  | param_teethA (v : num)
  | param_teethB (v : num)
  | param_invertDirection (b : bool)
  | param_mode (g : nat) (s : string).

(** "Module State". *)
Record Data := {
  numGearModes : nat;
  tools : list (Tool num);
  axles : list Axle;
  nextToolId : nat;
  nextAxleId : Z;
  selectedAxleId : Z;
}.

Definition set_tools (ts : list (Tool num)) (d : Data) : Data :=
  {| numGearModes := numGearModes d; tools := ts; axles := axles d;
     nextToolId := nextToolId d; nextAxleId := nextAxleId d;
     selectedAxleId := selectedAxleId d |}.

Definition set_axles (l : list Axle) (d : Data) : Data :=
  {| numGearModes := numGearModes d; tools := tools d; axles := l;
     nextToolId := nextToolId d; nextAxleId := nextAxleId d;
     selectedAxleId := selectedAxleId d |}.

Definition set_selectedAxleId (a : Z) (d : Data) : Data :=
  {| numGearModes := numGearModes d; tools := tools d; axles := axles d;
     nextToolId := nextToolId d; nextAxleId := nextAxleId d;
     selectedAxleId := a |}.

(** [new Connection(name, tool)]: disconnected. *)
Definition newConnection (n : string) : Connection :=
  {| name := n; axleId := None |}.

(** [tool.params = {}]. *)
Definition emptyParams : Params num :=
  {| teethA := None; teethB := None; invertDirection := None; modes := ∅ |}.

Definition resetData : Data :=
  {| numGearModes := 3;
     tools := [{| type := source; id := "source";
                  connections := [{| name := "Output"; axleId := Some 1%Z |}];
                  params := emptyParams |}];
     axles := [{| axle_id := 1; axle_name := "Axle 1" |}];
     nextToolId := 1;
     nextAxleId := 2;
     selectedAxleId := 1 |}.

(** [for (let g = 1; g <= numGearModes; g++) tool.params[`mode${g}`] = 'Locked']. *)
Definition lockedModes (n : nat) : gmap nat string :=
  foldl (λ ms g, <[g := "Locked"]> ms) ∅ (seq 1 n).

(** [addTool(type)]. *)
Definition addTool (ty : ToolType) (d : Data) : Data :=
  let tool_id := "tool_" +:+ pretty (nextToolId d) in
  let tool :=
    match ty with
    | coupling =>
        {| type := ty; id := tool_id;
           connections := [newConnection "Gear A"; newConnection "Gear B"];
           params := {| teethA := Some (of_Z 16); teethB := Some (of_Z 16);
                        invertDirection := Some true; modes := ∅ |} |}
    | selector =>
        {| type := ty; id := tool_id;
           connections := [newConnection "Center"; newConnection "A";
                           newConnection "B"];
           params := {| teethA := None; teethB := None; invertDirection := None;
                        modes := lockedModes (numGearModes d) |} |}
    | differential =>
        {| type := ty; id := tool_id;
           connections := [newConnection "Body"; newConnection "A";
                           newConnection "B"];
           params := emptyParams |}
    | source =>
        {| type := ty; id := tool_id; connections := []; params := emptyParams |}
    end in
  {| numGearModes := numGearModes d; tools := tools d ++ [tool];
     axles := axles d; nextToolId := S (nextToolId d);
     nextAxleId := nextAxleId d; selectedAxleId := selectedAxleId d |}.

(** The set [usedAxleIds] that [cleanupUnusedAxles] collects. *)
Definition usedAxleIds (ts : list (Tool num)) : gset Z :=
  foldl (λ used tool,
    foldl (λ used conn,
      match axleId conn with
      | Some a => {[ a ]} ∪ used
      | None => used
      end) used (connections tool)) ∅ ts.

Definition cleanupUnusedAxles (d : Data) : Data :=
  let usedAxleIds := usedAxleIds (tools d) in
  let axles := filter (λ a, axle_id a ∈ usedAxleIds) (axles d) in
  let axles :=
    if (length axles =? 0)%nat
    then axles ++ [{| axle_id := 1; axle_name := "Axle 1" |}]
    else axles in
  set_axles axles d.

(** [updateAxleSelector()], on the state: "Ensure selected axle still
    exists". The select of the results is on the page once the module is
    initialised. *)
Definition updateAxleSelector (d : Data) : Data :=
  match List.find (λ a, (axle_id a =? selectedAxleId d)%Z) (axles d), axles d with
  | None, a0 :: _ => set_selectedAxleId (axle_id a0) d
  | _, _ => d
  end.

(** [removeTool(toolId)]. *)
Definition removeTool (toolId : string) (d : Data) : Data :=
  if String.eqb toolId "source" then d
  else
    match list_find (λ t, id t = toolId) (tools d) with
    | Some (index, _) =>
        updateAxleSelector (cleanupUnusedAxles (set_tools (delete index (tools d)) d))
    | None => d
    end.

(** [updateConnection(toolId, connName, axleId)]: [conn.axleId = axleId] on
    the first connection of that name of the first tool of that id. *)
Definition updateConnection (toolId connName : string) (a : option Z)
    (d : Data) : Data :=
  match list_find (λ t, id t = toolId) (tools d) with
  | None => d
  | Some (i, tool) =>
      match list_find (λ c, name c = connName) (connections tool) with
      | None => d
      | Some (j, conn) =>
          let tool :=
            {| type := type tool; id := id tool;
               connections :=
                 <[j := {| name := name conn; axleId := a |}]> (connections tool);
               params := params tool |} in
          updateAxleSelector
            (cleanupUnusedAxles (set_tools (<[i := tool]> (tools d)) d))
      end
  end.

(** [tool.params[paramName] = value]. *)
Definition setParam (p : ParamValue) (ps : Params num) : Params num :=
  match p with
  | param_teethA v =>
      {| teethA := Some v; teethB := teethB ps;
         invertDirection := invertDirection ps; modes := modes ps |}
  | param_teethB v =>
      {| teethA := teethA ps; teethB := Some v;
         invertDirection := invertDirection ps; modes := modes ps |}
  | param_invertDirection b =>
      {| teethA := teethA ps; teethB := teethB ps;
         invertDirection := Some b; modes := modes ps |}
  | param_mode g s =>
      {| teethA := teethA ps; teethB := teethB ps;
         invertDirection := invertDirection ps; modes := <[g := s]> (modes ps) |}
  end.

(** [updateParam(toolId, paramName, value)]. *)
Definition updateParam (toolId : string) (p : ParamValue) (d : Data) : Data :=
  match list_find (λ t, id t = toolId) (tools d) with
  | None => d
  | Some (i, tool) =>
      let tool :=
        {| type := type tool; id := id tool; connections := connections tool;
           params := setParam p (params tool) |} in
      set_tools (<[i := tool]> (tools d)) d
  end.

(** The 'change' listener of a connection's select
    ([attachConnectionListeners]) on the card of the tool [toolId]. *)
Definition onConnectionChange (toolId connName : string) (choice : AxleChoice)
    (d : Data) : Data :=
  match choice with
  | choice_new =>
      let newAxle := {| axle_id := nextAxleId d;
                        axle_name := "Axle " +:+ pretty (nextAxleId d) |} in
      let d' :=
        updateAxleSelector
          {| numGearModes := numGearModes d; tools := tools d;
             axles := axles d ++ [newAxle]; nextToolId := nextToolId d;
             nextAxleId := (nextAxleId d + 1)%Z;
             selectedAxleId := selectedAxleId d |} in
      updateConnection toolId connName (Some (nextAxleId d)) d'
  | choice_none => updateConnection toolId connName None d
  | choice_axle a => updateConnection toolId connName (Some a) d
  end.

(** [updateSelectorParams()]: a mode of a selector that has no (truthy)
    parameter yet becomes 'Locked'. *)
Definition fillModes (n : nat) (ms : gmap nat string) : gmap nat string :=
  foldl (λ ms g,
    match ms !! g with
    | Some s => if String.eqb s "" then <[g := "Locked"]> ms else ms
    | None => <[g := "Locked"]> ms
    end) ms (seq 1 n).

Definition updateSelectorParams (d : Data) : Data :=
  set_tools
    ((λ tool,
       if decide (type tool = selector) then
         {| type := type tool; id := id tool; connections := connections tool;
            params :=
              {| teethA := teethA (params tool); teethB := teethB (params tool);
                 invertDirection := invertDirection (params tool);
                 modes := fillModes (numGearModes d) (modes (params tool)) |} |}
       else tool) <$> tools d) d.

(** The 'change' listener of the input 'Number of Gear Modes'; [val] is what
    [parseInt] reads. *)
Definition onNumGearModesChange (val : option Z) (d : Data) : Data :=
  if js_ge val (Some 1%Z) && js_ge (Some 9%Z) val then
    updateSelectorParams
      {| numGearModes := Z.to_nat (default 0%Z val); tools := tools d;
         axles := axles d; nextToolId := nextToolId d;
         nextAxleId := nextAxleId d; selectedAxleId := selectedAxleId d |}
  else d.

(** The 'change' listener of the select of the results:
    [selectedAxleId = parseInt(e.target.value)]. *)
Definition onAxleSelect (a : Z) (d : Data) : Data := set_selectedAxleId a d.

(** The gearbox that a computation reads: [tools], and [sourceTool], the
    first of them. *)
Definition gearbox (d : Data) : option (Gearbox num) :=
  s ← head (tools d);
  Some {| Gearbox.sourceTool := s; Gearbox.tools := tools d |}.

(** [compute()]: the computations of the gear modes 1 to [numGearModes]. *)
Definition compute (d : Data) : option (list (State num)) :=
  g ← gearbox d; Some (Gearbox.compute g (numGearModes d)).

(** What the page lets the user do. *)
Inductive Event :=
  | click_add (ty : ToolType)
  | click_remove (toolId : string)
  | change_connection (toolId connName : string) (choice : AxleChoice)
  | change_param (toolId : string) (p : ParamValue)
  | change_numGearModes (val : option Z)
  | change_axle (a : Z).

Definition handle (e : Event) (d : Data) : Data :=
  match e with
  | click_add ty => addTool ty d
  | click_remove toolId => removeTool toolId d
  | change_connection toolId connName choice =>
      onConnectionChange toolId connName choice d
  | change_param toolId p => updateParam toolId p d
  | change_numGearModes val => onNumGearModesChange val d
  | change_axle a => onAxleSelect a d
  end.

(** The page has the three buttons 'Add Coupling', 'Add Selector' and 'Add
    Differential', and its selects offer the axles of the state. *)
Definition offered (d : Data) (e : Event) : Prop :=
  match e with
  | click_add ty => ty ≠ source
  | change_connection _ _ (choice_axle a) => a ∈ axle_id <$> axles d
  | change_axle a => a ∈ axle_id <$> axles d
  | _ => True
  end.

(** The states of the editor: from [resetData], by the events of the page. *)
Inductive reachable : Data → Prop :=
  | reachable_reset : reachable resetData
  | reachable_handle d e :
      reachable d → offered d e → reachable (handle e d).

End Editor.

Arguments ParamValue : clear implicits.
Arguments Data : clear implicits.
Arguments Event : clear implicits.

End Editor.

(* ===================================================================== *)
(** ** The gear-coupling table *)
(* ===================================================================== *)

(** The rest of the gears module: the gears offered, the gears selected on
    the page, and the table [calculateGearCouplings] computes for them. *)
Module GearCouplings.
Import Gears.
Local Open Scope float_scope.

(** The [value]s of [STANDARD_TEETH]. *)
Definition STANDARD_TEETH : list Gear :=
  [worm1L; worm2L; teeth 8; teeth 12; teeth 16; teeth 20; teeth 24; teeth 28;
   teeth 36; teeth 40].

(** [getGearSortValue(teeth)]. *)
Definition getGearSortValue (g : Gear) : float :=
  match g with
  | worm1L => 0.75
  | worm2L => 0.5
  | teeth n => n
  end.

(** [selected.includes(num)] for a number [num]: no string equals a number,
    and two numbers are the same value when they are equal or both NaN. *)
Definition includes (selected : list Gear) (num : float) : bool :=
  existsb (λ g,
    match g with
    | teeth n => (n =? num) || (is_nan n && is_nan num)
    | _ => false
    end) selected.

(** [getSelectedTeeth()]: [checked tooth] says whether the checkbox of a
    standard gear is on the page and checked; [customValues] are the numbers
    that [parseInt(v, 10)] reads off the comma-separated parts of the custom
    input (none when the input is empty). *)
Definition getSelectedTeeth (checked : Gear → bool) (customValues : list float)
    : list Gear :=
  let selected := List.filter checked STANDARD_TEETH in
  foldl (λ selected num,
    if negb (is_nan num) && (0 <? num) && negb (includes selected num)
    then selected ++ [teeth num] else selected) selected customValues.

(** A row of the table. *)
Record Coupling := {
  gearA : Gear;
  gearB : float;
  ratio : float;
  dist : float;
  positions : Positions;
}.

(** The body of the two loops of [calculateGearCouplings] for one pair;
    a worm gear as follower is skipped. *)
Definition couplingRow (fuel : nat) (maxOverfit maxUnderfit : float)
    (gearA gearB : Gear) : option (list Coupling) :=
  match gearB with
  | teeth b =>
      let dist := calculateCenterDistance gearA b in
      let ratio := calculateGearRatio gearA b in
      positions ← findMountingPositions fuel dist maxOverfit maxUnderfit;
      Some [{| gearA := gearA; gearB := b; ratio := ratio; dist := dist;
               positions := positions |}]
  | _ => Some []
  end.

(** The comparator of the sort, "by Gear A (numeric), then Gear B". *)
Definition compareCouplings (a b : Coupling) : float :=
  let sortA := getGearSortValue (gearA a) in
  let sortB := getGearSortValue (gearA b) in
  if negb (sortA =? sortB) then sortA - sortB else gearB a - gearB b.

(** [Array.prototype.sort] with a comparator: a stable sort, here by
    insertion; a row goes before the first row that it must precede. *)
Fixpoint insertCoupling (row : Coupling) (sorted : list Coupling) : list Coupling :=
  match sorted with
  | [] => [row]
  | r :: rest =>
      if compareCouplings row r <? 0 then row :: r :: rest
      else r :: insertCoupling row rest
  end.

Definition sortCouplings (rows : list Coupling) : list Coupling :=
  foldl (λ sorted row, insertCoupling row sorted) [] rows.

(** [calculateGearCouplings(selectedTeeth, maxOverfit, maxUnderfit)]; [None]
    when the fuel of an enumeration runs out. *)
Definition calculateGearCouplings (fuel : nat) (selectedTeeth : list Gear)
    (maxOverfit maxUnderfit : float) : option (list Coupling) :=
  results ←
    foldl (λ results gearA,
      foldl (λ results gearB,
        rs ← results;
        row ← couplingRow fuel maxOverfit maxUnderfit gearA gearB;
        Some (rs ++ row)) results selectedTeeth)
      (Some []) selectedTeeth;
  Some (sortCouplings results).

End GearCouplings.

(* ===================================================================== *)
(** ** The inputs of the liftarm calculator *)
(* ===================================================================== *)

(** The 'click' listener of the Calculate button of the liftarms module, up
    to the call of [calculatePositions]: the six numbers read off the page
    are snapped to the step and clamped to their ranges. In exact
    arithmetic; [None] is the [NaN] that [parseFloat] returns for an empty
    or invalid input. *)
Module LiftarmInputs.
Import Arith.
Local Open Scope Qc_scope.

Definition Math_floor (v : Qc) : Qc := Q2Qc (inject_Z (Qfloor v)).
Definition Math_ceil (v : Qc) : Qc := Q2Qc (inject_Z (Qceiling v)).
Definition Math_min (a b : Qc) : Qc := if Qc_leb a b then a else b.
Definition Math_max (a b : Qc) : Qc := if Qc_leb a b then b else a.

(** The arguments passed on to [calculatePositions]. *)
Record Inputs := {
  finalMinA : Qc;
  finalMaxA : Qc;
  finalMinB : Qc;
  finalMaxB : Qc;
  finalMinDecimal : Qc;
  finalMaxDecimal : Qc;
}.

(** [halfStuds ? 0.5 : 1]. *)
Definition stepOf (halfStuds : bool) : Qc :=
  if halfStuds then Q2Qc (1 # 2) else 1.

Definition calcButton_click (halfStuds : bool)
    (rawMinA rawMinB rawMaxA rawMaxB rawMinDecimal rawMaxDecimal : option Qc)
    : Inputs :=
  let step := stepOf halfStuds in
  let safeMinA := default 1 rawMinA in
  let safeMinB := default 0 rawMinB in
  let safeMaxA := default (Q2Qc 4) rawMaxA in
  let safeMaxB := default (Q2Qc 4) rawMaxB in
  let safeMinDecimal := default 0 rawMinDecimal in
  let safeMaxDecimal := default 1 rawMaxDecimal in
  let snapDown v := Math_floor (v / step) * step in
  let clampedMaxA := Math_max 1 (Math_min (Q2Qc 15) (snapDown safeMaxA)) in
  let clampedMaxB := Math_max 0 (Math_min (Q2Qc 15) (snapDown safeMaxB)) in
  let snapUp v := Math_ceil (v / step) * step in
  let clampedMinA := Math_max 1 (Math_min (Q2Qc 15) (snapUp safeMinA)) in
  let clampedMinB := Math_max 0 (Math_min (Q2Qc 15) (snapUp safeMinB)) in
  let clampedMinDecimal := Math_max 0 (Math_min 1 safeMinDecimal) in
  let clampedMaxDecimal := Math_max 0 (Math_min 1 safeMaxDecimal) in
  {| finalMinA := if Qc_ltb clampedMaxA clampedMinA then clampedMaxA else clampedMinA;
     finalMaxA := clampedMaxA;
     finalMinB := if Qc_ltb clampedMaxB clampedMinB then clampedMaxB else clampedMinB;
     finalMaxB := clampedMaxB;
     finalMinDecimal :=
       if Qc_ltb clampedMaxDecimal clampedMinDecimal then clampedMaxDecimal
       else clampedMinDecimal;
     finalMaxDecimal := clampedMaxDecimal |}.

End LiftarmInputs.

(* ===================================================================== *)
(** ** The liftarm enumerator that skips positions already seen *)
(* ===================================================================== *)

(** [calculatePositions(maxA, maxB, halfStuds)], the enumerator that keeps a
    set [seen] of keys, from the point where a row is about to be recorded
    to the sorted result. The loops that produce the rows read neither
    [results] nor [seen]: they are represented by [candidates], each row
    with the key that [createKey] makes for it. *)
Module LiftarmsSeen.
Import Arith.

Section Rows.
Context {num : Type} `{!Number num}.

(** A row of the table: the fields the sort reads, and [others] for sNum,
    cLen, tx, ty, ix, iy and the three angles. *)
Variable Others : Type.

Record Row := {
  sx : num;
  sy : num;
  aLen : num;
  bLen : num;
  others : Others;
}.

(** "Create key for deduplication": [if (seen.has(key)) continue;
    seen.add(key);] and then [results.push]. *)
Definition offer (st : list Row * gset string) (c : string * Row)
    : list Row * gset string :=
  let '(results, seen) := st in
  let '(key, row) := c in
  if decide (key ∈ seen) then st (* continue *)
  else (results ++ [row], {[ key ]} ∪ seen).

(** The comparator of the final sort, by Sx, Sy, aLen, bLen. *)
Definition compareRows (a b : Row) : num :=
  if negb (neqb (sx a) (sx b)) then nsub (sx a) (sx b)
  else if negb (neqb (sy a) (sy b)) then nsub (sy a) (sy b)
  else if negb (neqb (aLen a) (aLen b)) then nsub (aLen a) (aLen b)
  else nsub (bLen a) (bLen b).

(** [Array.prototype.sort] with a comparator: a stable sort, here by
    insertion; a row goes before the first row that it must precede. *)
Fixpoint insertRow (row : Row) (sorted : list Row) : list Row :=
  match sorted with
  | [] => [row]
  | r :: rest =>
      if nltb (compareRows row r) (of_Z 0) then row :: r :: rest
      else r :: insertRow row rest
  end.

Definition sortRows (rows : list Row) : list Row :=
  foldl (λ sorted row, insertRow row sorted) [] rows.

Definition calculatePositions (candidates : list (string * Row)) : list Row :=
  let '(results, seen) := foldl offer ([], ∅) candidates in
  sortRows results.

End Rows.

Arguments offer {num Others}.
Arguments insertRow {num _ Others}.
Arguments sortRows {num _ Others}.
Arguments calculatePositions {num _ Others}.

End LiftarmsSeen.

(* ===================================================================== *)
(** ** The geometry kernel in real arithmetic *)
(* ===================================================================== *)

(** The two circle-intersection routines of [Geometry] once more, with the
    same operations in the same order but on real numbers in place of
    binary64: what the routines compute when no operation rounds.
    [Math.hypot] is the root of the sum of the squares. *)
Module RealGeometry.
Import Reals.
Local Open Scope R_scope.

Record Point := { x : R; y : R }.

(** The literal [1e-12]. *)
Definition eps : R := / 10 ^ 12.

Definition Math_hypot (a b : R) : R := sqrt (a * a + b * b).

Definition circleIntersections (c0 : Point) (r0 : R) (c1 : Point) (r1 : R)
    : list Point :=
  let dx := x c1 - x c0 in
  let dy := y c1 - y c0 in
  let d := Math_hypot dx dy in
  if Rlt_dec d eps then []
  else if Rlt_dec (r0 + r1 + eps) d then []
  else if Rlt_dec d (Rabs (r0 - r1) - eps) then []
  else
    let a := (r0 * r0 - r1 * r1 + d * d) / (2 * d) in
    let h2 := r0 * r0 - a * a in
    let h := if Rle_dec h2 0 then 0 else sqrt h2 in
    let x2 := x c0 + a * (dx / d) in
    let y2 := y c0 + a * (dy / d) in
    let rx := - dy * (h / d) in
    let ry := dx * (h / d) in
    if Req_dec_T h 0 then [{| x := x2; y := y2 |}]
    else [{| x := x2 + rx; y := y2 + ry |}; {| x := x2 - rx; y := y2 - ry |}].

(** [Point.distanceTo(other)]. *)
Definition distanceTo (this other : Point) : R :=
  sqrt ((x this - x other) * (x this - x other)
        + (y this - y other) * (y this - y other)).

(** [Point.circleIntersections(r0, other, r1)]. *)
Definition Point_circleIntersections (this : Point) (r0 : R)
    (other : Point) (r1 : R) : list Point :=
  let d := distanceTo this other in
  if Rlt_dec (r0 + r1) d then []
  else if Rlt_dec d (Rabs (r0 - r1)) then []
  else if Req_dec_T d 0 then []
  else
    let a := (r0 * r0 - r1 * r1 + d * d) / (2 * d) in
    let h2 := r0 * r0 - a * a in
    if Rlt_dec h2 0 then []
    else
      let h := sqrt h2 in
      let px := x this + a * (x other - x this) / d in
      let py := y this + a * (y other - y this) / d in
      let rx := - (y other - y this) * h / d in
      let ry := (x other - x this) * h / d in
      if Req_dec_T h 0 then [{| x := px; y := py |}]
      else [{| x := px + rx; y := py + ry |}; {| x := px - rx; y := py - ry |}].

End RealGeometry.

(* ===================================================================== *)
(** ** The table of results *)
(* ===================================================================== *)

(** [class DataTable], the component that shows the rows of the liftarm
    calculator: its filters and its sort. All the columns are of type
    'number', as are those of every table of the liftarms module. A row is
    the JavaScript object, a map from keys to numbers; a property that is
    absent or holds [NaN] is absent from the map ([parseFloat] reads [NaN]
    of both). *)
Module DataTable.
Import Arith.

Inductive Direction := asc | desc.

#[global] Instance Direction_eq_dec : EqDecision Direction.
Proof. solve_decision. Defined.

Section Table.
Context {num : Type} `{!Number num}.

Definition Row := gmap string num.

(** [filterValues[col.key]], [{ min, max }]: what [parseFloat] reads of the
    two strings, [None] for the empty string and for a string that is no
    number, which the filter skips alike. *)
Record Range := {
  min : option num;
  max : option num;
}.

Record Table := {
  columns : list string;
  data : list Row;
  filteredData : list Row;
  sortColumn : option string;
  sortDirection : Direction;
  filterValues : gmap string Range;
}.

(** The constructor: no rows, no sort, and an empty filter for each
    column. *)
Definition new (columns : list string) : Table :=
  {| columns := columns; data := []; filteredData := [];
     sortColumn := None; sortDirection := asc;
     filterValues :=
       list_to_map ((λ key, (key, {| min := None; max := None |})) <$> columns) |}.

(** [parseFloat(valA) || 0]. *)
Definition sortValue (column : string) (row : Row) : num :=
  match row !! column with
  | Some v => if truthy v then v else of_Z 0
  | None => of_Z 0
  end.

(** The comparator of [applySort], as the sign it returns, and the number
    [-1], [0] or [1] itself. *)
Definition comparison (column : string) (direction : Direction) (a b : Row)
    : Z :=
  let valA := sortValue column a in
  let valB := sortValue column b in
  let comparison := 0%Z in
  let comparison := if nltb valA valB then (-1)%Z else comparison in
  let comparison := if nltb valB valA then 1%Z else comparison in
  if decide (direction = desc) then (- comparison)%Z else comparison.

(** [Array.prototype.sort] with a comparator: a stable sort, here by
    insertion; a row goes before the first row that it must precede. *)
Fixpoint insertBy (cmp : Row → Row → Z) (row : Row) (sorted : list Row)
    : list Row :=
  match sorted with
  | [] => [row]
  | r :: rest =>
      if (cmp row r <? 0)%Z then row :: r :: rest
      else r :: insertBy cmp row rest
  end.

Definition sortBy (cmp : Row → Row → Z) (rows : list Row) : list Row :=
  foldl (λ sorted row, insertBy cmp row sorted) [] rows.

(** [applySort(column, direction)], for the key of a column. *)
Definition applySort (column : string) (direction : Direction) (t : Table)
    : Table :=
  {| columns := columns t; data := data t;
     filteredData := sortBy (comparison column direction) (filteredData t);
     sortColumn := Some column; sortDirection := direction;
     filterValues := filterValues t |}.

(** The test of [applyFilters] for one row and one column. *)
Definition inRange (filterValues : gmap string Range) (row : Row)
    (key : string) : bool :=
  let numValue := row !! key in
  match filterValues !! key with
  | None => true (* not reached: the constructor gives every column one *)
  | Some filter =>
      let belowMin :=
        match min filter, numValue with
        | Some m, Some v => nltb v m
        | _, _ => false
        end in
      let aboveMax :=
        match max filter, numValue with
        | Some m, Some v => nltb m v
        | _, _ => false
        end in
      if belowMin then false else if aboveMax then false else true
  end.

(** [applyFilters()]. *)
Definition applyFilters (t : Table) : Table :=
  let filtered :=
    List.filter (λ row, forallb (inRange (filterValues t) row) (columns t))
      (data t) in
  let t := {| columns := columns t; data := data t; filteredData := filtered;
              sortColumn := sortColumn t; sortDirection := sortDirection t;
              filterValues := filterValues t |} in
  match sortColumn t with
  | Some column => applySort column (sortDirection t) t
  | None => t
  end.

(** [setData(rows)]. *)
Definition setData (rows : list Row) (t : Table) : Table :=
  applyFilters
    {| columns := columns t; data := rows; filteredData := filteredData t;
       sortColumn := sortColumn t; sortDirection := sortDirection t;
       filterValues := filterValues t |}.

(** The 'click' listener of the header of the column [key]. *)
Definition headerClick (key : string) (t : Table) : Table :=
  let newDirection :=
    if bool_decide (sortColumn t = Some key)
       && bool_decide (sortDirection t = asc)
    then desc else asc in
  applySort key newDirection t.

(** The 'input' listeners of the two filter inputs of the column [key];
    [value] is what [parseFloat] reads of the input. *)
Definition setMin (key : string) (value : option num) (t : Table) : Table :=
  applyFilters
    {| columns := columns t; data := data t; filteredData := filteredData t;
       sortColumn := sortColumn t; sortDirection := sortDirection t;
       filterValues :=
         match filterValues t !! key with
         | Some filter =>
             <[key := {| min := value; max := max filter |}]> (filterValues t)
         | None => filterValues t
         end |}.

Definition setMax (key : string) (value : option num) (t : Table) : Table :=
  applyFilters
    {| columns := columns t; data := data t; filteredData := filteredData t;
       sortColumn := sortColumn t; sortDirection := sortDirection t;
       filterValues :=
         match filterValues t !! key with
         | Some filter =>
             <[key := {| min := min filter; max := value |}]> (filterValues t)
         | None => filterValues t
         end |}.

End Table.

Arguments Row : clear implicits.
Arguments Range : clear implicits.
Arguments Table : clear implicits.

End DataTable.

(* ===================================================================== *)
(** ** The planar distances *)
(* ===================================================================== *)

(** [FloatUtils], the comparisons with a tolerance, in real arithmetic. *)
Module FloatUtils.
Import Reals.
Local Open Scope R_scope.

(** The literal [1e-6]. *)
Definition TOLERANCE : R := / 10 ^ 6.

(** [x < y] and [x <= y] as the booleans they are in the source. *)
Definition Rltb (x y : R) : bool := if Rlt_dec x y then true else false.
Definition Rleb (x y : R) : bool := if Rle_dec x y then true else false.

Definition eq (a b : R) : bool := Rltb (Rabs (a - b)) TOLERANCE.
Definition neq (a b : R) : bool := negb (eq a b).
Definition gt (a b : R) : bool := Rltb (b + TOLERANCE) a.
Definition gte (a b : R) : bool := Rleb (b - TOLERANCE) a.
Definition lt (a b : R) : bool := Rltb a (b - TOLERANCE).
Definition lte (a b : R) : bool := Rleb a (b + TOLERANCE).

End FloatUtils.

(** The 'click' listener of the Calculate button of the distances module,
    in real arithmetic: what it computes for the cell at the offsets
    [(ox, oy)] of the table, before the numbers are formatted. [None] is the
    [NaN] that [parseFloat] reads of an input that is empty or no number. *)
Module Distances.
Import Reals RealGeometry.
Local Open Scope R_scope.

Definition Math_floor (v : R) : R := IZR (Int_part v).

(** What the listener gives a cell: the distance that it shows, and the
    classes 'axis-x', 'axis-y' and 'highlighted'. *)
Record Cell := {
  d : R;
  axis_x : bool;
  axis_y : bool;
  highlighted : bool;
}.

(** [halfStuds ? 0.5 : 1]. *)
Definition stepOf (halfStuds : bool) : R := if halfStuds then 5 / 10 else 1.

(** [halfStuds ? 10 : 5], the [max] of [createTable]. *)
Definition maxOf (halfStuds : bool) : Z := if halfStuds then 10%Z else 5%Z.

(** [centerX] and [centerY]. *)
Definition center (halfStuds : bool) (v : R) : R :=
  if halfStuds then Math_floor (v / (5 / 10)) * (5 / 10) else Math_floor v.

(** The coordinate [cx] or [cy] of the cells at the offset [o]. *)
Definition coordinate (halfStuds : bool) (v : R) (o : Z) : R :=
  center halfStuds v + IZR o * stepOf halfStuds.

Definition cell (rawX rawY : option R) (halfStuds : bool)
    (minHighlight maxHighlight : option R) (ox oy : Z) : Cell :=
  let x := default 0 rawX in
  let y := default 0 rawY in
  let target := {| RealGeometry.x := x; RealGeometry.y := y |} in
  let cx := coordinate halfStuds x ox in
  let cy := coordinate halfStuds y oy in
  let p := {| RealGeometry.x := cx; RealGeometry.y := cy |} in
  let d := distanceTo p target in
  let isAxisX := FloatUtils.eq cx 0 in
  let isAxisY := FloatUtils.eq cy 0 in
  {| d := d; axis_x := isAxisX; axis_y := isAxisY;
     highlighted :=
       match minHighlight, maxHighlight with
       | Some minHighlight, Some maxHighlight =>
           (FloatUtils.neq minHighlight 0 || FloatUtils.neq maxHighlight 0)
           && FloatUtils.gte d minHighlight && FloatUtils.lte d maxHighlight
       | _, _ => false
       end |}.

(** The offsets [-max, ..., max]. *)
Definition offsets (halfStuds : bool) : list Z :=
  (λ i : nat, (Z.of_nat i - maxOf halfStuds)%Z)
    <$> seq 0 (Z.to_nat (2 * maxOf halfStuds + 1)).

(** The body of the table: the rows from [y = max] down, each from
    [x = -max] up. *)
Definition calculate (rawX rawY : option R) (halfStuds : bool)
    (minHighlight maxHighlight : option R) : list (list Cell) :=
  (λ oy, (λ ox, cell rawX rawY halfStuds minHighlight maxHighlight ox oy)
           <$> offsets halfStuds)
    <$> reverse (offsets halfStuds).

End Distances.

(* ===================================================================== *)
(** ** Example gearboxes (binary64) *)
(* ===================================================================== *)

Module Examples.
Import Arith Gearbox.
Local Open Scope float_scope.

Definition noParams : Params float :=
  {| teethA := None; teethB := None; invertDirection := None; modes := ∅ |}.

(** The source tool as [resetData] creates it, its output on axle 1. *)
Definition theSource : Tool float :=
  {| type := source; id := "source";
     connections := [{| name := "Output"; axleId := Some 1%Z |}];
     params := noParams |}.

(** A coupling as [addTool] creates it, with the given bindings and
    parameters. *)
Definition mkCoupling (i : string) (a b : option Z) (tA tB : float)
    (inv : bool) : Tool float :=
  {| type := coupling; id := i;
     connections := [{| name := "Gear A"; axleId := a |};
                     {| name := "Gear B"; axleId := b |}];
     params := {| teethA := Some tA; teethB := Some tB;
                  invertDirection := Some inv; modes := ∅ |} |}.

Definition mkSelector (i : string) (c a b : option Z) (m : gmap nat string)
    : Tool float :=
  {| type := selector; id := i;
     connections := [{| name := "Center"; axleId := c |};
                     {| name := "A"; axleId := a |};
                     {| name := "B"; axleId := b |}];
     params := {| teethA := None; teethB := None; invertDirection := None;
                  modes := m |} |}.

Definition mkDifferential (i : string) (body a b : option Z) : Tool float :=
  {| type := differential; id := i;
     connections := [{| name := "Body"; axleId := body |};
                     {| name := "A"; axleId := a |};
                     {| name := "B"; axleId := b |}];
     params := noParams |}.

Definition mkGearbox (ts : list (Tool float)) : Gearbox float :=
  {| sourceTool := theSource; tools := theSource :: ts |}.


(** Axle 1 carries speed 2, torque 3, produced by the source. *)
Definition axle1_2_3 : gmap Z (AxleValue float) :=
  {[ 1%Z := {| speed := 2; torque := 3; outputBy := "source" |} ]}.

(** Two couplings between the same two axles: both would write axle 2. *)
Definition conflictExample : Gearbox float :=
  mkGearbox [mkCoupling "tool_1" (Some 1%Z) (Some 2%Z) 16 16 true;
             mkCoupling "tool_2" (Some 1%Z) (Some 2%Z) 16 20 true;
             mkCoupling "tool_3" (Some 2%Z) (Some 3%Z) 16 16 true].

(** A selector, Locked in mode 1, with only Center connected, to an axle
    that no other tool produces. *)
Definition lockedSelector : Tool float :=
  mkSelector "tool_1" (Some 5%Z) None None {[ 1%nat := "Locked" ]}.

Definition lockedExample : Gearbox float := mkGearbox [lockedSelector].

(** The same selector with Center on the source's axle. *)
Definition lockedOnSource : Gearbox float :=
  mkGearbox [mkSelector "tool_1" (Some 1%Z) None None {[ 1%nat := "Locked" ]}].

(** Three couplings in series, axle 1 to axle 4, listed against the flow so
    that every sweep carries the value one axle further. *)
Definition chainExample : Gearbox float :=
  mkGearbox [mkCoupling "tool_3" (Some 3%Z) (Some 4%Z) 16 16 true;
             mkCoupling "tool_2" (Some 2%Z) (Some 3%Z) 16 16 true;
             mkCoupling "tool_1" (Some 1%Z) (Some 2%Z) 16 16 true].

(** A selector with Center on axle 1, A on axle 2 and B on axle 3 that
    selects A in mode 1 and B in mode 2. *)
Definition selectorAB : Tool float :=
  mkSelector "tool_1" (Some 1%Z) (Some 2%Z) (Some 3%Z)
    {[ 1%nat := "A"; 2%nat := "B" ]}.

End Examples.

(* ===================================================================== *)
(** ** Two facts of binary64 arithmetic *)
(* ===================================================================== *)

(** Multiplying by [1] is exact, as the IEEE specification of the
    multiplication has it: the product of the mantissas is shifted back by
    the 52 bits that the mantissa of [1] adds, with nothing to round. *)
Module FloatFacts.
Import SpecFloat.

Definition SFone : spec_float := S754_finite false 4503599627370496 (-52).

Lemma digits2_pos_shift (m : positive) :
  digits2_pos (4503599627370496 * m) = (digits2_pos m + 52)%positive.
Proof.
  change (4503599627370496 * m)%positive with (Pos.iter xO m 52).
  cbv [Pos.iter]. simpl digits2_pos. lia.
Qed.

Lemma iter_shr_52 (m : positive) :
  iter_pos shr_1 52
    {| shr_m := Zpos (4503599627370496 * m); shr_r := false; shr_s := false |}
  = {| shr_m := Zpos m; shr_r := false; shr_s := false |}.
Proof.
  change (4503599627370496 * m)%positive with (Pos.iter xO m 52).
  reflexivity.
Qed.

Lemma SFmul_one_l s :
  SpecFloat.valid_binary prec emax s = true → SF64mul SFone s = s.
Proof.
  destruct s as [sx|sx| |sx mx ex]; try reflexivity.
  unfold SF64mul, SFone, SFmul. cbv [xorb]. intros Hv.
  unfold SpecFloat.valid_binary, bounded, canonical_mantissa in Hv.
  apply andb_prop in Hv as [Hc Hb]. apply Z.eqb_eq in Hc.
  unfold binary_round_aux, shr_fexp. unfold Zdigits2.
  rewrite digits2_pos_shift.
  replace (Z.pos (digits2_pos mx + 52) + (-52 + ex))%Z
    with (Z.pos (digits2_pos mx) + ex)%Z by lia.
  rewrite Hc.
  replace (ex - (-52 + ex))%Z with 52%Z by lia.
  unfold shr at 1.
  change (shr_record_of_loc (Z.pos (4503599627370496 * mx)) loc_Exact)
    with {| shr_m := Z.pos (4503599627370496 * mx); shr_r := false;
            shr_s := false |}.
  rewrite iter_shr_52.
  cbv beta iota zeta delta [shr_m loc_of_shr_record round_nearest_even].
  replace (-52 + ex + 52)%Z with ex by lia.
  rewrite Hc. rewrite Z.sub_diag. cbv [shr shr_record_of_loc shr_m].
  rewrite Hb. reflexivity.
Qed.

Lemma SFmul_one_r s :
  SpecFloat.valid_binary prec emax s = true → SF64mul s SFone = s.
Proof.
  destruct s as [sx|sx| |sx mx ex];
    try reflexivity; try (destruct sx; reflexivity).
  intros Hv. rewrite <- (SFmul_one_l _ Hv) at 2.
  unfold SF64mul, SFone, SFmul.
  rewrite (Pos.mul_comm mx), (Z.add_comm ex). destruct sx; reflexivity.
Qed.

Lemma float_mul_1_l (x : float) : (1 * x = x)%float.
Proof.
  apply Prim2SF_inj. rewrite mul_spec. apply SFmul_one_l. apply Prim2SF_valid.
Qed.

Lemma float_mul_1_r (x : float) : (x * 1 = x)%float.
Proof.
  apply Prim2SF_inj. rewrite mul_spec. apply SFmul_one_r. apply Prim2SF_valid.
Qed.

End FloatFacts.
(* ===================================================================== *)
(** ** The evaluators *)
(* ===================================================================== *)

Module GearboxEval.
Import Arith Gearbox.

Section Evaluators.
Context {num : Type} `{!Number num}.
Implicit Types (tool : Tool num) (av : gmap Z (AxleValue num)).

Lemma hasInput_getInput tool conn av :
  hasInput tool conn av = true →
  ∃ v, getInput conn av = Some v ∧ outputBy v ≠ id tool.
Proof.
  unfold hasInput, getInput. destruct (axleId conn) as [a|]; [|done].
  simpl. destruct (av !! a) as [v|]; [|done].
  intros Hb%bool_decide_eq_true. eauto.
Qed.

Lemma hasInput_false tool conn av a :
  hasInput tool conn av = false → axleId conn = Some a →
  av !! a = None ∨ ∃ v, av !! a = Some v ∧ outputBy v = id tool.
Proof.
  unfold hasInput. intros Hh Ha. rewrite Ha in Hh.
  destruct (av !! a) as [v|]; [|by left].
  right. exists v. split; [done|].
  apply bool_decide_eq_false in Hh. by destruct (decide (outputBy v = id tool)).
Qed.


End Evaluators.
End GearboxEval.
Module GearboxStep.
Import Arith Gearbox GearboxEval.

Section Step.
Context {num : Type} `{!Number num}.
Implicit Types (tool : Tool num) (av : gmap Z (AxleValue num))
  (st : State num) (g : Gearbox num) (o : Output num).

(** An axle is free for a tool when it has no value yet or a value the tool
    produced itself: the negation of the last two conjuncts of [hasInput]. *)
Definition free tool av (a : Z) : Prop :=
  av !! a = None ∨ ∃ v, av !! a = Some v ∧ outputBy v = id tool.

(** The status the sweep records for a result. *)
Definition status_of (r : Result num) : Status :=
  {| error := or_null (r_error r); flagged := r_flagged r |}.

Definition ok : Status := {| error := None; flagged := false |}.

(** The four shapes of an evaluator's result. *)
Inductive eval_shape tool av : Result num → Prop :=
  | shape_flagged : eval_shape tool av res_flagged
  | shape_error : eval_shape tool av (res_error "Conflicting outputs")
  | shape_output o :
      free tool av (o_axleId o) → eval_shape tool av (res_output o)
  | shape_outputs os :
      os ≠ [] → Forall (λ o, free tool av (o_axleId o)) os →
      eval_shape tool av (res_outputs os).

Lemma hasInput_false_free tool conn av a :
  hasInput tool conn av = false → axleId conn = Some a → free tool av a.
Proof. apply hasInput_false. Qed.

Lemma evaluateCoupling_shape tool gm av :
  eval_shape tool av (evaluateCoupling tool gm av).
Proof.
  unfold evaluateCoupling.
  destruct (findConnection "Gear A" tool) as [cA|]; [|constructor].
  destruct (findConnection "Gear B" tool) as [cB|]; [|constructor].
  destruct (hasInput tool cA av) eqn:HA, (hasInput tool cB av) eqn:HB; simpl;
    try constructor.
  - destruct (axleId cB) as [out|] eqn:Hout; [|constructor].
    destruct (getInput cA av); constructor. eauto using hasInput_false_free.
  - destruct (axleId cA) as [out|] eqn:Hout; [|constructor].
    destruct (getInput cB av); constructor. eauto using hasInput_false_free.
Qed.

Lemma lockedOutputs_free tool av conns :
  Forall (λ o, free tool av (o_axleId o)) (lockedOutputs tool av conns).
Proof.
  unfold lockedOutputs. induction conns as [|c conns IH]; simpl; [constructor|].
  apply Forall_app. split; [|done].
  destruct (axleId c) as [a|]; [|constructor].
  destruct (av !! a) as [v|] eqn:Hv.
  - case_bool_decide as Hb; [constructor|].
    apply Forall_singleton. right. exists v. split; [done|].
    simpl. by destruct (decide (outputBy v = id tool)).
  - apply Forall_singleton. by left.
Qed.

Lemma evaluateSelector_shape tool gm av :
  eval_shape tool av (evaluateSelector tool gm av).
Proof.
  unfold evaluateSelector.
  destruct (findConnection "Center" tool) as [cC|]; [|constructor].
  destruct (findConnection "A" tool) as [cA|]; [|constructor].
  destruct (findConnection "B" tool) as [cB|]; [|constructor].
  destruct (String.eqb (selection tool gm) "Locked").
  - destruct (lockedOutputs tool av [cC; cA; cB]) as [|o os] eqn:Hos;
      simpl; [constructor|].
    constructor; [done|]. rewrite <- Hos. apply lockedOutputs_free.
  - set (act := if String.eqb (selection tool gm) "A" then cA else cB).
    destruct (hasInput tool cC av) eqn:HC, (hasInput tool act av) eqn:HA; simpl;
      try constructor.
    + destruct (axleId act) as [out|] eqn:Hout; [|constructor].
      destruct (getInput cC av); constructor. eauto using hasInput_false_free.
    + destruct (axleId cC) as [out|] eqn:Hout; [|constructor].
      destruct (getInput act av); constructor. eauto using hasInput_false_free.
Qed.

Lemma evaluateDifferential_shape tool gm av :
  eval_shape tool av (evaluateDifferential tool gm av).
Proof.
  unfold evaluateDifferential.
  destruct (findConnection "Body" tool) as [cBody|]; [|constructor].
  destruct (findConnection "A" tool) as [cA|]; [|constructor].
  destruct (findConnection "B" tool) as [cB|]; [|constructor].
  destruct (hasInput tool cBody av) eqn:HBody, (hasInput tool cA av) eqn:HA,
    (hasInput tool cB av) eqn:HB; simpl; try constructor.
  - destruct (getInput cBody av); simpl; [|constructor].
    destruct (getInput cA av); simpl; [|constructor].
    destruct (axleId cB) eqn:Hout; constructor. eauto using hasInput_false_free.
  - destruct (getInput cBody av); simpl; [|constructor].
    destruct (getInput cB av); simpl; [|constructor].
    destruct (axleId cA) eqn:Hout; constructor. eauto using hasInput_false_free.
  - destruct (getInput cA av); simpl; [|constructor].
    destruct (getInput cB av); simpl; [|constructor].
    destruct (axleId cBody) eqn:Hout; constructor. eauto using hasInput_false_free.
Qed.

Lemma evaluateTool_shape tool gm av :
  eval_shape tool av (evaluateTool tool gm av).
Proof.
  unfold evaluateTool. destruct (type tool);
    auto using evaluateCoupling_shape, evaluateSelector_shape,
      evaluateDifferential_shape, eval_shape.
Qed.

(** *** One step of the sweep *)

(** The outputs a result asks the sweep to write. *)
Definition targets (r : Result num) : list (Output num) :=
  from_option (λ o, [o]) [] (r_output r) ++ default [] (r_outputs r).

(** The entry the sweep writes for an output. *)
Definition entry tool o : AxleValue num :=
  {| speed := o_speed o; torque := o_torque o; outputBy := id tool |}.

Lemma or_null_conflicting : or_null (Some "Conflicting outputs") = Some "Conflicting outputs".
Proof. reflexivity. Qed.

(** The branch of "Handle single output" that reports "Conflict with ..." is
    never taken: an evaluator only outputs to an axle that is free for its
    tool. One step is therefore: record the status, then write every target
    that has no value yet. *)
Lemma toolStep_eq g gm st tool :
  type tool ≠ source →
  toolStep g gm st tool =
    foldl (handleOutputs1 tool)
      (set_status (id tool) (status_of (evaluateTool tool gm (axleValues st))) st)
      (targets (evaluateTool tool gm (axleValues st))).
Proof.
  intros Hty. unfold toolStep. rewrite decide_False by done.
  destruct (evaluateTool_shape tool gm (axleValues st)) as [| |o Hfree|os Hne Hfree];
    try done.
  simpl. unfold handleOutput, handleOutputs1, targets. simpl.
  destruct Hfree as [Hn|(v & Hv & Hby)].
  - by rewrite Hn.
  - rewrite Hv. rewrite bool_decide_eq_false_2; [done|]. by intros ?.
Qed.

Lemma toolStep_source g gm st tool :
  type tool = source → toolStep g gm st tool = st.
Proof. intros Hty. unfold toolStep. by rewrite decide_True. Qed.

(** Writing a list of outputs. *)
Definition unchanged st st' : Prop :=
  changed st' = changed st ∧ axleValues st' = axleValues st.

Definition grown st st' : Prop :=
  changed st' = true ∧ axleValues st ⊂ axleValues st'.

Lemma handleOutputs1_cases tool st o :
  (axleValues st !! o_axleId o ≠ None ∧ handleOutputs1 tool st o = st) ∨
  (axleValues st !! o_axleId o = None ∧
   handleOutputs1 tool st o = set_value (o_axleId o) (entry tool o) st).
Proof.
  unfold handleOutputs1. destruct (axleValues st !! o_axleId o) eqn:E.
  - left. split; [done|]. by case_bool_decide.
  - by right.
Qed.

Lemma write_outputs_status tool st os :
  status (foldl (handleOutputs1 tool) st os) = status st ∧
  iterations (foldl (handleOutputs1 tool) st os) = iterations st.
Proof.
  revert st. induction os as [|o os IH]; intros st; simpl; [done|].
  destruct (IH (handleOutputs1 tool st o)) as [-> ->].
  by destruct (handleOutputs1_cases tool st o) as [[_ ->]|[_ ->]].
Qed.

Lemma write_outputs_mono tool st os :
  axleValues st ⊆ axleValues (foldl (handleOutputs1 tool) st os).
Proof.
  revert st. induction os as [|o os IH]; intros st; simpl; [done|].
  etrans; [|apply IH].
  destruct (handleOutputs1_cases tool st o) as [[_ ->]|[Hn ->]]; [done|].
  simpl. by apply insert_subseteq.
Qed.

Lemma write_outputs_changed tool st os :
  unchanged st (foldl (handleOutputs1 tool) st os) ∨
  grown st (foldl (handleOutputs1 tool) st os).
Proof.
  revert st. induction os as [|o os IH]; intros st; simpl; [by left|].
  destruct (handleOutputs1_cases tool st o) as [[_ ->]|[Hn Heq]]; [apply IH|].
  right. rewrite Heq.
  assert (axleValues st ⊂ axleValues (set_value (o_axleId o) (entry tool o) st))
    as Hlt by (simpl; by apply insert_subset).
  destruct (IH (set_value (o_axleId o) (entry tool o) st)) as [[Hc Ha]|[Hc Ha]].
  - split; [by rewrite Hc|]. by rewrite Ha.
  - split; [done|]. by etrans.
Qed.

Lemma write_outputs_lookup tool st os a v :
  axleValues (foldl (handleOutputs1 tool) st os) !! a = Some v →
  axleValues st !! a = Some v ∨
  (axleValues st !! a = None ∧ ∃ o, o ∈ os ∧ a = o_axleId o ∧ v = entry tool o).
Proof.
  revert st. induction os as [|o os IH]; intros st; simpl; [by left|].
  intros [Hv|(Hn & o' & Ho' & -> & ->)]%IH.
  - destruct (handleOutputs1_cases tool st o) as [[_ Heq]|[Hn Heq]];
      rewrite Heq in Hv; [by left|].
    simpl in Hv. destruct (decide (o_axleId o = a)) as [<-|Hne].
    + rewrite lookup_insert_eq in Hv. injection Hv as <-.
      right. split; [done|]. exists o. split; [left|done].
    + rewrite lookup_insert_ne in Hv by done. by left.
  - right. split.
    + destruct (handleOutputs1_cases tool st o) as [[_ Heq]|[Hn' Heq]];
        rewrite Heq in Hn; [done|].
      simpl in Hn. apply lookup_insert_None in Hn. tauto.
    + exists o'. split; [by right|done].
Qed.

Lemma write_outputs_present tool st os o :
  o ∈ os → is_Some (axleValues (foldl (handleOutputs1 tool) st os) !! o_axleId o).
Proof.
  revert st. induction os as [|o' os IH]; intros st Hin; simpl.
  - by apply elem_of_nil in Hin.
  - apply elem_of_cons in Hin as [->|Hin]; [|by apply IH].
    assert (is_Some (axleValues (handleOutputs1 tool st o') !! o_axleId o')) as [v Hv].
    { destruct (handleOutputs1_cases tool st o') as [[Hs ->]|[Hn ->]].
      - by apply not_eq_None_Some.
      - simpl. rewrite lookup_insert_eq. eauto. }
    exists v. eapply lookup_weaken; [done|]. apply write_outputs_mono.
Qed.

(** What one step does to the state. *)
Lemma toolStep_status g gm st tool :
  type tool ≠ source →
  status (toolStep g gm st tool) =
    <[id tool := status_of (evaluateTool tool gm (axleValues st))]> (status st).
Proof.
  intros Hty. rewrite toolStep_eq by done.
  by destruct (write_outputs_status tool
    (set_status (id tool) (status_of (evaluateTool tool gm (axleValues st))) st)
    (targets (evaluateTool tool gm (axleValues st)))) as [-> _].
Qed.

Lemma toolStep_iterations g gm st tool :
  iterations (toolStep g gm st tool) = iterations st.
Proof.
  destruct (decide (type tool = source)) as [Hty|Hty].
  - by rewrite toolStep_source.
  - rewrite toolStep_eq by done.
    by destruct (write_outputs_status tool
      (set_status (id tool) (status_of (evaluateTool tool gm (axleValues st))) st)
      (targets (evaluateTool tool gm (axleValues st)))) as [_ ->].
Qed.

Lemma toolStep_mono g gm st tool :
  axleValues st ⊆ axleValues (toolStep g gm st tool).
Proof.
  destruct (decide (type tool = source)) as [Hty|Hty].
  - by rewrite toolStep_source.
  - rewrite toolStep_eq by done.
    apply (write_outputs_mono tool (set_status _ _ st)).
Qed.

Lemma toolStep_changed g gm st tool :
  unchanged st (toolStep g gm st tool) ∨ grown st (toolStep g gm st tool).
Proof.
  destruct (decide (type tool = source)) as [Hty|Hty].
  - rewrite toolStep_source by done. by left.
  - rewrite toolStep_eq by done.
    apply (write_outputs_changed tool (set_status _ _ st)).
Qed.

Lemma toolStep_lookup g gm st tool a v :
  axleValues (toolStep g gm st tool) !! a = Some v →
  axleValues st !! a = Some v ∨
  (axleValues st !! a = None ∧ type tool ≠ source ∧
   ∃ o, o ∈ targets (evaluateTool tool gm (axleValues st)) ∧
        a = o_axleId o ∧ v = entry tool o).
Proof.
  destruct (decide (type tool = source)) as [Hty|Hty].
  - rewrite toolStep_source by done. by left.
  - rewrite toolStep_eq by done.
    intros [Hv|(Hn & Ho)]%write_outputs_lookup; [by left|by right].
Qed.

Lemma toolStep_present g gm st tool o :
  type tool ≠ source →
  o ∈ targets (evaluateTool tool gm (axleValues st)) →
  is_Some (axleValues (toolStep g gm st tool) !! o_axleId o).
Proof.
  intros Hty Ho. rewrite toolStep_eq by done. by apply write_outputs_present.
Qed.

(** *** A sweep and the loop *)

(** The state with which the body of the [while] starts its sweep. *)
Definition sweepStart st : State num :=
  {| axleValues := axleValues st; status := status st; changed := false;
     iterations := S (iterations st) |}.

Lemma sweep_eq g gm st :
  sweep g gm st = foldl (toolStep g gm) (sweepStart st) (tools g).
Proof. reflexivity. Qed.

Lemma unchanged_grown_trans st1 st2 st3 :
  unchanged st1 st2 ∨ grown st1 st2 →
  unchanged st2 st3 ∨ grown st2 st3 →
  unchanged st1 st3 ∨ grown st1 st3.
Proof.
  unfold unchanged, grown.
  intros [[Hc1 Ha1]|[Hc1 Ha1]] [[Hc2 Ha2]|[Hc2 Ha2]].
  - left. split; congruence.
  - right. split; [done|]. by rewrite <- Ha1.
  - right. split; [congruence|]. by rewrite Ha2.
  - right. split; [done|]. by etrans.
Qed.

Lemma steps_mono g gm st l :
  axleValues st ⊆ axleValues (foldl (toolStep g gm) st l).
Proof.
  revert st. induction l as [|t l IH]; intros st; simpl; [done|].
  etrans; [apply toolStep_mono|apply IH].
Qed.

Lemma steps_changed g gm st l :
  unchanged st (foldl (toolStep g gm) st l) ∨
  grown st (foldl (toolStep g gm) st l).
Proof.
  revert st. induction l as [|t l IH]; intros st; simpl; [by left|].
  eapply unchanged_grown_trans; [apply toolStep_changed|apply IH].
Qed.

Lemma steps_iterations g gm st l :
  iterations (foldl (toolStep g gm) st l) = iterations st.
Proof.
  revert st. induction l as [|t l IH]; intros st; simpl; [done|].
  by rewrite IH, toolStep_iterations.
Qed.

(** An invariant of the steps is an invariant of the sweep. *)
Lemma steps_ind g gm (P : State num → Prop) st l :
  (∀ st' t, t ∈ l → P st' → P (toolStep g gm st' t)) →
  P st → P (foldl (toolStep g gm) st l).
Proof.
  revert st. induction l as [|t l IH]; intros st Hstep Hst; simpl; [done|].
  apply IH.
  - intros st' t' Ht'. apply Hstep. by right.
  - apply Hstep; [by left|done].
Qed.

Lemma sweep_mono g gm st : axleValues st ⊆ axleValues (sweep g gm st).
Proof. rewrite sweep_eq. apply (steps_mono g gm (sweepStart st)). Qed.

Lemma sweep_iterations g gm st : iterations (sweep g gm st) = S (iterations st).
Proof. rewrite sweep_eq. by rewrite steps_iterations. Qed.

(** [changed] after a sweep says exactly whether the sweep added a value. *)
Lemma sweep_changed g gm st :
  (changed (sweep g gm st) = false ∧ axleValues (sweep g gm st) = axleValues st) ∨
  (changed (sweep g gm st) = true ∧ axleValues st ⊂ axleValues (sweep g gm st)).
Proof.
  rewrite sweep_eq.
  destruct (steps_changed g gm (sweepStart st) (tools g)) as [[Hc Ha]|[Hc Ha]].
  - by left.
  - by right.
Qed.

Lemma propagate_unfold g gm budget st :
  propagate g gm (S budget) st =
    if changed st then propagate g gm budget (sweep g gm st) else st.
Proof. reflexivity. Qed.

Lemma propagate_ind g gm (P : State num → Prop) budget st :
  (∀ st', P st' → P (sweep g gm st')) → P st → P (propagate g gm budget st).
Proof.
  intros Hsweep. revert st. induction budget as [|b IH]; intros st Hst; simpl; [done|].
  destruct (changed st); [|done]. by apply IH, Hsweep.
Qed.

Lemma propagate_mono g gm budget st :
  axleValues st ⊆ axleValues (propagate g gm budget st).
Proof.
  revert st. induction budget as [|b IH]; intros st; simpl; [done|].
  destruct (changed st); [|done]. etrans; [apply sweep_mono|apply IH].
Qed.

(** The loop is a number of sweeps: each but the last one changed the map,
    and the last one did not unless the budget ran out. *)
Lemma propagate_sweeps g gm budget st :
  ∃ k, k ≤ budget ∧
    propagate g gm budget st = Nat.iter k (sweep g gm) st ∧
    (∀ i, i < k → changed (Nat.iter i (sweep g gm) st) = true) ∧
    (k = budget ∨ changed (Nat.iter k (sweep g gm) st) = false).
Proof.
  revert st. induction budget as [|b IH]; intros st.
  - exists 0. split_and!; [done|done|intros; lia|by left].
  - rewrite propagate_unfold. destruct (changed st) eqn:Hc.
    + destruct (IH (sweep g gm st)) as (k & Hk & Heq & Hall & Hlast).
      exists (S k). split_and!.
      * lia.
      * by rewrite Nat.iter_succ_r.
      * intros [|i] Hi; [done|]. rewrite Nat.iter_succ_r. apply Hall. lia.
      * destruct Hlast as [->|Hlast]; [by left|right].
        by rewrite Nat.iter_succ_r.
    + exists 0. split_and!; [lia|done|intros; lia|by right].
Qed.

Lemma iter_sweep_iterations g gm k st :
  iterations (Nat.iter k (sweep g gm) st) = k + iterations st.
Proof.
  induction k as [|k IH]; simpl; [done|]. by rewrite sweep_iterations, IH.
Qed.

Lemma iter_sweep_mono g gm k st :
  axleValues st ⊆ axleValues (Nat.iter k (sweep g gm) st).
Proof.
  induction k as [|k IH]; simpl; [done|]. etrans; [apply IH|apply sweep_mono].
Qed.

End Step.
End GearboxStep.

(* ===================================================================== *)
(** ** Whole computations *)
(* ===================================================================== *)

Module GearboxRun.
Import Arith Gearbox GearboxEval GearboxStep.

Section Run.
Context {num : Type} `{!Number num}.
Implicit Types (tool t : Tool num) (av : gmap Z (AxleValue num))
  (st : State num) (g : Gearbox num) (o : Output num).

(** Tool ids identify tools, as [addTool] numbers them ([tool_1], [tool_2],
    ...) and only the source is called "source". *)
Record unique_ids g : Prop := {
  ids_nodup : NoDup (id <$> tools g);
  ids_source : ∀ t, t ∈ tools g → id t = "source" → type t = source;
}.

Lemma unique_ids_eq g t t' :
  unique_ids g → t ∈ tools g → t' ∈ tools g → id t = id t' → t = t'.
Proof.
  intros [Hnd _] Ht Ht' Hid.
  apply list_elem_of_lookup in Ht as [i Hi], Ht' as [j Hj].
  assert (i = j) as ->.
  { eapply (NoDup_lookup _ i j (id t)); [done| |]; rewrite list_lookup_fmap.
    - by rewrite Hi.
    - rewrite Hj. simpl. by rewrite Hid. }
  congruence.
Qed.

(** *** Statuses *)

Lemma steps_status_other g gm st l (i : string) :
  (∀ t, t ∈ l → type t ≠ source → id t ≠ i) →
  status (foldl (toolStep g gm) st l) !! i = status st !! i.
Proof.
  revert st. induction l as [|t l IH]; intros st Hl; simpl; [done|].
  rewrite IH by (intros t' Ht'; apply Hl; by right).
  destruct (decide (type t = source)) as [Hty|Hty].
  - by rewrite toolStep_source.
  - rewrite toolStep_status by done. rewrite lookup_insert_ne; [done|].
    apply Hl; [by left|done].
Qed.

Lemma steps_status_present g gm st l t :
  t ∈ l → type t ≠ source →
  is_Some (status (foldl (toolStep g gm) st l) !! id t).
Proof.
  intros Ht Hty. apply list_elem_of_split in Ht as (l1 & l2 & ->).
  rewrite foldl_app. simpl.
  apply (steps_ind g gm (λ st', is_Some (status st' !! id t))).
  - intros st' t' _ Hs. destruct (decide (type t' = source)) as [Hty'|Hty'].
    + by rewrite toolStep_source.
    + rewrite toolStep_status by done. rewrite lookup_insert.
      case_decide; [eauto|done].
  - rewrite toolStep_status by done. rewrite lookup_insert_eq. eauto.
Qed.

(** An error recorded by a step is the evaluator's "Conflicting outputs". *)
Lemma status_of_cases tool gm av :
  let s := status_of (evaluateTool tool gm av) in
  (s = ok ∧ targets (evaluateTool tool gm av) ≠ []) ∨
  (s = {| error := None; flagged := true |} ∧
   targets (evaluateTool tool gm av) = []) ∨
  (s = {| error := Some "Conflicting outputs"; flagged := false |} ∧
   targets (evaluateTool tool gm av) = []).
Proof.
  simpl. destruct (evaluateTool_shape tool gm av) as [| |o Hfree|os Hne Hfree].
  - right. by left.
  - right. by right.
  - left. split; [done|]. by unfold targets.
  - left. split; [done|]. unfold targets. simpl. done.
Qed.

(** *** The values written *)

Lemma steps_lookup g gm st l a v :
  axleValues (foldl (toolStep g gm) st l) !! a = Some v →
  axleValues st !! a = Some v ∨
  ∃ t, t ∈ l ∧ type t ≠ source ∧ outputBy v = id t.
Proof.
  revert st. induction l as [|t l IH]; intros st; simpl; [by left|].
  intros [Hv|(t' & Ht' & Hty & Hby)]%IH.
  - apply toolStep_lookup in Hv as [Hv|(_ & Hty & o & _ & _ & ->)]; [by left|].
    right. exists t. split; [by left|done].
  - right. exists t'. split; [by right|done].
Qed.

(** Where a tool stands in the sweep: the tools before it, its own step, the
    tools after it. *)
Lemma sweep_split g gm st l1 t l2 :
  tools g = l1 ++ t :: l2 →
  sweep g gm st =
    foldl (toolStep g gm)
      (toolStep g gm (foldl (toolStep g gm) (sweepStart st) l1) t) l2.
Proof. intros Hl. rewrite sweep_eq, Hl, foldl_app. done. Qed.

(** A state in which a tool is evaluated during a sweep. *)
Lemma sweep_view_values g gm (P : State num → Prop) st t :
  t ∈ tools g →
  (∀ st' t', t' ∈ tools g → P st' → P (toolStep g gm st' t')) →
  P (sweepStart st) →
  ∃ stb,
    P stb ∧
    axleValues st ⊆ axleValues stb ∧
    axleValues (toolStep g gm stb t) ⊆ axleValues (sweep g gm st).
Proof.
  intros Ht Hstep Hst.
  destruct (list_elem_of_split _ _ Ht) as (l1 & l2 & Hl).
  exists (foldl (toolStep g gm) (sweepStart st) l1).
  rewrite (sweep_split g gm st l1 t l2 Hl). split_and!.
  - apply steps_ind; [|done]. intros st' t' Ht'. apply Hstep.
    rewrite Hl. apply elem_of_app. by left.
  - apply (steps_mono g gm (sweepStart st)).
  - apply steps_mono.
Qed.

(** The state in which a tool was last evaluated in a sweep. *)
Lemma sweep_view g gm (P : State num → Prop) st t :
  unique_ids g → t ∈ tools g → type t ≠ source →
  (∀ st' t', t' ∈ tools g → P st' → P (toolStep g gm st' t')) →
  P (sweepStart st) →
  ∃ stb,
    P stb ∧
    axleValues st ⊆ axleValues stb ∧
    axleValues (toolStep g gm stb t) ⊆ axleValues (sweep g gm st) ∧
    status (sweep g gm st) !! id t =
      Some (status_of (evaluateTool t gm (axleValues stb))) ∧
    (∀ a v, axleValues (sweep g gm st) !! a = Some v → outputBy v = id t →
       axleValues (toolStep g gm stb t) !! a = Some v).
Proof.
  intros Hu Ht Hty Hstep Hst.
  destruct (list_elem_of_split _ _ Ht) as (l1 & l2 & Hl).
  assert (∀ t', t' ∈ l2 → id t' ≠ id t) as Hl2.
  { intros t' Ht' Hid. destruct Hu as [Hnd _]. rewrite Hl, fmap_app in Hnd.
    apply NoDup_app in Hnd as (_ & _ & Hnd). rewrite fmap_cons in Hnd.
    apply NoDup_cons in Hnd as [Hnd _]. apply Hnd.
    rewrite <- Hid. by apply list_elem_of_fmap_2. }
  exists (foldl (toolStep g gm) (sweepStart st) l1).
  rewrite (sweep_split g gm st l1 t l2 Hl). split_and!.
  - apply steps_ind; [|done]. intros st' t' Ht'. apply Hstep.
    rewrite Hl. apply elem_of_app. by left.
  - apply (steps_mono g gm (sweepStart st)).
  - apply steps_mono.
  - rewrite steps_status_other by (intros t' Ht' _; by apply Hl2).
    rewrite toolStep_status by done. by rewrite lookup_insert_eq.
  - intros a v [Hv|(t' & Ht' & _ & Hby)]%steps_lookup Hid; [done|].
    exfalso. apply (Hl2 t' Ht'). congruence.
Qed.

(** *** The loop *)

Lemma iter_sweep_ind g gm (P : State num → Prop) k st :
  (∀ st', P st' → P (sweep g gm st')) → P st → P (Nat.iter k (sweep g gm) st).
Proof. intros Hs Hst. induction k as [|k IH]; simpl; [done|by apply Hs]. Qed.

Lemma sweep_ind g gm (P : State num → Prop) st :
  (∀ st' t, t ∈ tools g → P st' → P (toolStep g gm st' t)) →
  P (sweepStart st) → P (sweep g gm st).
Proof. intros Hstep Hst. rewrite sweep_eq. by apply steps_ind. Qed.

(** [computeGearMode] runs between 1 and 100 sweeps, each but the last of
    which changed the map; it is the last sweep run on the state before it. *)
Lemma computeGearMode_sweeps g gm :
  ∃ k, k < maxIterations ∧
    computeGearMode g gm =
      sweep g gm (Nat.iter k (sweep g gm) (initialState g)) ∧
    (∀ i, i ≤ k → changed (Nat.iter i (sweep g gm) (initialState g)) = true) ∧
    (S k = maxIterations ∨ changed (computeGearMode g gm) = false).
Proof.
  unfold computeGearMode.
  destruct (propagate_sweeps g gm maxIterations (initialState g))
    as (k & Hk & Heq & Hall & Hlast).
  destruct k as [|k].
  - destruct Hlast as [Hlast|Hlast]; [done|]. simpl in Hlast. done.
  - exists k. split_and!; [lia|done| |].
    + intros i Hi. apply Hall. lia.
    + destruct Hlast as [Hlast|Hlast]; [by left|right]. by rewrite Heq.
Qed.

End Run.
End GearboxRun.
Module GearboxStable.
Import Arith Gearbox GearboxEval GearboxStep GearboxRun.

Section Stable.
Context {num : Type} `{!Number num}.
Implicit Types (tool t : Tool num) (av : gmap Z (AxleValue num))
  (st : State num) (g : Gearbox num) (o : Output num).

Lemma hasInput_mono tool conn av av' :
  av ⊆ av' → hasInput tool conn av = true → hasInput tool conn av' = true.
Proof.
  unfold hasInput. intros Hsub. destruct (axleId conn) as [a|]; [|done].
  destruct (av !! a) as [v|] eqn:Hv; [|done].
  by rewrite (lookup_weaken _ _ _ _ Hv Hsub).
Qed.

Lemma hasInput_self tool conn av a v :
  axleId conn = Some a → av !! a = Some v → outputBy v = id tool →
  hasInput tool conn av = false.
Proof.
  unfold hasInput. intros -> -> Hby. by apply bool_decide_eq_false_2; intros ?.
Qed.

Lemma getInput_mono conn av av' v :
  av ⊆ av' → getInput conn av = Some v → getInput conn av' = Some v.
Proof.
  unfold getInput. intros Hsub. destruct (axleId conn) as [a|]; [|done]. simpl.
  intros Hv. by apply (lookup_weaken _ _ _ _ Hv Hsub).
Qed.

Lemma free_dec tool av a :
  match av !! a with
  | None => false
  | Some v => bool_decide (outputBy v ≠ id tool)
  end = false ↔ free tool av a.
Proof.
  unfold free. destruct (av !! a) as [v|].
  - rewrite bool_decide_eq_false. split.
    + intros Hn. right. exists v. split; [done|].
      by destruct (decide (outputBy v = id tool)).
    + intros [?|(v' & [= <-] & Hby)]; [done|]. by intros ?.
  - split; [by left|done].
Qed.

Lemma elem_of_lockedOutputs tool av conns o :
  o ∈ lockedOutputs tool av conns ↔
  ∃ c a, c ∈ conns ∧ axleId c = Some a ∧ free tool av a ∧
         o = {| o_axleId := a; o_speed := of_Z 0; o_torque := of_Z 0 |}.
Proof.
  unfold lockedOutputs. rewrite list_elem_of_In, in_flat_map. split.
  - intros (c & Hc%list_elem_of_In & Ho). destruct (axleId c) as [a|] eqn:Ha; [|done].
    pose proof (free_dec tool av a) as Hfree.
    destruct (match av !! a with Some v => _ | None => _ end); [done|].
    apply list_elem_of_In, list_elem_of_singleton in Ho as ->.
    exists c, a. split_and!; [done|done|by apply Hfree|done].
  - intros (c & a & Hc & Ha & Hfree%free_dec & ->).
    exists c. split; [by apply list_elem_of_In|]. rewrite Ha, Hfree. by left.
Qed.

Lemma targets_output o' : targets (res_output o') = [o'].
Proof. reflexivity. Qed.

(** Once a tool has written an output, its later evaluations in the same
    computation (on a map that has grown, and in which the axle written is
    still its own) keep the status OK. *)
Lemma evaluateTool_stable tool gm av0 av' o v :
  av0 ⊆ av' →
  o ∈ targets (evaluateTool tool gm av0) →
  av' !! o_axleId o = Some v → outputBy v = id tool →
  status_of (evaluateTool tool gm av') = ok.
Proof.
  intros Hsub Ho Hv Hby. unfold evaluateTool in *. destruct (type tool).
  - by apply elem_of_nil in Ho.
  - (* coupling *)
    unfold evaluateCoupling in *.
    destruct (findConnection "Gear A" tool) as [cA|]; [|by apply elem_of_nil in Ho].
    destruct (findConnection "Gear B" tool) as [cB|]; [|by apply elem_of_nil in Ho].
    destruct (hasInput tool cA av0) eqn:HA, (hasInput tool cB av0) eqn:HB;
      simpl in Ho; try by apply elem_of_nil in Ho.
    + destruct (axleId cB) as [out|] eqn:Hout; [|by apply elem_of_nil in Ho].
      destruct (getInput cA av0) as [input|] eqn:Hin; [|by apply elem_of_nil in Ho].
      rewrite targets_output in Ho. apply list_elem_of_singleton in Ho as ->.
      simpl in Hv.
      rewrite (hasInput_mono _ _ _ _ Hsub HA),
        (hasInput_self _ _ _ _ _ Hout Hv Hby). simpl.
      rewrite ?Hout. by rewrite (getInput_mono _ _ _ _ Hsub Hin).
    + destruct (axleId cA) as [out|] eqn:Hout; [|by apply elem_of_nil in Ho].
      destruct (getInput cB av0) as [input|] eqn:Hin; [|by apply elem_of_nil in Ho].
      rewrite targets_output in Ho. apply list_elem_of_singleton in Ho as ->.
      simpl in Hv.
      rewrite (hasInput_mono _ _ _ _ Hsub HB),
        (hasInput_self _ _ _ _ _ Hout Hv Hby). simpl.
      rewrite ?Hout. by rewrite (getInput_mono _ _ _ _ Hsub Hin).
  - (* selector *)
    unfold evaluateSelector in *.
    destruct (findConnection "Center" tool) as [cC|]; [|by apply elem_of_nil in Ho].
    destruct (findConnection "A" tool) as [cA|]; [|by apply elem_of_nil in Ho].
    destruct (findConnection "B" tool) as [cB|]; [|by apply elem_of_nil in Ho].
    destruct (String.eqb (selection tool gm) "Locked").
    + destruct (lockedOutputs tool av0 [cC; cA; cB]) as [|o0 os0] eqn:Hos0;
        [by apply elem_of_nil in Ho|].
      simpl in Ho. unfold targets in Ho. simpl in Ho. rewrite <- Hos0 in Ho.
      apply elem_of_lockedOutputs in Ho as (c & a & Hc & Ha & _ & ->).
      simpl in Hv.
      assert ({| o_axleId := a; o_speed := of_Z 0; o_torque := of_Z 0 |}
              ∈ lockedOutputs tool av' [cC; cA; cB]) as Hin.
      { apply elem_of_lockedOutputs. exists c, a. split_and!; try done.
        right. eauto. }
      destruct (lockedOutputs tool av' [cC; cA; cB]); [by apply elem_of_nil in Hin|].
      done.
    + set (act := if String.eqb (selection tool gm) "A" then cA else cB) in *.
      destruct (hasInput tool cC av0) eqn:HC, (hasInput tool act av0) eqn:HA;
        simpl in Ho; try by apply elem_of_nil in Ho.
      * destruct (axleId act) as [out|] eqn:Hout; [|by apply elem_of_nil in Ho].
        destruct (getInput cC av0) as [input|] eqn:Hin; [|by apply elem_of_nil in Ho].
        rewrite targets_output in Ho. apply list_elem_of_singleton in Ho as ->.
        simpl in Hv.
        rewrite (hasInput_mono _ _ _ _ Hsub HC),
          (hasInput_self _ _ _ _ _ Hout Hv Hby). simpl.
        rewrite ?Hout. by rewrite (getInput_mono _ _ _ _ Hsub Hin).
      * destruct (axleId cC) as [out|] eqn:Hout; [|by apply elem_of_nil in Ho].
        destruct (getInput act av0) as [input|] eqn:Hin; [|by apply elem_of_nil in Ho].
        rewrite targets_output in Ho. apply list_elem_of_singleton in Ho as ->.
        simpl in Hv.
        rewrite (hasInput_mono _ _ _ _ Hsub HA),
          (hasInput_self _ _ _ _ _ Hout Hv Hby). simpl.
        rewrite ?Hout. by rewrite (getInput_mono _ _ _ _ Hsub Hin).
  - (* differential *)
    unfold evaluateDifferential in *.
    destruct (findConnection "Body" tool) as [cBody|]; [|by apply elem_of_nil in Ho].
    destruct (findConnection "A" tool) as [cA|]; [|by apply elem_of_nil in Ho].
    destruct (findConnection "B" tool) as [cB|]; [|by apply elem_of_nil in Ho].
    destruct (hasInput tool cBody av0) eqn:HBody, (hasInput tool cA av0) eqn:HA,
      (hasInput tool cB av0) eqn:HB; simpl in Ho; try by apply elem_of_nil in Ho.
    + destruct (getInput cBody av0) as [i1|] eqn:Hi1; simpl in Ho;
        [|by apply elem_of_nil in Ho].
      destruct (getInput cA av0) as [i2|] eqn:Hi2; simpl in Ho;
        [|by apply elem_of_nil in Ho].
      destruct (axleId cB) as [out|] eqn:Hout; [|by apply elem_of_nil in Ho].
      rewrite targets_output in Ho. apply list_elem_of_singleton in Ho as ->.
      simpl in Hv.
      rewrite (hasInput_mono _ _ _ _ Hsub HBody), (hasInput_mono _ _ _ _ Hsub HA),
        (hasInput_self _ _ _ _ _ Hout Hv Hby). simpl.
      rewrite (getInput_mono _ _ _ _ Hsub Hi1), (getInput_mono _ _ _ _ Hsub Hi2).
      simpl. by rewrite Hout.
    + destruct (getInput cBody av0) as [i1|] eqn:Hi1; simpl in Ho;
        [|by apply elem_of_nil in Ho].
      destruct (getInput cB av0) as [i2|] eqn:Hi2; simpl in Ho;
        [|by apply elem_of_nil in Ho].
      destruct (axleId cA) as [out|] eqn:Hout; [|by apply elem_of_nil in Ho].
      rewrite targets_output in Ho. apply list_elem_of_singleton in Ho as ->.
      simpl in Hv.
      rewrite (hasInput_mono _ _ _ _ Hsub HBody), (hasInput_mono _ _ _ _ Hsub HB),
        (hasInput_self _ _ _ _ _ Hout Hv Hby). simpl.
      rewrite (getInput_mono _ _ _ _ Hsub Hi1), (getInput_mono _ _ _ _ Hsub Hi2).
      simpl. by rewrite Hout.
    + destruct (getInput cA av0) as [i1|] eqn:Hi1; simpl in Ho;
        [|by apply elem_of_nil in Ho].
      destruct (getInput cB av0) as [i2|] eqn:Hi2; simpl in Ho;
        [|by apply elem_of_nil in Ho].
      destruct (axleId cBody) as [out|] eqn:Hout; [|by apply elem_of_nil in Ho].
      rewrite targets_output in Ho. apply list_elem_of_singleton in Ho as ->.
      simpl in Hv.
      rewrite (hasInput_mono _ _ _ _ Hsub HA), (hasInput_mono _ _ _ _ Hsub HB),
        (hasInput_self _ _ _ _ _ Hout Hv Hby). simpl.
      rewrite (getInput_mono _ _ _ _ Hsub Hi1), (getInput_mono _ _ _ _ Hsub Hi2).
      simpl. by rewrite Hout.
Qed.

(** *** Who wrote what *)

(** Every value in the map is the seed of the source or was asked for by a
    tool of the gearbox, evaluated on an earlier (smaller) map. *)
Definition written g gm av : Prop :=
  ∀ a v, av !! a = Some v →
    outputBy v = "source" ∨
    ∃ t av0 o, t ∈ tools g ∧ type t ≠ source ∧ outputBy v = id t ∧
               av0 ⊆ av ∧ o ∈ targets (evaluateTool t gm av0) ∧ o_axleId o = a.

Lemma written_initial g gm : written g gm (axleValues (initialState g)).
Proof.
  intros a v. unfold initialState. simpl.
  destruct (head (connections (sourceTool g)) ≫= axleId) as [a0|].
  - intros [-> <-]%lookup_singleton_Some. by left.
  - by rewrite lookup_empty.
Qed.

Lemma written_step g gm st t :
  t ∈ tools g → written g gm (axleValues st) →
  written g gm (axleValues (toolStep g gm st t)).
Proof.
  intros Ht Hw a v [Hv|(Hn & Hty & o & Ho & -> & ->)]%toolStep_lookup.
  - destruct (Hw a v Hv) as [?|(t' & av0 & o & ? & ? & ? & Hsub & ? & ?)]; [by left|].
    right. exists t', av0, o. split_and!; try done.
    etrans; [done|apply toolStep_mono].
  - right. exists t, (axleValues st), o. split_and!; try done.
    apply toolStep_mono.
Qed.

Lemma written_sweep g gm st :
  written g gm (axleValues st) → written g gm (axleValues (sweep g gm st)).
Proof.
  intros Hw. apply (sweep_ind g gm (λ st', written g gm (axleValues st'))); [|done].
  intros st' t Ht. by apply written_step.
Qed.

(** *** Statuses at the end of a computation *)

Lemma status_errors g gm i s :
  status (computeGearMode g gm) !! i = Some s →
  error s = None ∨ error s = Some "Conflicting outputs".
Proof.
  revert i s. unfold computeGearMode.
  apply (propagate_ind g gm (λ st, ∀ i s, status st !! i = Some s →
           error s = None ∨ error s = Some "Conflicting outputs")).
  - intros st Hst.
    apply (sweep_ind g gm (λ st, ∀ i s, status st !! i = Some s →
             error s = None ∨ error s = Some "Conflicting outputs")); [|done].
    intros st' t _ Hst' i s. destruct (decide (type t = source)) as [Hty|Hty].
    + rewrite toolStep_source by done. apply Hst'.
    + rewrite toolStep_status by done. rewrite lookup_insert.
      case_decide; [|apply Hst'].
      intros [= <-].
      destruct (status_of_cases t gm (axleValues st')) as [[-> _]|[[-> _]|[-> _]]];
        simpl; auto.
  - intros i s. unfold initialState. simpl.
    intros [_ <-]%lookup_singleton_Some. by left.
Qed.

Lemma status_present g gm t :
  t ∈ tools g → type t ≠ source →
  is_Some (status (computeGearMode g gm) !! id t).
Proof.
  intros Ht Hty. destruct (computeGearMode_sweeps g gm) as (k & _ & -> & _).
  rewrite sweep_eq. by apply steps_status_present.
Qed.

(** The tool that wrote a value ends with status OK. *)
Lemma producer_ok g gm t a v :
  unique_ids g → t ∈ tools g → type t ≠ source →
  axleValues (computeGearMode g gm) !! a = Some v → outputBy v = id t →
  status (computeGearMode g gm) !! id t = Some ok.
Proof.
  intros Hu Ht Hty. destruct (computeGearMode_sweeps g gm) as (k & _ & -> & _).
  set (stp := Nat.iter k (sweep g gm) (initialState g)).
  intros Hv Hby.
  assert (written g gm (axleValues stp)) as Hw.
  { apply (iter_sweep_ind g gm (λ st, written g gm (axleValues st)));
      [apply written_sweep|apply written_initial]. }
  destruct (sweep_view g gm (λ st, written g gm (axleValues st)) stp t Hu Ht Hty)
    as (stb & Hwb & _ & _ & -> & Hmine); [|done|].
  { intros st' t' Ht'. by apply written_step. }
  f_equal.
  apply Hmine in Hv; [|done].
  apply toolStep_lookup in Hv as [Hv|(_ & _ & o & Ho & _ & _)].
  - destruct (Hwb a v Hv) as [Hs|(t' & av0 & o & Ht' & _ & Hid & Hsub & Ho & <-)].
    + destruct Hty. apply (ids_source g Hu); [done|congruence].
    + assert (t' = t) as -> by (apply (unique_ids_eq g); [done..|congruence]).
      by eapply evaluateTool_stable.
  - destruct (status_of_cases t gm (axleValues stb)) as [[-> _]|[[_ Hn]|[_ Hn]]];
      [done| |]; rewrite Hn in Ho; by apply elem_of_nil in Ho.
Qed.

(** When the loop ended on a sweep without change, every status is the one
    of its tool's evaluation on the final map. *)
Lemma converged_status g gm t :
  unique_ids g → t ∈ tools g → type t ≠ source →
  changed (computeGearMode g gm) = false →
  status (computeGearMode g gm) !! id t =
    Some (status_of (evaluateTool t gm (axleValues (computeGearMode g gm)))).
Proof.
  intros Hu Ht Hty. destruct (computeGearMode_sweeps g gm) as (k & _ & -> & _).
  set (stp := Nat.iter k (sweep g gm) (initialState g)). intros Hc.
  destruct (sweep_changed g gm stp) as [[_ Heq]|[Hc' _]]; [|congruence].
  destruct (sweep_view g gm (λ _, True) stp t Hu Ht Hty)
    as (stb & _ & Hsub1 & Hsub2 & -> & _); [done..|].
  do 3 f_equal. rewrite Heq in *.
  apply (anti_symm (⊆)); [|done].
  etrans; [apply toolStep_mono|done].
Qed.

(** [compute()]: one computation per gear mode, [1] to [numGearModes]. *)
Lemma compute_lookup g numGearModes gm :
  1 ≤ gm ≤ numGearModes →
  compute g numGearModes !! (gm - 1) = Some (computeGearMode g gm).
Proof.
  intros Hgm. unfold compute. rewrite list_lookup_fmap, lookup_seq_lt by lia.
  simpl. do 2 f_equal. lia.
Qed.

End Stable.
End GearboxStable.

(* ===================================================================== *)
(** ** The evaluator contracts *)
(* ===================================================================== *)

Module Contracts.
Import Arith Gearbox GearboxEval GearboxStep.

Section Coupling.
Context {num : Type} `{!Number num}.
Implicit Types (tool : Tool num) (av : gmap Z (AxleValue num))
  (st : State num) (g : Gearbox num).


End Coupling.

Import Examples.


(** C7. The map of axle values is write-once within a computation: an entry
    that is present survives, unchanged, every step of a sweep (whatever the
    tool and its result), every sweep, and the rest of the loop. *)
Theorem axleValues_write_once {num : Type} `{!Number num}
    (g : Gearbox num) gearModeNum (st : State num) (a : Z) (v : AxleValue num) :
  axleValues st !! a = Some v →
  (∀ tool, axleValues (toolStep g gearModeNum st tool) !! a = Some v) ∧
  axleValues (sweep g gearModeNum st) !! a = Some v ∧
  (∀ budget, axleValues (propagate g gearModeNum budget st) !! a = Some v).
Proof.
  intros Hv. split_and!.
  - intros tool. eapply lookup_weaken; [done|apply toolStep_mono].
  - eapply lookup_weaken; [done|apply sweep_mono].
  - intros budget. eapply lookup_weaken; [done|apply propagate_mono].
Qed.

(** In the example of the conflict, the value that the first coupling wrote
    on axle 2 in the first sweep survives every later step (also those of the
    second coupling, which would write the same axle), the next sweep and the
    rest of the loop. *)
Lemma axleValues_write_once_witness :
  let st := sweep conflictExample 1 (initialState conflictExample) in
  let v := {| speed := (-1)%float; torque := 1%float; outputBy := "tool_1" |} in
  (∀ tool, axleValues (toolStep conflictExample 1 st tool) !! 2%Z = Some v) ∧
  axleValues (sweep conflictExample 1 st) !! 2%Z = Some v ∧
  (∀ budget, axleValues (propagate conflictExample 1 budget st) !! 2%Z = Some v).
Proof.
  intros st v. apply axleValues_write_once. vm_compute. reflexivity.
Defined.

End Contracts.

(* ===================================================================== *)
(** ** Conflicts *)
(* ===================================================================== *)

Module Conflicts.
Import Arith Gearbox GearboxEval GearboxStep GearboxRun GearboxStable.

Section Conflict.
Context {num : Type} `{!Number num}.
Implicit Types (tool t : Tool num) (av : gmap Z (AxleValue num))
  (st : State num) (g : Gearbox num).

Definition conflicting : Status :=
  {| error := Some "Conflicting outputs"; flagged := false |}.

Lemma coupling_conflict t gm av cA cB :
  type t = coupling →
  findConnection "Gear A" t = Some cA → findConnection "Gear B" t = Some cB →
  hasInput t cA av = true → hasInput t cB av = true →
  status_of (evaluateTool t gm av) = conflicting.
Proof.
  intros Hty HA HB HiA HiB. unfold evaluateTool, evaluateCoupling.
  by rewrite Hty, HA, HB, HiA, HiB.
Qed.

(** C3 (as the code has it). In a gearbox whose tool ids are unique, after the
    computation of a mode: every error status carries the evaluators' fixed
    message "Conflicting outputs" (the other producer is not named); the tool
    that wrote an axle has status OK; if the loop ended on a sweep without
    change, every tool has the status of its evaluation on the final map, so
    a coupling both of whose gear connections carry values of other tools is
    in error; every tool has a status, and every mode is computed. *)
Theorem conflict_status g gearModeNum :
  unique_ids g →
  let final := computeGearMode g gearModeNum in
  (∀ i s, status final !! i = Some s →
     error s = None ∨ error s = Some "Conflicting outputs") ∧
  (∀ t a v, t ∈ tools g → type t ≠ source →
     axleValues final !! a = Some v → outputBy v = id t →
     status final !! id t = Some ok) ∧
  (changed final = false →
     (∀ t, t ∈ tools g → type t ≠ source →
        status final !! id t =
          Some (status_of (evaluateTool t gearModeNum (axleValues final)))) ∧
     (∀ t cA cB, t ∈ tools g → type t = coupling →
        findConnection "Gear A" t = Some cA →
        findConnection "Gear B" t = Some cB →
        hasInput t cA (axleValues final) = true →
        hasInput t cB (axleValues final) = true →
        status final !! id t = Some conflicting)) ∧
  (∀ t, t ∈ tools g → type t ≠ source → is_Some (status final !! id t)) ∧
  (∀ numGearModes m, 1 ≤ m ≤ numGearModes →
     compute g numGearModes !! (m - 1) = Some (computeGearMode g m)).
Proof.
  intros Hu final. subst final. split_and!.
  - apply status_errors.
  - intros t a v Ht Hty Hv Hby. by eapply producer_ok.
  - intros Hc. split.
    + intros t Ht Hty. by apply converged_status.
    + intros t cA cB Ht Hty HA HB HiA HiB.
      rewrite converged_status by (done || by rewrite Hty).
      f_equal. by eapply coupling_conflict.
  - intros t Ht Hty. by apply status_present.
  - intros n m Hm. by apply compute_lookup.
Qed.

End Conflict.

Import Examples.

Lemma conflictExample_unique_ids : unique_ids conflictExample.
Proof.
  split.
  - apply (bool_decide_unpack _). vm_compute. reflexivity.
  - intros t Ht. simpl in Ht.
    repeat (apply elem_of_cons in Ht as [->|Ht]); try done.
    by apply elem_of_nil in Ht.
Defined.

(** Of the two couplings that would write axle 2, the first keeps status OK
    and the second ends in error. *)
Lemma conflict_status_witness :
  status (computeGearMode conflictExample 1) !! "tool_1" = Some ok ∧
  status (computeGearMode conflictExample 1) !! "tool_2" = Some conflicting.
Proof.
  destruct (conflict_status conflictExample 1 conflictExample_unique_ids)
    as (_ & Hprod & Hconf & _).
  split.
  - apply (Hprod (mkCoupling "tool_1" (Some 1%Z) (Some 2%Z) 16 16 true) 2%Z
             {| speed := (-1)%float; torque := 1%float; outputBy := "tool_1" |}).
    + simpl. apply elem_of_cons. right. apply elem_of_cons. by left.
    + done.
    + vm_compute. reflexivity.
    + reflexivity.
  - destruct Hconf as [_ Hconf]; [vm_compute; reflexivity|].
    apply (Hconf (mkCoupling "tool_2" (Some 1%Z) (Some 2%Z) 16 20 true)
             {| name := "Gear A"; axleId := Some 1%Z |}
             {| name := "Gear B"; axleId := Some 2%Z |}).
    + simpl. do 2 (apply elem_of_cons; right). apply elem_of_cons. by left.
    + reflexivity.
    + reflexivity.
    + reflexivity.
    + vm_compute. reflexivity.
    + vm_compute. reflexivity.
Defined.

(** The message does not name the producer: axle 2 was produced by the coupling tool_1,
    and the error of tool_2 names neither that tool nor its label. *)
Lemma conflict_message_counterexample :
  let final := computeGearMode conflictExample 1 in
  outputBy <$> axleValues final !! 2%Z = Some "tool_1" ∧
  status final !! "tool_2" = Some conflicting ∧
  getToolLabel conflictExample "tool_1" = "Coupling" ∧
  error conflicting ≠ Some ("Conflict with " +:+ getToolLabel conflictExample "tool_1") ∧
  String.index 0 "Coupling" "Conflicting outputs" = None ∧
  String.index 0 "tool_1" "Conflicting outputs" = None.
Proof. vm_compute. split_and!; try reflexivity. discriminate. Qed.

End Conflicts.

(* ===================================================================== *)
(** ** The Locked selector *)
(* ===================================================================== *)

Module Locked.
Import Arith Gearbox GearboxEval GearboxStep GearboxRun GearboxStable.

Section LockedSelector.
Context {num : Type} `{!Number num}.
Implicit Types (tool t : Tool num) (av : gmap Z (AxleValue num))
  (st : State num) (g : Gearbox num).

Definition flagged_status : Status := {| error := None; flagged := true |}.

(** A selector with its three connections, Locked in the given mode. *)
Record locked_selector t gm (cC cA cB : Connection) : Prop := {
  locked_type : type t = selector;
  locked_center : findConnection "Center" t = Some cC;
  locked_a : findConnection "A" t = Some cA;
  locked_b : findConnection "B" t = Some cB;
  locked_selection : selection t gm = "Locked";
}.

Lemma evaluateTool_locked t gm cC cA cB av :
  locked_selector t gm cC cA cB →
  evaluateTool t gm av =
    let outputs := lockedOutputs t av [cC; cA; cB] in
    if (0 <? length outputs)%nat then res_outputs outputs else res_flagged.
Proof.
  intros [Hty HC HA HB Hsel]. unfold evaluateTool, evaluateSelector.
  by rewrite Hty, HC, HA, HB, Hsel.
Qed.

Lemma targets_locked t gm cC cA cB av :
  locked_selector t gm cC cA cB →
  targets (evaluateTool t gm av) = lockedOutputs t av [cC; cA; cB].
Proof.
  intros Hl. rewrite (evaluateTool_locked t gm cC cA cB) by done. cbv zeta.
  by destruct (lockedOutputs t av [cC; cA; cB]).
Qed.

(** The values a Locked selector has written are zero. *)
Definition own_zero t av : Prop :=
  ∀ a v, av !! a = Some v → outputBy v = id t →
    speed v = of_Z 0 ∧ torque v = of_Z 0.

Lemma own_zero_step g gm t cC cA cB st t' :
  unique_ids g → t ∈ tools g → locked_selector t gm cC cA cB →
  t' ∈ tools g → own_zero t (axleValues st) →
  own_zero t (axleValues (toolStep g gm st t')).
Proof.
  intros Hu Ht Hl Ht' Hz a v [Hv|(Hn & Hty' & o & Ho & Ha & ->)]%toolStep_lookup Hby.
  - by apply (Hz a v).
  - simpl in Hby. assert (t' = t) as -> by by apply (unique_ids_eq g).
    rewrite (targets_locked t gm cC cA cB) in Ho by done.
    apply elem_of_lockedOutputs in Ho as (c & a' & Hc & Ha' & Hfree & ->). done.
Qed.

Lemma own_zero_initial g t gm cC cA cB :
  unique_ids g → t ∈ tools g → locked_selector t gm cC cA cB →
  own_zero t (axleValues (initialState g)).
Proof.
  intros Hu Ht Hl a v. unfold initialState. simpl.
  destruct (head (connections (sourceTool g)) ≫= axleId) as [a0|].
  - intros [-> <-]%lookup_singleton_Some. simpl. intros Hid.
    pose proof (ids_source g Hu t Ht (eq_sym Hid)) as Hty.
    rewrite (locked_type _ _ _ _ _ Hl) in Hty. done.
  - by rewrite lookup_empty.
Qed.

(** C5. A selector that is Locked in a mode, in a gearbox with unique tool
    ids: at the end of the mode's computation every connected side has a
    value, and that value is speed=0, torque=0 unless another tool produced
    it; the selector's status is OK when it wrote one of its sides, and
    flagged when all its connected sides carry values of other tools. *)
Theorem locked_zeroing g gearModeNum t cC cA cB :
  unique_ids g → t ∈ tools g → locked_selector t gearModeNum cC cA cB →
  let final := computeGearMode g gearModeNum in
  (∀ c a, c ∈ [cC; cA; cB] → axleId c = Some a →
     ∃ v, axleValues final !! a = Some v ∧
          (outputBy v = id t → speed v = of_Z 0 ∧ torque v = of_Z 0)) ∧
  ((∃ c a v, c ∈ [cC; cA; cB] ∧ axleId c = Some a ∧
             axleValues final !! a = Some v ∧ outputBy v = id t) →
     status final !! id t = Some ok) ∧
  ((∀ c a, c ∈ [cC; cA; cB] → axleId c = Some a →
      ∃ v, axleValues final !! a = Some v ∧ outputBy v ≠ id t) →
     status final !! id t = Some flagged_status).
Proof.
  intros Hu Ht Hl final.
  assert (type t ≠ source) as Hty by (by rewrite (locked_type _ _ _ _ _ Hl)).
  assert (∀ st', own_zero t (axleValues st') →
            own_zero t (axleValues (sweep g gearModeNum st'))) as Hsweep.
  { intros st' Hz.
    apply (sweep_ind g gearModeNum (λ st, own_zero t (axleValues st))); [|done].
    intros st'' t' Ht'. by eapply own_zero_step. }
  assert (own_zero t (axleValues final)) as Hzero.
  { apply (propagate_ind g gearModeNum (λ st, own_zero t (axleValues st)));
      [done|by eapply own_zero_initial]. }
  subst final.
  destruct (computeGearMode_sweeps g gearModeNum) as (k & _ & Heq & _).
  rewrite Heq in *.
  set (stp := Nat.iter k (sweep g gearModeNum) (initialState g)) in *.
  destruct (sweep_view g gearModeNum (λ _, True) stp t Hu Ht Hty)
    as (stb & _ & _ & Hsub & Hst & _); [done..|].
  split_and!.
  - intros c a Hc Ha.
    assert (is_Some (axleValues (toolStep g gearModeNum stb t) !! a)) as [v Hv].
    { destruct (axleValues stb !! a) as [v|] eqn:Hb.
      - exists v. eapply lookup_weaken; [done|apply toolStep_mono].
      - apply (toolStep_present g gearModeNum stb t
                 {| o_axleId := a; o_speed := of_Z 0; o_torque := of_Z 0 |});
          [done|].
        rewrite (targets_locked t gearModeNum cC cA cB) by done.
        apply elem_of_lockedOutputs. exists c, a. split_and!; try done. by left. }
    exists v. split; [by eapply lookup_weaken|].
    apply (Hzero a v). by eapply lookup_weaken.
  - intros (c & a & v & _ & _ & Hv & Hby). rewrite <- Heq in *.
    by eapply producer_ok.
  - intros Hothers. rewrite Hst. f_equal.
    rewrite (evaluateTool_locked t gearModeNum cC cA cB) by done. cbv zeta.
    destruct (lockedOutputs t (axleValues stb) [cC; cA; cB]) as [|o os] eqn:Hos;
      [done|].
    exfalso.
    assert (o ∈ lockedOutputs t (axleValues stb) [cC; cA; cB]) as Ho
      by (rewrite Hos; by left).
    destruct (proj1 (elem_of_lockedOutputs _ _ _ _) Ho)
      as (c & a & Hc & Ha & Hfree & ->).
    destruct (Hothers c a Hc Ha) as (v & Hv & Hne).
    rewrite <- (targets_locked t gearModeNum cC cA cB) in Ho by done.
    destruct (toolStep_present g gearModeNum stb t _ Hty Ho) as [v' Hv'].
    simpl in Hv'.
    assert (v' = v) as ->.
    { pose proof (lookup_weaken _ _ _ _ Hv' Hsub). congruence. }
    apply toolStep_lookup in Hv' as [Hv'|(Hn & _ & o' & Ho' & Ha' & ->)]; [|done].
    destruct Hfree as [Hn|(v'' & Hv'' & Hby)]; congruence.
Qed.

End LockedSelector.
Import Examples.

Lemma lockedExample_unique_ids : unique_ids lockedExample.
Proof.
  split.
  - apply (bool_decide_unpack _). vm_compute. reflexivity.
  - intros t Ht. simpl in Ht.
    repeat (apply elem_of_cons in Ht as [->|Ht]); try done.
    by apply elem_of_nil in Ht.
Defined.

(** The Locked selector with only Center connected leaves Center's axle at
    speed=0, torque=0 and has status OK. *)
Lemma locked_zeroing_witness :
  (∃ v, axleValues (computeGearMode lockedExample 1) !! 5%Z = Some v ∧
        speed v = 0%float ∧ torque v = 0%float) ∧
  status (computeGearMode lockedExample 1) !! "tool_1" = Some ok.
Proof.
  assert (locked_selector lockedSelector 1
            {| name := "Center"; axleId := Some 5%Z |}
            {| name := "A"; axleId := None |}
            {| name := "B"; axleId := None |}) as Hl by (by split).
  assert (lockedSelector ∈ tools lockedExample) as Ht
    by (simpl; apply elem_of_cons; right; apply elem_of_cons; by left).
  destruct (locked_zeroing lockedExample 1 lockedSelector _ _ _
              lockedExample_unique_ids Ht Hl) as (Hzero & Hok & _).
  destruct (Hzero {| name := "Center"; axleId := Some 5%Z |} 5%Z)
    as (v & Hv & Hz); [by left|done|].
  assert (outputBy v = "tool_1") as Hby.
  { vm_compute in Hv. by injection Hv as <-. }
  split.
  - exists v. split; [done|]. by apply Hz.
  - apply Hok. exists {| name := "Center"; axleId := Some 5%Z |}, 5%Z, v.
    split_and!; [by left|done|done|done].
Defined.

(** With Center on the source's axle, the only connected side carries the
    value of another tool: the selector is flagged. *)
Example locked_on_source_flagged :
  status (computeGearMode lockedOnSource 1) !! "tool_1" = Some flagged_status.
Proof. vm_compute. reflexivity. Qed.

End Locked.

(* ===================================================================== *)
(** ** Termination and chains of couplings *)
(* ===================================================================== *)

Module Chains.
Import Arith Gearbox GearboxEval GearboxStep GearboxRun GearboxStable.

Section Chain.
Context {num : Type} `{!Number num}.
Implicit Types (tool t : Tool num) (av : gmap Z (AxleValue num))
  (st : State num) (g : Gearbox num).

(** The coupling between axle [j] and axle [j+1], whichever gear is on
    which. *)
Definition link (j : Z) t : Prop :=
  type t = coupling ∧
  ∃ cA cB,
    findConnection "Gear A" t = Some cA ∧ findConnection "Gear B" t = Some cB ∧
    ((axleId cA = Some j ∧ axleId cB = Some (j + 1)%Z) ∨
     (axleId cA = Some (j + 1)%Z ∧ axleId cB = Some j)).

(** A chain of [N] couplings in series, in any order in [tools]: the source
    on axle 1, and for every [j] from 1 to [N] one coupling between axle [j]
    and axle [j+1]. *)
Record chain (N : nat) g : Prop := {
  chain_source : head (connections (sourceTool g)) ≫= axleId = Some 1%Z;
  chain_tools : ∀ t, t ∈ tools g →
    type t = source ∨ ∃ j, (1 ≤ j ≤ Z.of_nat N)%Z ∧ link j t;
  chain_links : ∀ j, (1 ≤ j ≤ Z.of_nat N)%Z → ∃ t, t ∈ tools g ∧ link j t;
  chain_ids : ∀ t t' j j', t ∈ tools g → t' ∈ tools g →
    link j t → link j' t' → (id t = id t' ↔ j = j');
  chain_not_source : ∀ t j, t ∈ tools g → link j t → id t ≠ "source";
}.

(** In a chain, axle 1 carries the seed and axle [j+1] a value written by the
    coupling between [j] and [j+1]. *)
Definition chained (N : nat) g av : Prop :=
  is_Some (av !! 1%Z) ∧
  ∀ a v, av !! a = Some v →
    (a = 1%Z ∧ outputBy v = "source") ∨
    ((2 ≤ a ≤ Z.of_nat N + 1)%Z ∧
     ∃ t, t ∈ tools g ∧ link (a - 1) t ∧ outputBy v = id t).

Lemma chained_initial N g : chain N g → chained N g (axleValues (initialState g)).
Proof.
  intros Hc. unfold initialState. simpl. rewrite (chain_source N g Hc). split.
  - rewrite lookup_singleton_eq. eauto.
  - intros a v [<- <-]%lookup_singleton_Some. by left.
Qed.

(** The side on axle [j+1] never counts as an input of the coupling between
    [j] and [j+1]; the side on axle [j] does as soon as axle [j] has a value. *)
Lemma chained_hasInput N g av t j c :
  chain N g → chained N g av → t ∈ tools g → (1 ≤ j ≤ Z.of_nat N)%Z → link j t →
  (axleId c = Some (j + 1)%Z → hasInput t c av = false) ∧
  (axleId c = Some j → is_Some (av !! j) → hasInput t c av = true).
Proof.
  intros Hc [_ Hch] Ht Hj Hl. split.
  - intros Hax. unfold hasInput. rewrite Hax.
    destruct (av !! (j + 1)%Z) as [v|] eqn:Hv; [|done].
    apply bool_decide_eq_false_2. intros Hne. apply Hne.
    destruct (Hch _ _ Hv) as [[? _]|(_ & t' & Ht' & Hl' & ->)]; [lia|].
    apply (chain_ids N g Hc t' t (j + 1 - 1)%Z j); [done..|lia].
  - intros Hax [v Hv]. unfold hasInput. rewrite Hax, Hv.
    apply bool_decide_eq_true_2. intros Hid.
    destruct (Hch _ _ Hv) as [[_ Hs]|(_ & t' & Ht' & Hl' & Hby)].
    + apply (chain_not_source N g Hc t j Ht Hl). congruence.
    + assert (j - 1 = j)%Z; [|lia].
      apply (chain_ids N g Hc t' t (j - 1)%Z j); [done..|congruence].
Qed.

(** What the coupling between [j] and [j+1] asks for: nothing while axle [j]
    has no value, then one output, on axle [j+1]. *)
Lemma chained_targets N g gm av t j :
  chain N g → chained N g av → t ∈ tools g → (1 ≤ j ≤ Z.of_nat N)%Z → link j t →
  (∀ o, o ∈ targets (evaluateTool t gm av) → o_axleId o = (j + 1)%Z) ∧
  (is_Some (av !! j) →
   ∃ o, o ∈ targets (evaluateTool t gm av) ∧ o_axleId o = (j + 1)%Z).
Proof.
  intros Hc Hch Ht Hj Hl.
  pose proof (λ c, chained_hasInput N g av t j c Hc Hch Ht Hj Hl) as Hin.
  destruct Hl as (Hty & cA & cB & HA & HB & Hor).
  unfold evaluateTool, evaluateCoupling. rewrite Hty, HA, HB.
  destruct Hor as [[HaxA HaxB]|[HaxA HaxB]].
  - rewrite (proj1 (Hin cB) HaxB). rewrite andb_false_r, andb_true_r.
    destruct (hasInput t cA av) eqn:HiA; simpl.
    + rewrite HaxB.
      destruct (hasInput_getInput _ _ _ HiA) as (input & -> & _).
      split; [by intros o ->%list_elem_of_singleton|].
      intros _. eexists. split; [by left|done].
    + split; [by intros o ?%elem_of_nil|].
      intros Hs. by rewrite (proj2 (Hin cA) HaxA Hs) in HiA.
  - rewrite (proj1 (Hin cA) HaxA). simpl.
    destruct (hasInput t cB av) eqn:HiB; simpl.
    + rewrite HaxA.
      destruct (hasInput_getInput _ _ _ HiB) as (input & -> & _).
      split; [by intros o ->%list_elem_of_singleton|].
      intros _. eexists. split; [by left|done].
    + split; [by intros o ?%elem_of_nil|].
      intros Hs. by rewrite (proj2 (Hin cB) HaxB Hs) in HiB.
Qed.

Lemma chained_step N g gm st t :
  chain N g → t ∈ tools g → chained N g (axleValues st) →
  chained N g (axleValues (toolStep g gm st t)).
Proof.
  intros Hc Ht Hch. split.
  - destruct Hch as [[v Hv] _]. exists v.
    eapply lookup_weaken; [done|apply toolStep_mono].
  - intros a v [Hv|(Hn & Hty & o & Ho & -> & ->)]%toolStep_lookup.
    + by apply Hch.
    + destruct (chain_tools N g Hc t Ht) as [?|(j & Hj & Hl)]; [done|].
      destruct (chained_targets N g gm _ t j Hc Hch Ht Hj Hl) as [Hout _].
      rewrite (Hout o Ho). right. split; [lia|].
      exists t. split_and!; [done| |done].
      by replace (j + 1 - 1)%Z with j by lia.
Qed.

Lemma chained_sweep N g gm st :
  chain N g → chained N g (axleValues st) →
  chained N g (axleValues (sweep g gm st)).
Proof.
  intros Hc Hch.
  apply (sweep_ind g gm (λ st', chained N g (axleValues st'))); [|done].
  intros st' t Ht. by apply chained_step.
Qed.

Lemma chained_iter N g gm k :
  chain N g →
  chained N g (axleValues (Nat.iter k (sweep g gm) (initialState g))).
Proof.
  intros Hc.
  apply (iter_sweep_ind g gm (λ st, chained N g (axleValues st))).
  - intros st. by apply chained_sweep.
  - by apply chained_initial.
Qed.

(** A sweep carries a value from axle [j] to axle [j+1]. *)
Lemma sweep_link N g gm st j :
  chain N g → chained N g (axleValues st) → (1 ≤ j ≤ Z.of_nat N)%Z →
  is_Some (axleValues st !! j) →
  is_Some (axleValues (sweep g gm st) !! (j + 1)%Z).
Proof.
  intros Hc Hch Hj Hs.
  destruct (chain_links N g Hc j Hj) as (t & Ht & Hl).
  destruct (sweep_view_values g gm (λ st', chained N g (axleValues st')) st t Ht)
    as (stb & Hchb & Hsub1 & Hsub2); [|done|].
  { intros st' t' Ht'. by apply chained_step. }
  assert (is_Some (axleValues stb !! j)) as Hsb.
  { destruct Hs as [v Hv]. exists v. by eapply lookup_weaken. }
  destruct (chained_targets N g gm _ t j Hc Hchb Ht Hj Hl) as [_ Hout].
  destruct (Hout Hsb) as (o & Ho & Hoa).
  assert (type t ≠ source) as Hty by (destruct Hl as [-> _]; done).
  destruct (toolStep_present g gm stb t o Hty Ho) as [v Hv].
  rewrite Hoa in Hv. exists v. by eapply lookup_weaken.
Qed.

(** After [k] sweeps the first [k+1] axles have their values. *)
Lemma iter_sweep_present N g gm k j :
  chain N g → (1 ≤ j ≤ Z.of_nat N + 1)%Z → (j ≤ Z.of_nat k + 1)%Z →
  is_Some (axleValues (Nat.iter k (sweep g gm) (initialState g)) !! j).
Proof.
  intros Hc. revert j. induction k as [|k IH]; intros j Hj Hk.
  - assert (j = 1%Z) as -> by lia. apply (chained_initial N g Hc).
  - simpl. destruct (decide (j = 1%Z)) as [->|Hne].
    + apply (chained_iter N g gm (S k) Hc).
    + replace j with (j - 1 + 1)%Z by lia.
      apply (sweep_link N); [done|by apply chained_iter|lia|].
      apply IH; lia.
Qed.

(** A map that has all the axles of the chain cannot grow. *)
Lemma chained_full N g gm st :
  chain N g → chained N g (axleValues st) →
  (∀ j, (1 ≤ j ≤ Z.of_nat N + 1)%Z → is_Some (axleValues st !! j)) →
  changed (sweep g gm st) = false.
Proof.
  intros Hc Hch Hfull.
  destruct (sweep_changed g gm st) as [[? _]|[_ Hlt]]; [done|].
  apply map_subset_alt in Hlt as (_ & a & Hn & [v Hv]).
  destruct (chained_sweep N g gm st Hc Hch) as [_ Hch'].
  assert (1 ≤ a ≤ Z.of_nat N + 1)%Z as Ha.
  { destruct (Hch' a v Hv) as [[-> _]|[? _]]; lia. }
  destruct (Hfull a Ha) as [v' Hv']. congruence.
Qed.

(** On a map that a sweep leaves as it is, every axle of the chain has its
    value. *)
Lemma chained_fixpoint N g gm st j :
  chain N g → chained N g (axleValues st) →
  axleValues (sweep g gm st) = axleValues st →
  (1 ≤ j ≤ Z.of_nat N + 1)%Z → is_Some (axleValues st !! j).
Proof.
  intros Hc Hch Heq Hj.
  assert (∀ n : nat, (Z.of_nat n + 1 ≤ Z.of_nat N + 1)%Z →
            is_Some (axleValues st !! (Z.of_nat n + 1)%Z)) as Hall.
  { induction n as [|n IH]; intros Hn.
    - apply Hch.
    - replace (Z.of_nat (S n) + 1)%Z with (Z.of_nat n + 1 + 1)%Z by lia.
      rewrite <- Heq. apply (sweep_link N); [done|done|lia|]. apply IH. lia. }
  replace j with (Z.of_nat (Z.to_nat (j - 1)) + 1)%Z by lia.
  apply Hall. lia.
Qed.

(** C4. The loop of [computeGearMode] runs [k] sweeps, [1 ≤ k ≤ 100]: each
    sweep before the last added a value to the map, and the last one added
    none unless it is the hundredth. For a chain of [N] couplings, [N] sweeps
    put a value on each of the axles 1 to [N+1]; when [N < 100] (so for
    [N ≤ 50]) the loop runs at most [N+1] sweeps, ends because a sweep changed
    nothing, and returns a map with all [N+1] axles. *)
Theorem propagation_terminates g gearModeNum :
  let final := computeGearMode g gearModeNum in
  let after k := Nat.iter k (sweep g gearModeNum) (initialState g) in
  (∃ k, 1 ≤ k ≤ maxIterations ∧ final = after k ∧ iterations final = k ∧
     (∀ i, i < k - 1 → axleValues (after i) ⊂ axleValues (after (S i))) ∧
     (k = maxIterations ∨ axleValues (after k) = axleValues (after (k - 1)))) ∧
  (∀ N, chain N g →
     (∀ j, (1 ≤ j ≤ Z.of_nat N + 1)%Z → is_Some (axleValues (after N) !! j)) ∧
     (N < maxIterations →
        iterations final ≤ N + 1 ∧ changed final = false ∧
        ∀ j, (1 ≤ j ≤ Z.of_nat N + 1)%Z → is_Some (axleValues final !! j))).
Proof.
  intros final after. subst final after.
  destruct (computeGearMode_sweeps g gearModeNum) as (k & Hk & Heq & Hall & Hlast).
  split.
  - exists (S k). split_and!.
    + lia.
    + lia.
    + done.
    + rewrite Heq, sweep_iterations, iter_sweep_iterations. simpl. lia.
    + intros i Hi.
      destruct (sweep_changed g gearModeNum
                  (Nat.iter i (sweep g gearModeNum) (initialState g)))
        as [[Hc _]|[_ Hlt]]; [|done].
      specialize (Hall (S i)). simpl in Hall. rewrite Hall in Hc by lia. done.
    + destruct Hlast as [Hlast|Hlast]; [by left|right].
      rewrite Heq in Hlast. simpl. rewrite Nat.sub_0_r.
      destruct (sweep_changed g gearModeNum
                  (Nat.iter k (sweep g gearModeNum) (initialState g)))
        as [[_ Ha]|[Hc _]]; [done|congruence].
  - intros N Hc. split.
    + intros j Hj. apply (iter_sweep_present N); [done|done|lia].
    + intros HN.
      assert (changed (sweep g gearModeNum
                (Nat.iter N (sweep g gearModeNum) (initialState g))) = false)
        as Hfull.
      { apply (chained_full N); [done|by apply chained_iter|].
        intros j Hj. apply (iter_sweep_present N); [done|done|lia]. }
      assert (k ≤ N) as HkN.
      { destruct (decide (k ≤ N)) as [|Hgt]; [done|].
        specialize (Hall (S N)). simpl in Hall. rewrite Hall in Hfull by lia.
        done. }
      assert (changed (computeGearMode g gearModeNum) = false) as Hconv.
      { destruct Hlast as [Hlast|Hlast]; [|done].
        assert (k = N) as -> by (unfold maxIterations in *; lia).
        by rewrite Heq. }
      split_and!.
      * rewrite Heq, sweep_iterations, iter_sweep_iterations. simpl. lia.
      * done.
      * intros j Hj. rewrite Heq in Hconv |- *.
        destruct (sweep_changed g gearModeNum
                    (Nat.iter k (sweep g gearModeNum) (initialState g)))
          as [[_ Ha]|[Hc' _]]; [|congruence].
        rewrite Ha. apply (chained_fixpoint N g gearModeNum); try done.
        by apply chained_iter.
Qed.

End Chain.

Import Examples.

(** The axle a coupling of the example starts from, read off its links. *)
Ltac link_axle H :=
  let cA := fresh "cA" in
  let cB := fresh "cB" in
  let HA := fresh "HA" in
  let HB := fresh "HB" in
  let Hor := fresh "Hor" in
  let H1 := fresh "H" in
  let H2 := fresh "H" in
  destruct H as (_ & cA & cB & HA & HB & Hor);
  injection HA as <-; injection HB as <-; simpl in Hor;
  destruct Hor as [[H1 H2]|[H1 H2]];
  injection H1 as H1; injection H2 as H2.

Lemma chainExample_chain : chain 3 chainExample.
Proof.
  split.
  - reflexivity.
  - intros t Ht. simpl in Ht.
    repeat (apply elem_of_cons in Ht as [->|Ht]).
    + by left.
    + right. exists 3%Z. split; [lia|]. split; [done|]. eexists _, _.
      split_and!; [done|done|]. by left.
    + right. exists 2%Z. split; [lia|]. split; [done|]. eexists _, _.
      split_and!; [done|done|]. by left.
    + right. exists 1%Z. split; [lia|]. split; [done|]. eexists _, _.
      split_and!; [done|done|]. by left.
    + by apply elem_of_nil in Ht.
  - intros j Hj.
    assert (j = 1 ∨ j = 2 ∨ j = 3)%Z as [-> | [-> | ->]] by lia.
    + eexists. split; [simpl; do 3 (apply elem_of_cons; right); apply elem_of_cons; by left|].
      split; [done|]. eexists _, _. split_and!; [done|done|]. by left.
    + eexists. split; [simpl; do 2 (apply elem_of_cons; right); apply elem_of_cons; by left|].
      split; [done|]. eexists _, _. split_and!; [done|done|]. by left.
    + eexists. split; [simpl; do 1 (apply elem_of_cons; right); apply elem_of_cons; by left|].
      split; [done|]. eexists _, _. split_and!; [done|done|]. by left.
  - intros t t' j j' Ht Ht' Hl Hl'. simpl in Ht, Ht'.
    repeat (apply elem_of_cons in Ht as [->|Ht]);
      try (by apply elem_of_nil in Ht); try (by destruct Hl as [? _]);
      repeat (apply elem_of_cons in Ht' as [->|Ht']);
      try (by apply elem_of_nil in Ht'); try (by destruct Hl' as [? _]);
      link_axle Hl; link_axle Hl'; simpl; split; intros; (lia || done).
  - intros t j Ht Hl. simpl in Ht.
    repeat (apply elem_of_cons in Ht as [->|Ht]);
      try (by apply elem_of_nil in Ht); try (by destruct Hl as [? _]); done.
Defined.

(** The chain of three couplings, listed against the flow: all four axles
    have values after three sweeps, and the loop stops within four. *)
Lemma propagation_terminates_witness :
  (∀ j, (1 ≤ j ≤ 4)%Z →
     is_Some (axleValues (Nat.iter 3 (sweep chainExample 1)
                            (initialState chainExample)) !! j)) ∧
  iterations (computeGearMode chainExample 1) ≤ 4 ∧
  changed (computeGearMode chainExample 1) = false.
Proof.
  destruct (propagation_terminates chainExample 1) as [_ Hchain].
  destruct (Hchain 3%nat chainExample_chain) as [Hthree Hloop].
  destruct Hloop as (Hit & Hconv & _); [unfold maxIterations; lia|].
  split_and!; [|done|done].
  intros j Hj. apply Hthree. lia.
Defined.

(** It does take four sweeps: three that carry the value on, one that finds
    nothing to do. *)
Example chainExample_iterations :
  iterations (computeGearMode chainExample 1) = 4 ∧
  dom (axleValues (Nat.iter 2 (sweep chainExample 1) (initialState chainExample)))
    = {[ 1%Z; 2%Z; 3%Z ]}.
Proof. split; [vm_compute; reflexivity|]. apply (bool_decide_unpack _). vm_compute. reflexivity. Qed.

End Chains.

(* ===================================================================== *)
(** ** The differential *)
(* ===================================================================== *)

Module Differential.
Import Arith Gearbox GearboxEval GearboxStep.

Section Formulas.
Context {num : Type} `{!Number num}.

(** A differential with Body on axle 1, A on axle 2 and B on axle 3. *)
Definition differential123 : Tool num :=
  {| type := differential; id := "tool_1";
     connections := [{| name := "Body"; axleId := Some 1%Z |};
                     {| name := "A"; axleId := Some 2%Z |};
                     {| name := "B"; axleId := Some 3%Z |}];
     params := {| teethA := None; teethB := None; invertDirection := None;
                  modes := ∅ |} |}.

(** A value that another tool produced. *)
Definition known (s t : num) : AxleValue num :=
  {| speed := s; torque := t; outputBy := "tool_2" |}.

Ltac eval_differential :=
  unfold evaluateTool, evaluateDifferential, hasInput, getInput; simpl;
  repeat first
    [ rewrite lookup_insert_eq
    | rewrite lookup_insert_ne by done
    | rewrite lookup_singleton_eq
    | rewrite lookup_singleton_ne by done ];
  simpl; rewrite ?bool_decide_eq_true_2 by done; reflexivity.

Lemma eval_body_a gm (sb tb sa ta : num) :
  evaluateTool differential123 gm
    {[ 1%Z := known sb tb; 2%Z := known sa ta ]} =
  res_output {| o_axleId := 3; o_speed := nsub (nmul (of_Z 2) sb) sa;
                o_torque := ndiv (nadd tb ta) (of_Z 2) |}.
Proof. eval_differential. Qed.

Lemma eval_body_b gm (sb tb sb' tb' : num) :
  evaluateTool differential123 gm
    {[ 1%Z := known sb tb; 3%Z := known sb' tb' ]} =
  res_output {| o_axleId := 2; o_speed := nsub (nmul (of_Z 2) sb) sb';
                o_torque := ndiv (nadd tb tb') (of_Z 2) |}.
Proof. eval_differential. Qed.

Lemma eval_a_b gm (sa ta sb' tb' : num) :
  evaluateTool differential123 gm
    {[ 2%Z := known sa ta; 3%Z := known sb' tb' ]} =
  res_output {| o_axleId := 1; o_speed := ndiv (nadd sa sb') (of_Z 2);
                o_torque := nmul (of_Z 2) (nadd ta tb') |}.
Proof. eval_differential. Qed.

End Formulas.

Lemma exact_2 : Q2Qc (inject_Z 2) = (1 + 1)%Qc.
Proof. apply Qc_is_canon. reflexivity. Qed.

Lemma exact_2_neq_0 : (1 + 1)%Qc ≠ Q2Qc 0.
Proof. intros H. apply (f_equal this) in H. vm_compute in H. discriminate. Qed.

(** The three speed formulas undo each other in exact arithmetic. *)
Lemma side_of_side (sb sa : Qc) :
  nsub (nmul (of_Z 2) sb) (nsub (nmul (of_Z 2) sb) sa) = sa.
Proof. simpl. rewrite exact_2. ring. Qed.

Lemma body_of_side (sb sa : Qc) :
  ndiv (nadd sa (nsub (nmul (of_Z 2) sb) sa)) (of_Z 2) = sb.
Proof. simpl. rewrite exact_2. field. apply exact_2_neq_0. Qed.

Lemma body_of_side' (sb sa : Qc) :
  ndiv (nadd (nsub (nmul (of_Z 2) sb) sa) sa) (of_Z 2) = sb.
Proof. simpl. rewrite exact_2. field. apply exact_2_neq_0. Qed.

Lemma side_of_body (sa sc : Qc) :
  nsub (nmul (of_Z 2) (ndiv (nadd sa sc) (of_Z 2))) sa = sc.
Proof. simpl. rewrite exact_2. field. apply exact_2_neq_0. Qed.

Lemma side_of_body' (sa sc : Qc) :
  nsub (nmul (of_Z 2) (ndiv (nadd sa sc) (of_Z 2))) sc = sa.
Proof. simpl. rewrite exact_2. field. apply exact_2_neq_0. Qed.

(** C2 (as the code has it). In exact arithmetic the speed formulas of the
    differential are invertible: from any two of Body, A, B with values of
    other tools the evaluator computes the third, and fed back with either of
    the two it reproduces the speed of the other; the torque it computes then
    is another matter. On binary64, Body=(2,1), A=(3,2) gives B=(1,1.5), and
    Body=(2,1), B=(1,1.5) gives A=(3,1.25). *)
Theorem differential_round_trip (gm : nat) (sb tb sa ta sc tc : Qc) :
  (∃ s t,
     evaluateTool differential123 gm {[ 1%Z := known sb tb; 2%Z := known sa ta ]}
       = res_output {| o_axleId := 3; o_speed := s; o_torque := t |} ∧
     (∃ t', evaluateTool differential123 gm
              {[ 1%Z := known sb tb; 3%Z := known s t ]}
            = res_output {| o_axleId := 2; o_speed := sa; o_torque := t' |}) ∧
     (∃ t', evaluateTool differential123 gm
              {[ 2%Z := known sa ta; 3%Z := known s t ]}
            = res_output {| o_axleId := 1; o_speed := sb; o_torque := t' |})) ∧
  (∃ s t,
     evaluateTool differential123 gm {[ 1%Z := known sb tb; 3%Z := known sc tc ]}
       = res_output {| o_axleId := 2; o_speed := s; o_torque := t |} ∧
     (∃ t', evaluateTool differential123 gm
              {[ 1%Z := known sb tb; 2%Z := known s t ]}
            = res_output {| o_axleId := 3; o_speed := sc; o_torque := t' |}) ∧
     (∃ t', evaluateTool differential123 gm
              {[ 2%Z := known s t; 3%Z := known sc tc ]}
            = res_output {| o_axleId := 1; o_speed := sb; o_torque := t' |})) ∧
  (∃ s t,
     evaluateTool differential123 gm {[ 2%Z := known sa ta; 3%Z := known sc tc ]}
       = res_output {| o_axleId := 1; o_speed := s; o_torque := t |} ∧
     (∃ t', evaluateTool differential123 gm
              {[ 1%Z := known s t; 2%Z := known sa ta ]}
            = res_output {| o_axleId := 3; o_speed := sc; o_torque := t' |}) ∧
     (∃ t', evaluateTool differential123 gm
              {[ 1%Z := known s t; 3%Z := known sc tc ]}
            = res_output {| o_axleId := 2; o_speed := sa; o_torque := t' |})) ∧
  evaluateTool differential123 gm
    {[ 1%Z := known 2%float 1%float; 2%Z := known 3%float 2%float ]}
    = res_output {| o_axleId := 3; o_speed := 1%float; o_torque := 1.5%float |} ∧
  evaluateTool differential123 gm
    {[ 1%Z := known 2%float 1%float; 3%Z := known 1%float 1.5%float ]}
    = res_output {| o_axleId := 2; o_speed := 3%float; o_torque := 1.25%float |}.
Proof.
  split_and!.
  - eexists _, _. split; [apply eval_body_a|]. split; eexists.
    + rewrite eval_body_b. by rewrite side_of_side.
    + rewrite eval_a_b. by rewrite body_of_side.
  - eexists _, _. split; [apply eval_body_b|]. split; eexists.
    + rewrite eval_body_a. by rewrite side_of_side.
    + rewrite eval_a_b. by rewrite body_of_side'.
  - eexists _, _. split; [apply eval_a_b|]. split; eexists.
    + rewrite eval_body_a. by rewrite side_of_body.
    + rewrite eval_body_b. by rewrite side_of_body'.
  - rewrite eval_body_a. reflexivity.
  - rewrite eval_body_b. reflexivity.
Qed.

(** The torque does not come back: fed back, B=(1,1.5) with
    Body=(2,1) gives A the torque (1 + 1.5) / 2 = 1.25, not the 2 it started
    from; in exact arithmetic too, the torque that comes back is
    (3 Body.torque + A.torque) / 4. *)
Lemma differential_torque_counterexample :
  evaluateTool differential123 1
    {[ 1%Z := known 2%float 1%float; 3%Z := known 1%float 1.5%float ]}
    = res_output {| o_axleId := 2; o_speed := 3%float; o_torque := 1.25%float |} ∧
  evaluateTool differential123 1
    {[ 1%Z := known 2%float 1%float; 3%Z := known 1%float 1.5%float ]}
    ≠ res_output {| o_axleId := 2; o_speed := 3%float; o_torque := 2%float |} ∧
  PrimFloat.eqb 1.25 2 = false.
Proof.
  rewrite eval_body_b. split_and!.
  - reflexivity.
  - discriminate.
  - reflexivity.
Qed.

End Differential.

(* ===================================================================== *)
(** ** The selector in mode A or B *)
(* ===================================================================== *)

Module Selectors.
Import Arith Gearbox GearboxEval GearboxStep.

Section PassThrough.
Context {num : Type} `{!Number num}.
Implicit Types (tool : Tool num) (av : gmap Z (AxleValue num))
  (st : State num) (g : Gearbox num).

(** The coupling that a selector in mode A or B is compared with: the same
    tool id, gear A on the axle of Center and gear B on the axle of the
    selected side, teethA = teethB, invertDirection = false. *)
Definition couplingOf tool (connCenter activeConn : Connection)
    (teeth : option num) : Tool num :=
  {| type := coupling; id := id tool;
     connections := [{| name := "Gear A"; axleId := axleId connCenter |};
                     {| name := "Gear B"; axleId := axleId activeConn |}];
     params := {| teethA := teeth; teethB := teeth;
                  invertDirection := Some false;
                  modes := modes (params tool) |} |}.

(** A selector with its three connections whose parameter for the mode is
    "A" or "B", and the side that parameter selects. *)
Record selecting tool gm (cC cA cB activeConn : Connection) : Prop := {
  sel_type : type tool = selector;
  sel_center : findConnection "Center" tool = Some cC;
  sel_a : findConnection "A" tool = Some cA;
  sel_b : findConnection "B" tool = Some cB;
  sel_active :
    (selection tool gm = "A" ∧ activeConn = cA) ∨
    (selection tool gm = "B" ∧ activeConn = cB);
}.

Lemma evaluateTool_selecting tool gm cC cA cB activeConn av :
  selecting tool gm cC cA cB activeConn →
  evaluateTool tool gm av =
    let hasCenterInput := hasInput tool cC av in
    let hasActiveInput := hasInput tool activeConn av in
    if hasCenterInput && hasActiveInput then res_error "Conflicting outputs"
    else if negb hasCenterInput && negb hasActiveInput then res_flagged
    else
      let '(inputConn, outputConn) :=
        if hasCenterInput then (cC, activeConn) else (activeConn, cC) in
      match axleId outputConn with
      | None => res_flagged
      | Some out =>
          match getInput inputConn av with
          | None => res_flagged
          | Some input =>
              res_output {| o_axleId := out; o_speed := speed input;
                            o_torque := torque input |}
          end
      end.
Proof.
  intros [Hty HC HA HB Hsel]. unfold evaluateTool, evaluateSelector.
  rewrite Hty, HC, HA, HB.
  by destruct Hsel as [[-> ->]|[-> ->]].
Qed.

(** Only the axle of a connection and the id of the tool matter to the
    tests of the evaluators. *)
Lemma hasInput_couplingOf tool cC activeConn teeth n c av :
  hasInput (couplingOf tool cC activeConn teeth)
    {| name := n; axleId := axleId c |} av = hasInput tool c av.
Proof. reflexivity. Qed.

Lemma getInput_axleId n c av :
  getInput {| name := n; axleId := axleId c |} av = getInput c av.
Proof. reflexivity. Qed.

Section Laws.
(** What the comparison needs of the arithmetic: [1 * x = x = x * 1], and
    [T / T = 1] for the number of teeth [T] that the coupling uses. *)
Hypothesis mul_1_l : ∀ x : num, nmul (of_Z 1) x = x.
Hypothesis mul_1_r : ∀ x : num, nmul x (of_Z 1) = x.

Lemma selector_coupling tool gm cC cA cB activeConn teeth av :
  selecting tool gm cC cA cB activeConn →
  (let T := or_default teeth (of_Z 16) in ndiv T T = of_Z 1) →
  evaluateTool tool gm av =
    evaluateTool (couplingOf tool cC activeConn teeth) gm av.
Proof using mul_1_l mul_1_r.
  intros Hsel HT. rewrite (evaluateTool_selecting _ _ _ _ _ _ _ Hsel).
  unfold evaluateTool at 1. simpl type. unfold evaluateCoupling.
  change (findConnection "Gear A" (couplingOf tool cC activeConn teeth))
    with (Some {| name := "Gear A"; axleId := axleId cC |}).
  change (findConnection "Gear B" (couplingOf tool cC activeConn teeth))
    with (Some {| name := "Gear B"; axleId := axleId activeConn |}).
  cbv beta iota zeta. rewrite !hasInput_couplingOf.
  simpl teethA. simpl teethB. simpl invertDirection. cbv zeta in HT.
  destruct (hasInput tool cC av), (hasInput tool activeConn av);
    cbv beta iota zeta delta [andb negb]; try done.
  - rewrite getInput_axleId. simpl axleId.
    destruct (axleId activeConn); [|done].
    destruct (getInput cC av); [|done].
    by rewrite HT, mul_1_l, !mul_1_r.
  - rewrite getInput_axleId. simpl axleId.
    destruct (axleId cC); [|done].
    destruct (getInput activeConn av); [|done].
    by rewrite HT, mul_1_l, !mul_1_r.
Qed.

End Laws.

(** The only axle that a step of such a selector can change is the one of
    Center or of the selected side. *)
Lemma selecting_writes g tool gm cC cA cB activeConn st u :
  selecting tool gm cC cA cB activeConn →
  axleValues (toolStep g gm st tool) !! u ≠ axleValues st !! u →
  axleId cC = Some u ∨ axleId activeConn = Some u.
Proof.
  intros Hsel Hne.
  destruct (axleValues (toolStep g gm st tool) !! u) as [v|] eqn:Hv.
  - apply toolStep_lookup in Hv as [Hv|(Hn & _ & o & Ho & -> & _)]; [congruence|].
    rewrite (evaluateTool_selecting _ _ _ _ _ _ _ Hsel) in Ho. cbv zeta in Ho.
    destruct (hasInput tool cC (axleValues st)),
      (hasInput tool activeConn (axleValues st)); simpl in Ho;
      try (by apply elem_of_nil in Ho).
    + destruct (axleId activeConn) as [out|]; [|by apply elem_of_nil in Ho].
      destruct (getInput cC (axleValues st)); [|by apply elem_of_nil in Ho].
      apply list_elem_of_singleton in Ho as ->. by right.
    + destruct (axleId cC) as [out|]; [|by apply elem_of_nil in Ho].
      destruct (getInput activeConn (axleValues st)); [|by apply elem_of_nil in Ho].
      apply list_elem_of_singleton in Ho as ->. by left.
  - destruct (axleValues st !! u) as [v|] eqn:Hv'; [|done].
    pose proof (lookup_weaken _ _ _ _ Hv' (toolStep_mono g gm st tool)). congruence.
Qed.

End PassThrough.

Lemma float_1 : (of_Z 1 : float) = 1%float.
Proof. reflexivity. Qed.

Lemma float64_mul_1_l (x : float) : nmul (of_Z 1) x = x.
Proof. rewrite float_1. apply FloatFacts.float_mul_1_l. Qed.

Lemma float64_mul_1_r (x : float) : nmul x (of_Z 1) = x.
Proof. rewrite float_1. apply FloatFacts.float_mul_1_r. Qed.

(** C6. On binary64: a selector whose parameter for the mode is "A" or "B"
    evaluates exactly as the coupling with the same id, gear A on Center's
    axle, gear B on the selected side's axle, invertDirection = false and
    teethA = teethB = any number of teeth [T] with [T / T = 1] (every finite
    non-zero number): the same error, the same flag, the same output. The
    only axle its step can change is the axle of Center or of the selected
    side, so the unselected side's axle is never written through that side. *)
Theorem selector_as_coupling (tool : Tool float) gearModeNum
    cC cA cB activeConn teeth (av : gmap Z (AxleValue float)) :
  selecting tool gearModeNum cC cA cB activeConn →
  (let T := or_default teeth (of_Z 16) in ndiv T T = of_Z 1) →
  evaluateTool tool gearModeNum av =
    evaluateTool (couplingOf tool cC activeConn teeth) gearModeNum av ∧
  ∀ g st u,
    axleValues (toolStep g gearModeNum st tool) !! u ≠ axleValues st !! u →
    axleId cC = Some u ∨ axleId activeConn = Some u.
Proof.
  intros Hsel HT. split.
  - apply (selector_coupling float64_mul_1_l float64_mul_1_r
             tool gearModeNum cC cA cB); done.
  - intros g st u. by apply (selecting_writes g tool gearModeNum cC cA cB).
Qed.

Lemma exact_1 : (of_Z 1 : Qc) = 1%Qc.
Proof. reflexivity. Qed.

Lemma exact_mul_1_l (x : Qc) : nmul (of_Z 1) x = x.
Proof. rewrite exact_1. apply Qcmult_1_l. Qed.

Lemma exact_mul_1_r (x : Qc) : nmul x (of_Z 1) = x.
Proof. rewrite exact_1. apply Qcmult_1_r. Qed.

(** The same in exact arithmetic, where [T / T = 1] for every number of teeth
    that the coupling can use. *)
Lemma selector_as_coupling_exact (tool : Tool Qc) gearModeNum
    cC cA cB activeConn teeth (av : gmap Z (AxleValue Qc)) :
  selecting tool gearModeNum cC cA cB activeConn →
  evaluateTool tool gearModeNum av =
    evaluateTool (couplingOf tool cC activeConn teeth) gearModeNum av.
Proof.
  intros Hsel.
  apply (selector_coupling exact_mul_1_l exact_mul_1_r tool gearModeNum cC cA cB);
    [done|].
  cbv zeta. rewrite exact_1. apply Qcmult_inv_r.
  unfold or_default. destruct teeth as [T|].
  - destruct (truthy T) eqn:HT.
    + simpl in HT. apply negb_true_iff in HT. intros Heq.
      unfold Qc_eq_bool in HT. by destruct (Qcanon.Qc_eq_dec T (Q2Qc 0)).
    + intros H. apply (f_equal this) in H. vm_compute in H. discriminate.
  - intros H. apply (f_equal this) in H. vm_compute in H. discriminate.
Qed.

Import Examples.

(** The selector of the examples in mode 1 (A), with speed 2 and torque 3 on
    Center, against the coupling with 16 teeth on both gears: both pass the
    value on to axle 2. *)
Lemma selector_as_coupling_witness :
  let cC := {| name := "Center"; axleId := Some 1%Z |} in
  let cA := {| name := "A"; axleId := Some 2%Z |} in
  evaluateTool selectorAB 1 axle1_2_3 =
    evaluateTool (couplingOf selectorAB cC cA (Some 16%float)) 1 axle1_2_3 ∧
  evaluateTool selectorAB 1 axle1_2_3 =
    res_output {| o_axleId := 2; o_speed := 2%float; o_torque := 3%float |}.
Proof.
  intros cC cA. split; [|vm_compute; reflexivity].
  apply (selector_as_coupling selectorAB 1 cC cA
           {| name := "B"; axleId := Some 3%Z |} cA (Some 16%float) axle1_2_3).
  - split; try reflexivity. left. split; reflexivity.
  - vm_compute. reflexivity.
Defined.

End Selectors.

(* ===================================================================== *)
(** ** Circle intersections *)
(* ===================================================================== *)

Module Circles.
Import Geometry.
Local Open Scope float_scope.

(** C8 (as the code has it). With [d] the distance between the centers:
    the function [circleIntersections] returns no point when [d < 1e-12],
    when [d > r0 + r1 + 1e-12] or when [d < |r0 - r1| - 1e-12]; otherwise one
    point when the half-chord [h] (0 when [r0² - a² <= 0], its square root
    otherwise) is exactly 0, and two points when it is not. The method
    [Point.circleIntersections] compares without an epsilon: no point when
    [d > r0 + r1], when [d < |r0 - r1|], when [d === 0] or when
    [r0² - a² < 0]; otherwise one point when [h === 0] and two when not. *)
Theorem circleIntersections_cases (Math_hypot : float → float → float)
    (c0 : Point) (r0 : float) (c1 : Point) (r1 : float) :
  (let d := Math_hypot (x c1 - x c0) (y c1 - y c0) in
   let a := (r0 * r0 - r1 * r1 + d * d) / (2 * d) in
   let h2 := r0 * r0 - a * a in
   let h := if h2 <=? 0 then 0 else sqrt h2 in
   let result := circleIntersections Math_hypot c0 r0 c1 r1 in
   ((d <? eps) = true ∨ (r0 + r1 + eps <? d) = true ∨
    (d <? abs (r0 - r1) - eps) = true → result = []) ∧
   ((d <? eps) = false → (r0 + r1 + eps <? d) = false →
    (d <? abs (r0 - r1) - eps) = false →
    ((h =? 0) = true → length result = 1%nat) ∧
    ((h2 <=? 0) = true → length result = 1%nat) ∧
    ((h =? 0) = false → length result = 2%nat))) ∧
  (let d := distanceTo c0 c1 in
   let a := (r0 * r0 - r1 * r1 + d * d) / (2 * d) in
   let h2 := r0 * r0 - a * a in
   let h := sqrt h2 in
   let result := Point_circleIntersections c0 r0 c1 r1 in
   ((r0 + r1 <? d) = true ∨ (d <? abs (r0 - r1)) = true ∨ (d =? 0) = true ∨
    (h2 <? 0) = true → result = []) ∧
   ((r0 + r1 <? d) = false → (d <? abs (r0 - r1)) = false → (d =? 0) = false →
    (h2 <? 0) = false →
    ((h =? 0) = true → length result = 1%nat) ∧
    ((h =? 0) = false → length result = 2%nat))).
Proof.
  split.
  - cbv zeta. unfold circleIntersections.
    set (d := Math_hypot (x c1 - x c0) (y c1 - y c0)). split.
    + intros H.
      destruct (d <? eps); [done|].
      destruct (r0 + r1 + eps <? d); [done|].
      destruct (d <? abs (r0 - r1) - eps); [done|].
      by destruct H as [H|[H|H]].
    + intros -> -> ->. split_and!.
      * by intros ->.
      * intros ->. reflexivity.
      * by intros ->.
  - cbv zeta. unfold Point_circleIntersections.
    set (d := distanceTo c0 c1). split.
    + intros H.
      destruct (r0 + r1 <? d); [done|].
      destruct (d <? abs (r0 - r1)); [done|].
      destruct (d =? 0); [done|]. simpl.
      destruct (_ <? 0); [done|].
      by destruct H as [H|[H|[H|H]]].
    + intros -> -> -> ->. simpl. split.
      * by intros ->.
      * by intros ->.
Qed.

(** The two routines differ. The method uses no epsilon:
    with the centers [2^-44] apart (less than [1e-12]) it returns two points,
    where the function returns none; and at the tangency [d = r0 + r1] of
    the circles of radius 0.1 and 0.2 it returns no point. The function
    returns two points, not one, for two unit circles whose centers are
    within [1e-12] of 2 apart, from below. *)
Lemma circleIntersections_counterexample :
  let O := {| x := 0; y := 0 |} in
  (distanceTo O {| x := 0x1p-44; y := 0 |} <? eps) = true ∧
  length (Point_circleIntersections O 1 {| x := 0x1p-44; y := 0 |} 1) = 2%nat ∧
  circleIntersections hypot_sqrt O 1 {| x := 0x1p-44; y := 0 |} 1 = [] ∧
  (distanceTo O {| x := 0.1 + 0.2; y := 0 |} =? 0.1 + 0.2) = true ∧
  Point_circleIntersections O 0.1 {| x := 0.1 + 0.2; y := 0 |} 0.2 = [] ∧
  (abs (hypot_sqrt (2 - 0x1p-42) 0 - (1 + 1)) <=? eps) = true ∧
  length (circleIntersections hypot_sqrt O 1 {| x := 2 - 0x1p-42; y := 0 |} 1)
    = 2%nat.
Proof. vm_compute. repeat split; reflexivity. Qed.

End Circles.

(* ===================================================================== *)
(** ** Mounting positions *)
(* ===================================================================== *)

Module Mounting.
Import Gears.
Local Open Scope float_scope.

(** How the loop body classifies an offset. *)
Inductive Fit := exact_fit | overfit | underfit.

#[global] Instance Fit_eq_dec : EqDecision Fit.
Proof. solve_decision. Defined.






















End Mounting.

(* ===================================================================== *)
(** ** Removing the larger liftarms *)
(* ===================================================================== *)

Module RemoveLarger.
Import Arith Liftarms.

Section Sort.
Context {num : Type} `{!Number num} {Others : Type}.
Implicit Types (row : Row (num := num) Others)
  (rows sorted : list (Row (num := num) Others)).

Lemma insertRow_perm row sorted : insertRow row sorted ≡ₚ row :: sorted.
Proof.
  induction sorted as [|r rest IH]; simpl; [done|].
  destruct (nltb _ _); [done|]. rewrite IH. apply Permutation_swap.
Qed.

Lemma sortRows_perm rows : sortRows rows ≡ₚ rows.
Proof.
  unfold sortRows.
  assert (∀ acc, foldl (λ sorted row, insertRow row sorted) acc rows
                 ≡ₚ acc ++ rows) as H; [|apply (H [])].
  induction rows as [|row rows IH]; intros acc; simpl.
  - by rewrite app_nil_r.
  - rewrite IH, insertRow_perm. simpl. apply Permutation_middle.
Qed.

End Sort.

Section Exact.
(** In exact arithmetic. *)
Variable Others : Type.
Local Abbreviation Row := (Row (num := Qc) Others).
Implicit Types (row r : Row) (candidates results : list Row)
  (minLenSum : gmap string Qc).
Local Open Scope Qc_scope.

Local Abbreviation tol := (tolerance (num := Qc)).

Lemma Qc_leb_le (a b : Qc) : Qc_leb a b = true ↔ a <= b.
Proof.
  unfold Qc_leb. rewrite Qcle_alt. destruct (a ?= b); split; congruence.
Qed.

Lemma ngeb_le (a b : Qc) : ngeb a b = true ↔ b <= a.
Proof. apply Qc_leb_le. Qed.

Lemma tol_pos : 0 < tol.
Proof. reflexivity. Qed.

Lemma le_plus_tol (v : Qc) : v <= v + tol.
Proof.
  rewrite <- (Qcplus_0_r v) at 1.
  apply Qcplus_le_compat; [apply Qcle_refl|apply Qclt_le_weak, tol_pos].
Qed.

Lemma lt_plus_tol (v : Qc) : v < v + tol.
Proof.
  apply Qclt_minus_iff. replace (v + tol + - v) with tol by ring. apply tol_pos.
Qed.

(** Two sums are on a grid coarser than the tolerance when they are equal or
    at least [0.001] apart, as sums of lengths that step by a half or by one
    are. *)
Definition apart (a b : Qc) : Prop := a = b ∨ a + tol <= b ∨ b + tol <= a.

Lemma apart_le t v : apart t v → ¬ v + tol <= t → t <= v.
Proof.
  intros [->|[H|H]] Hn.
  - apply Qcle_refl.
  - eapply Qcle_trans; [apply le_plus_tol|done].
  - done.
Qed.

Definition key_eqb r r' : bool :=
  String.eqb (keyRemoveLarger r') (keyRemoveLarger r).

(** The rows whose sum of lengths is minimal among the candidates with the
    same key. *)
Definition isMinimal candidates r : bool :=
  forallb (λ r', if key_eqb r r' then Qc_leb (lenSum r) (lenSum r') else true)
    candidates.

Lemma isMinimal_spec candidates r :
  isMinimal candidates r = true ↔
  ∀ r', r' ∈ candidates → keyRemoveLarger r' = keyRemoveLarger r →
        lenSum r <= lenSum r'.
Proof.
  unfold isMinimal, key_eqb. rewrite forallb_forall. split.
  - intros H r' Hin Hk. specialize (H r' (proj1 (list_elem_of_In _ _) Hin)).
    apply String.eqb_eq in Hk. rewrite Hk in H. by apply Qc_leb_le.
  - intros H r' Hin. destruct (String.eqb _ _) eqn:Hk; [|done].
    apply Qc_leb_le, H; [by apply list_elem_of_In|by apply String.eqb_eq].
Qed.

Definition on_grid candidates : Prop :=
  ∀ r r', r ∈ candidates → r' ∈ candidates →
    keyRemoveLarger r = keyRemoveLarger r' → apart (lenSum r) (lenSum r').

(** What the enumeration has built after a prefix [done_] of the candidates:
    [minLenSum] holds, for every key met, the least sum met with it, and the
    rows recorded so far contain every row of the prefix that is minimal
    among all the candidates. *)
Record built candidates (done_ : list Row)
    (st : list Row * gmap string Qc) : Prop := {
  built_min : ∀ k v, st.2 !! k = Some v →
    (∃ r0, r0 ∈ done_ ∧ keyRemoveLarger r0 = k ∧ lenSum r0 = v) ∧
    (∀ r', r' ∈ done_ → keyRemoveLarger r' = k → v <= lenSum r');
  built_keys : ∀ r, r ∈ done_ → is_Some (st.2 !! keyRemoveLarger r);
  built_minimal :
    List.filter (isMinimal candidates) st.1 =
    List.filter (isMinimal candidates) done_;
  built_rows : ∀ r, r ∈ st.1 → r ∈ done_;
}.

Lemma built_nil candidates : built candidates [] ([], ∅).
Proof.
  split; cbn [fst snd].
  - intros k v. by rewrite lookup_empty.
  - intros r Hr. by apply elem_of_nil in Hr.
  - done.
  - done.
Qed.

Lemma built_push candidates done_ results minLenSum row :
  built candidates done_ (results, minLenSum) →
  (∀ r', r' ∈ done_ → keyRemoveLarger r' = keyRemoveLarger row →
         lenSum row <= lenSum r') →
  built candidates (done_ ++ [row])
    (results ++ [row], <[keyRemoveLarger row := lenSum row]> minLenSum).
Proof.
  intros [Hmin Hkeys Hfil Hrows] Hle. cbn [fst snd] in *. split; cbn [fst snd].
  - intros k v. rewrite lookup_insert. case_decide as Hk.
    + intros [= <-]. subst k. split.
      * exists row. split; [apply elem_of_app; right; by left|done].
      * intros r' [Hr' | ->%list_elem_of_singleton]%elem_of_app Hk'.
        -- by apply Hle.
        -- apply Qcle_refl.
    + intros Hv. destruct (Hmin k v Hv) as [(r0 & Hr0 & Hk0 & Hv0) Hlow]. split.
      * exists r0. split; [apply elem_of_app; by left|done].
      * intros r' [Hr' | ->%list_elem_of_singleton]%elem_of_app Hk'.
        -- by apply Hlow.
        -- done.
  - intros r [Hr | ->%list_elem_of_singleton]%elem_of_app.
    + rewrite lookup_insert. case_decide; [eauto|by apply Hkeys].
    + rewrite lookup_insert_eq. eauto.
  - by rewrite !List.filter_app, Hfil.
  - intros r [Hr|Hr]%elem_of_app; apply elem_of_app; [left; by apply Hrows|by right].
Qed.

Lemma built_skip candidates done_ results minLenSum row m :
  (∀ r, r ∈ done_ ++ [row] → r ∈ candidates) →
  built candidates done_ (results, minLenSum) →
  minLenSum !! keyRemoveLarger row = Some m → m + tol <= lenSum row →
  built candidates (done_ ++ [row]) (results, minLenSum).
Proof.
  intros Hin [Hmin Hkeys Hfil Hrows] Hm Hge. cbn [fst snd] in *.
  destruct (Hmin _ _ Hm) as [(r0 & Hr0 & Hk0 & Hv0) Hlow].
  assert (m < lenSum row) as Hlt
    by (eapply Qclt_le_trans; [apply lt_plus_tol|done]).
  split; cbn [fst snd].
  - intros k v Hv. destruct (Hmin k v Hv) as [(r1 & Hr1 & Hk1 & Hv1) Hlow1].
    split.
    + exists r1. split; [apply elem_of_app; by left|done].
    + intros r' [Hr' | ->%list_elem_of_singleton]%elem_of_app Hk'.
      * by apply Hlow1.
      * assert (v = m) as -> by congruence. by apply Qclt_le_weak.
  - intros r [Hr | ->%list_elem_of_singleton]%elem_of_app;
      [by apply Hkeys|eauto].
  - rewrite List.filter_app, Hfil. cbn [List.filter].
    assert (isMinimal candidates row = false) as ->; [|by rewrite app_nil_r].
    apply not_true_is_false. intros Hmin'.
    apply (Qclt_not_le _ _ Hlt). rewrite <- Hv0.
    apply (proj1 (isMinimal_spec _ _) Hmin'); [|done].
    apply Hin, elem_of_app. by left.
  - intros r Hr. apply elem_of_app. left. by apply Hrows.
Qed.

Lemma offer_true results minLenSum row :
  offer true (results, minLenSum) row =
    match minLenSum !! keyRemoveLarger row with
    | Some m =>
        if ngeb (lenSum row) (nadd m tol) then (results, minLenSum)
        else (results ++ [row],
              <[keyRemoveLarger row := lenSum row]> minLenSum)
    | None =>
        (results ++ [row], <[keyRemoveLarger row := lenSum row]> minLenSum)
    end.
Proof. reflexivity. Qed.

Lemma built_offer candidates done_ st row :
  on_grid candidates → (∀ r, r ∈ done_ ++ [row] → r ∈ candidates) →
  built candidates done_ st →
  built candidates (done_ ++ [row]) (offer true st row).
Proof.
  intros Hgrid Hin Hb. destruct st as [results minLenSum]. rewrite offer_true.
  destruct (minLenSum !! keyRemoveLarger row) as [m|] eqn:Hm.
  - destruct (built_min _ _ _ Hb _ _ Hm) as [(r0 & Hr0 & Hk0 & Hv0) Hlow].
    destruct (ngeb (lenSum row) (nadd m tol)) eqn:Hge.
    + apply (proj1 (ngeb_le _ _)) in Hge. by eapply built_skip.
    + apply built_push; [done|]. intros r' Hr' Hk'.
      eapply Qcle_trans; [|by apply Hlow].
      apply apart_le.
      * rewrite <- Hv0.
        apply Hgrid; [apply Hin, elem_of_app; right; by left| |done].
        apply Hin, elem_of_app. by left.
      * intros Hle.
        pose proof (proj2 (ngeb_le (lenSum row) (nadd m tol)) Hle). congruence.
  - apply built_push; [done|]. intros r' Hr' Hk'.
    destruct (built_keys _ _ _ Hb r' Hr') as [v Hv]. cbn [snd] in Hv. congruence.
Qed.

Lemma built_all candidates :
  on_grid candidates →
  built candidates candidates (foldl (offer true) ([], ∅) candidates).
Proof.
  intros Hgrid.
  assert (∀ done_, (∀ r, r ∈ done_ → r ∈ candidates) →
            built candidates done_ (foldl (offer true) ([], ∅) done_)) as H;
    [|by apply H].
  induction done_ as [|row done_ IH] using rev_ind; intros Hin.
  - apply built_nil.
  - rewrite foldl_app. cbn [foldl]. apply built_offer; [done|done|].
    apply IH. intros r Hr. apply Hin, elem_of_app. by left.
Qed.

(** After the enumeration, the splice keeps exactly the minimal rows. *)
Lemma spliceLarger_minimal candidates st :
  on_grid candidates → built candidates candidates st →
  spliceLarger st.2 st.1 = List.filter (isMinimal candidates) st.1.
Proof.
  intros Hgrid Hb. unfold spliceLarger. apply List.filter_ext_in.
  intros r Hr%list_elem_of_In.
  pose proof (built_rows _ _ _ Hb r Hr) as Hin.
  destruct (built_keys _ _ _ Hb r Hin) as [m Hm]. rewrite Hm.
  destruct (built_min _ _ _ Hb _ _ Hm) as [(r0 & Hr0 & Hk0 & Hv0) Hlow].
  destruct (ngeb (lenSum r) (nadd m tol)) eqn:Hge; cbn [negb]; symmetry.
  - apply (proj1 (ngeb_le _ _)) in Hge. apply not_true_is_false. intros Hmin.
    assert (m < lenSum r) as Hlt
      by (eapply Qclt_le_trans; [apply lt_plus_tol|done]).
    apply (Qclt_not_le _ _ Hlt). rewrite <- Hv0.
    by apply (proj1 (isMinimal_spec _ _) Hmin).
  - apply isMinimal_spec. intros r' Hr' Hk'.
    eapply Qcle_trans; [|by apply Hlow].
    apply apart_le.
    + rewrite <- Hv0. by apply Hgrid.
    + intros Hle.
      pose proof (proj2 (ngeb_le (lenSum r) (nadd m tol)) Hle). congruence.
Qed.

(** C10. In exact arithmetic, for candidate rows whose sums aLen + bLen are,
    for one key, equal or at least 0.001 apart (lengths step by a half or by
    one): with "remove larger" set, the result is, up to the order of the
    final sort, the list of the candidates whose sum is minimal among the
    candidates with the same key, every tie on the minimal sum included. *)
Theorem remove_larger_minimal candidates :
  on_grid candidates →
  calculatePositions true candidates
    ≡ₚ List.filter (isMinimal candidates) candidates ∧
  ∀ r, r ∈ calculatePositions true candidates ↔
       r ∈ candidates ∧
       ∀ r', r' ∈ candidates → keyRemoveLarger r' = keyRemoveLarger r →
             lenSum r <= lenSum r'.
Proof.
  intros Hgrid.
  assert (calculatePositions true candidates
            ≡ₚ List.filter (isMinimal candidates) candidates) as Hperm.
  { unfold calculatePositions.
    pose proof (built_all candidates Hgrid) as Hb.
    destruct (foldl (offer true) ([], ∅) candidates) as [results minLenSum]
      eqn:Hfold.
    rewrite sortRows_perm.
    pose proof (spliceLarger_minimal candidates (results, minLenSum) Hgrid Hb)
      as Hsplice.
    pose proof (built_minimal _ _ _ Hb) as Hmin.
    cbn [fst snd] in Hsplice, Hmin. by rewrite Hsplice, Hmin. }
  split; [done|]. intros r. rewrite Hperm.
  rewrite list_elem_of_In, filter_In, <- list_elem_of_In.
  by rewrite isMinimal_spec.
Qed.

End Exact.

(** Four candidates: three for one position, with sums 5, 3 and 3, and one
    for another position. *)
Definition exampleRows : list (Row (num := Qc) unit) :=
  let row (s : Z) (a b : Z) (k : string) :=
    {| sx := of_Z s; sy := of_Z 0; aLen := of_Z a; bLen := of_Z b;
       keyRemoveLarger := k; others := () |} in
  [row 1 2 3 "1.000_0.000"; row 1 1 2 "1.000_0.000"; row 1 2 1 "1.000_0.000";
   row 2 5 5 "2.000_0.000"]%Z.

Lemma exampleRows_on_grid : on_grid unit exampleRows.
Proof.
  intros r r' Hr Hr' _. unfold exampleRows in Hr, Hr'.
  repeat (apply elem_of_cons in Hr as [->|Hr]);
    try (by apply elem_of_nil in Hr);
    repeat (apply elem_of_cons in Hr' as [->|Hr']);
    try (by apply elem_of_nil in Hr');
    first [ left; reflexivity
          | right; left; vm_compute; discriminate
          | right; right; vm_compute; discriminate ].
Defined.

(** The row with sum 5 is removed; the two rows with sum 3 and the row of
    the other position stay. *)
Lemma remove_larger_minimal_witness :
  calculatePositions true exampleRows
    ≡ₚ List.filter (isMinimal unit exampleRows) exampleRows ∧
  length (calculatePositions true exampleRows) = 3%nat.
Proof.
  split; [apply remove_larger_minimal, exampleRows_on_grid|].
  vm_compute. reflexivity.
Defined.

(** The same four candidates on binary64. *)
Definition exampleRows64 : list (Row (num := float) unit) :=
  let row (s : Z) (a b : Z) (k : string) :=
    {| sx := of_Z s; sy := of_Z 0; aLen := of_Z a; bLen := of_Z b;
       keyRemoveLarger := k; others := () |} in
  [row 1 2 3 "1.000_0.000"; row 1 1 2 "1.000_0.000"; row 1 2 1 "1.000_0.000";
   row 2 5 5 "2.000_0.000"]%Z.

Example remove_larger_binary64 :
  (λ r, (aLen r, bLen r, keyRemoveLarger r)) <$> calculatePositions true exampleRows64
  = [(1%float, 2%float, "1.000_0.000"); (2%float, 1%float, "1.000_0.000");
     (5%float, 5%float, "2.000_0.000")] ∧
  length (calculatePositions false exampleRows64) = 4%nat.
Proof. vm_compute. split; reflexivity. Qed.

End RemoveLarger.

(* ===================================================================== *)
(** ** The comparisons of exact numbers *)
(* ===================================================================== *)

Module QcOrder.
Import Arith.
Local Open Scope Qc_scope.

Lemma leb_le (a b : Qc) : Qc_leb a b = true ↔ a <= b.
Proof.
  unfold Qc_leb. rewrite Qcle_alt. destruct (a ?= b); split; congruence.
Qed.

Lemma leb_gt (a b : Qc) : Qc_leb a b = false ↔ b < a.
Proof.
  rewrite Qclt_nge, <- leb_le. by destruct (Qc_leb a b).
Qed.

Lemma ltb_lt (a b : Qc) : Qc_ltb a b = true ↔ a < b.
Proof.
  unfold Qc_ltb. rewrite Qclt_alt. destruct (a ?= b); split; congruence.
Qed.

Lemma ltb_ge (a b : Qc) : Qc_ltb a b = false ↔ b <= a.
Proof.
  rewrite Qcle_ngt, <- ltb_lt. by destruct (Qc_ltb a b).
Qed.

End QcOrder.

(* ===================================================================== *)
(** ** Propagation: where values come from, and when the loop stops *)
(* ===================================================================== *)

Module Propagation.
Import Arith Gearbox GearboxEval GearboxStep GearboxRun GearboxStable.

Section Facts.
Context {num : Type} `{!Number num}.
Implicit Types (tool t : Tool num) (av : gmap Z (AxleValue num))
  (st : State num) (g : Gearbox num) (o : Output num).

(** The value [{ speed: 1, torque: 1, outputBy: 'source' }] that
    [computeGearMode] sets on the source's axle before the loop. *)
Definition seed : AxleValue num :=
  {| speed := of_Z 1; torque := of_Z 1; outputBy := "source" |}.

(** The axle of the source's first connection, if it is connected. *)
Definition sourceAxle g : option Z := head (connections (sourceTool g)) ≫= axleId.

(** A tool is connected to an axle by one of its connections. *)
Definition connected tool (a : Z) : Prop :=
  ∃ c, c ∈ connections tool ∧ axleId c = Some a.

(** The axles that the connections of a list of tools name. *)
Definition axlesOf (ts : list (Tool num)) : gset Z :=
  list_to_set (omap axleId (ts ≫= connections)).

Lemma findConnection_elem n tool c :
  findConnection n tool = Some c → c ∈ connections tool.
Proof.
  unfold findConnection. intros [Hin _]%find_some. by apply list_elem_of_In.
Qed.

Lemma connected_axlesOf ts t a : t ∈ ts → connected t a → a ∈ axlesOf ts.
Proof.
  intros Ht (c & Hc & Ha). unfold axlesOf. apply elem_of_list_to_set.
  apply list_elem_of_omap. exists c. split; [|done].
  apply list_elem_of_bind. eauto.
Qed.

(** An evaluator only outputs to axles of its tool's own connections. *)
Lemma targets_connected tool gm av o :
  o ∈ targets (evaluateTool tool gm av) → connected tool (o_axleId o).
Proof.
  unfold evaluateTool. destruct (type tool).
  - by intros ?%elem_of_nil.
  - unfold evaluateCoupling.
    destruct (findConnection "Gear A" tool) as [cA|] eqn:HA;
      [|by intros ?%elem_of_nil].
    destruct (findConnection "Gear B" tool) as [cB|] eqn:HB;
      [|by intros ?%elem_of_nil].
    apply findConnection_elem in HA, HB.
    destruct (hasInput tool cA av), (hasInput tool cB av); simpl;
      try (by intros ?%elem_of_nil).
    + destruct (axleId cB) as [out|] eqn:Hout; [|by intros ?%elem_of_nil].
      destruct (getInput cA av); [|by intros ?%elem_of_nil].
      intros ->%list_elem_of_singleton. by exists cB.
    + destruct (axleId cA) as [out|] eqn:Hout; [|by intros ?%elem_of_nil].
      destruct (getInput cB av); [|by intros ?%elem_of_nil].
      intros ->%list_elem_of_singleton. by exists cA.
  - unfold evaluateSelector.
    destruct (findConnection "Center" tool) as [cC|] eqn:HC;
      [|by intros ?%elem_of_nil].
    destruct (findConnection "A" tool) as [cA|] eqn:HA;
      [|by intros ?%elem_of_nil].
    destruct (findConnection "B" tool) as [cB|] eqn:HB;
      [|by intros ?%elem_of_nil].
    apply findConnection_elem in HC, HA, HB.
    destruct (String.eqb (selection tool gm) "Locked").
    + destruct (0 <? length (lockedOutputs tool av [cC; cA; cB]))%nat;
        [|by intros ?%elem_of_nil].
      intros Ho.
      assert (o ∈ lockedOutputs tool av [cC; cA; cB]) as Ho' by exact Ho.
      apply elem_of_lockedOutputs in Ho' as (c & a & Hc & Ha & _ & ->).
      exists c. split; [|done].
      repeat (apply elem_of_cons in Hc as [->|Hc]; [done|]).
      by apply elem_of_nil in Hc.
    + set (act := if String.eqb (selection tool gm) "A" then cA else cB).
      assert (act ∈ connections tool) as Hact by (unfold act; by case_match).
      destruct (hasInput tool cC av), (hasInput tool act av); simpl;
        try (by intros ?%elem_of_nil).
      * destruct (axleId act) as [out|] eqn:Hout; [|by intros ?%elem_of_nil].
        destruct (getInput cC av); [|by intros ?%elem_of_nil].
        intros ->%list_elem_of_singleton. by exists act.
      * destruct (axleId cC) as [out|] eqn:Hout; [|by intros ?%elem_of_nil].
        destruct (getInput act av); [|by intros ?%elem_of_nil].
        intros ->%list_elem_of_singleton. by exists cC.
  - unfold evaluateDifferential.
    destruct (findConnection "Body" tool) as [cBody|] eqn:HBody;
      [|by intros ?%elem_of_nil].
    destruct (findConnection "A" tool) as [cA|] eqn:HA;
      [|by intros ?%elem_of_nil].
    destruct (findConnection "B" tool) as [cB|] eqn:HB;
      [|by intros ?%elem_of_nil].
    apply findConnection_elem in HBody, HA, HB.
    destruct (hasInput tool cBody av), (hasInput tool cA av),
      (hasInput tool cB av); simpl; try (by intros ?%elem_of_nil).
    + destruct (getInput cBody av); simpl; [|by intros ?%elem_of_nil].
      destruct (getInput cA av); simpl; [|by intros ?%elem_of_nil].
      destruct (axleId cB) eqn:Hout; [|by intros ?%elem_of_nil].
      intros ->%list_elem_of_singleton. by exists cB.
    + destruct (getInput cBody av); simpl; [|by intros ?%elem_of_nil].
      destruct (getInput cB av); simpl; [|by intros ?%elem_of_nil].
      destruct (axleId cA) eqn:Hout; [|by intros ?%elem_of_nil].
      intros ->%list_elem_of_singleton. by exists cA.
    + destruct (getInput cA av); simpl; [|by intros ?%elem_of_nil].
      destruct (getInput cB av); simpl; [|by intros ?%elem_of_nil].
      destruct (axleId cBody) eqn:Hout; [|by intros ?%elem_of_nil].
      intros ->%list_elem_of_singleton. by exists cBody.
Qed.

(** Every value in the map is the seed on the source's axle or was written
    by a tool of the gearbox on an axle of one of its connections. *)
Definition placed g av : Prop :=
  ∀ a v, av !! a = Some v →
    (v = seed ∧ sourceAxle g = Some a) ∨
    (∃ t, t ∈ tools g ∧ type t ≠ source ∧ outputBy v = id t ∧ connected t a).

Lemma placed_initial g : placed g (axleValues (initialState g)).
Proof.
  intros a v. unfold initialState, sourceAxle. simpl.
  destruct (head (connections (sourceTool g)) ≫= axleId) as [a0|].
  - intros [-> <-]%lookup_singleton_Some. by left.
  - by rewrite lookup_empty.
Qed.

Lemma placed_step g gm st t :
  t ∈ tools g → placed g (axleValues st) →
  placed g (axleValues (toolStep g gm st t)).
Proof.
  intros Ht Hp a v [Hv|(Hn & Hty & o & Ho & -> & ->)]%toolStep_lookup.
  - by apply Hp.
  - right. exists t. split_and!; [done|done|done|].
    by apply (targets_connected t gm (axleValues st)).
Qed.

Lemma placed_sweep g gm st :
  placed g (axleValues st) → placed g (axleValues (sweep g gm st)).
Proof.
  intros Hp. apply (sweep_ind g gm (λ st', placed g (axleValues st'))); [|done].
  intros st' t Ht. by apply placed_step.
Qed.

Lemma placed_iter g gm k :
  placed g (axleValues (Nat.iter k (sweep g gm) (initialState g))).
Proof.
  apply (iter_sweep_ind g gm (λ st, placed g (axleValues st)));
    [apply placed_sweep|apply placed_initial].
Qed.

Lemma placed_dom g av :
  placed g av → dom av ⊆ axlesOf (sourceTool g :: tools g).
Proof.
  intros Hp a [v Hv]%elem_of_dom.
  destruct (Hp a v Hv) as [[_ Hs]|(t & Ht & _ & _ & Hc)].
  - unfold sourceAxle in Hs.
    destruct (head (connections (sourceTool g))) as [c|] eqn:Hc; [|done].
    apply (connected_axlesOf _ (sourceTool g)); [by left|].
    exists c. split; [by apply head_Some_elem_of|done].
  - apply (connected_axlesOf _ t); [by right|done].
Qed.

(** Each sweep that reports a change has added an entry to the map. *)
Lemma iter_sweep_size g gm k :
  (∀ i, 1 ≤ i ≤ k → changed (Nat.iter i (sweep g gm) (initialState g)) = true) →
  k ≤ size (axleValues (Nat.iter k (sweep g gm) (initialState g))).
Proof.
  induction k as [|k IH]; intros Hall; [lia|].
  assert (k ≤ size (axleValues (Nat.iter k (sweep g gm) (initialState g))))
    as Hk by (apply IH; intros i Hi; apply Hall; lia).
  specialize (Hall (S k)). simpl in *.
  destruct (sweep_changed g gm (Nat.iter k (sweep g gm) (initialState g)))
    as [[Hc _]|[_ Hsub]].
  - rewrite Hall in Hc by lia. done.
  - apply map_subset_size in Hsub. lia.
Qed.

(** The values of a step depend on the values before it only. *)
Lemma write_outputs_values tool st st' os :
  axleValues st = axleValues st' →
  axleValues (foldl (handleOutputs1 tool) st os) =
    axleValues (foldl (handleOutputs1 tool) st' os).
Proof.
  revert st st'. induction os as [|o os IH]; intros st st' Heq; simpl; [done|].
  apply IH. unfold handleOutputs1. rewrite Heq.
  destruct (axleValues st' !! o_axleId o); [by case_bool_decide|].
  simpl. by rewrite Heq.
Qed.

(** X1. The source's axle keeps the value the computation starts from: in
    every gear mode and whatever the tools, the axle of the source's first
    connection ends with speed 1 and torque 1, produced by 'source'. *)
Theorem source_axle_value g gm a :
  sourceAxle g = Some a →
  axleValues (computeGearMode g gm) !! a = Some seed.
Proof.
  intros Ha. unfold computeGearMode.
  eapply lookup_weaken; [|apply propagate_mono].
  unfold initialState, sourceAxle in *. simpl. rewrite Ha.
  apply lookup_singleton_eq.
Qed.

(** X2. Values only appear where a tool is connected: every entry of the
    map that [computeGearMode] returns is the seed on the source's axle, or
    was written by a tool of the gearbox (not of type 'source') on an axle
    that one of the tool's own connections names, with the tool's id as
    [outputBy]. *)
Theorem values_on_connected_axles g gm a v :
  axleValues (computeGearMode g gm) !! a = Some v →
  (v = seed ∧ sourceAxle g = Some a) ∨
  (∃ t, t ∈ tools g ∧ type t ≠ source ∧ outputBy v = id t ∧ connected t a).
Proof.
  destruct (computeGearMode_sweeps g gm) as (k & _ & -> & _).
  apply (placed_sweep g gm), placed_iter.
Qed.

(** X3. The loop runs at most one sweep more than there are axles named by
    the connections of the tools, for every gearbox, cyclic or not: each
    sweep but the last adds a value and values only go on connected axles.
    With fewer than 99 such axles the cap of 100 sweeps is not what stops
    the loop: it ends on a sweep that changed nothing. *)
Theorem sweeps_bounded_by_axles g gm :
  iterations (computeGearMode g gm) ≤ S (size (axlesOf (sourceTool g :: tools g))) ∧
  (size (axlesOf (sourceTool g :: tools g)) < 99 →
   changed (computeGearMode g gm) = false).
Proof.
  destruct (computeGearMode_sweeps g gm) as (k & Hk & Heq & Hall & Hlast).
  assert (k ≤ size (axlesOf (sourceTool g :: tools g))) as Hbound.
  { etrans; [apply (iter_sweep_size g gm k); intros i Hi; apply Hall; lia|].
    rewrite <- size_dom. apply subseteq_size, placed_dom, placed_iter. }
  split.
  - rewrite Heq, sweep_iterations, iter_sweep_iterations. simpl. lia.
  - intros Hsize. destruct Hlast as [Hlast|Hlast]; [|done].
    unfold maxIterations in Hlast. lia.
Qed.

(** X4. When the loop ends on a sweep without change, the map it returns is
    a fixed point: every axle that any tool of the gearbox, evaluated on the
    final values, would output to already has a value, and one more sweep
    returns the same map. *)
Theorem converged_fixpoint g gm :
  changed (computeGearMode g gm) = false →
  (∀ t o, t ∈ tools g →
     o ∈ targets (evaluateTool t gm (axleValues (computeGearMode g gm))) →
     is_Some (axleValues (computeGearMode g gm) !! o_axleId o)) ∧
  axleValues (sweep g gm (computeGearMode g gm)) =
    axleValues (computeGearMode g gm).
Proof.
  destruct (computeGearMode_sweeps g gm) as (k & _ & -> & _).
  set (stp := Nat.iter k (sweep g gm) (initialState g)). intros Hc.
  destruct (sweep_changed g gm stp) as [[_ Heq]|[Hc' _]]; [|congruence].
  assert (∀ st, axleValues st = axleValues stp →
            axleValues (sweep g gm st) = axleValues stp) as Hfix.
  { intros st Hst. rewrite <- Heq, !sweep_eq.
    assert (axleValues (sweepStart st) = axleValues (sweepStart stp)) as Hs
      by done.
    revert Hs. generalize (sweepStart st) (sweepStart stp).
    induction (tools g) as [|t l IH]; intros s1 s2 Hs; simpl; [done|].
    apply IH. destruct (decide (type t = source)) as [Hty|Hty].
    - by rewrite !toolStep_source.
    - rewrite !toolStep_eq by done. rewrite Hs.
      by apply write_outputs_values. }
  split; [|rewrite Heq; by apply Hfix].
  intros t o Ht Ho. rewrite Heq in *.
  destruct (decide (type t = source)) as [Hty|Hty].
  { unfold evaluateTool in Ho. rewrite Hty in Ho. by apply elem_of_nil in Ho. }
  destruct (sweep_view_values g gm (λ _, True) stp t Ht)
    as (stb & _ & Hsub1 & Hsub2); [done..|].
  rewrite Heq in Hsub2.
  assert (axleValues stb = axleValues stp) as Hb.
  { apply (anti_symm (⊆)); [|done]. etrans; [apply toolStep_mono|done]. }
  rewrite <- Hb in Ho.
  destruct (toolStep_present g gm stb t o Hty Ho) as [v Hv].
  exists v. by eapply lookup_weaken.
Qed.

(** *** The statuses a computation leaves *)





(** *** A tool without connected axles *)















End Facts.

Import Examples.

Lemma source_axle_value_witness :
  axleValues (computeGearMode chainExample 2) !! 1%Z = Some seed.
Proof. apply (source_axle_value chainExample 2 1%Z). reflexivity. Defined.

Lemma values_on_connected_axles_witness :
  ∃ t, t ∈ tools chainExample ∧ type t ≠ source ∧ id t = "tool_2" ∧
       connected t 3%Z.
Proof.
  destruct (values_on_connected_axles chainExample 1 3%Z
              {| speed := 1%float; torque := 1%float; outputBy := "tool_2" |})
    as [[Hseed _]|(t & Ht & Hty & Hby & Hc)].
  - vm_compute. reflexivity.
  - discriminate Hseed.
  - exists t. by split_and!.
Defined.

Lemma sweeps_bounded_by_axles_witness :
  iterations (computeGearMode conflictExample 1) ≤ 4 ∧
  changed (computeGearMode conflictExample 1) = false.
Proof.
  destruct (sweeps_bounded_by_axles conflictExample 1) as [Hit Hconv].
  assert (size (axlesOf (sourceTool conflictExample :: tools conflictExample)) = 3)
    as Hsize by (vm_compute; reflexivity).
  rewrite Hsize in Hit, Hconv. split; [exact Hit|]. apply Hconv. lia.
Defined.

Lemma converged_fixpoint_witness :
  axleValues (sweep chainExample 1 (computeGearMode chainExample 1)) =
    axleValues (computeGearMode chainExample 1).
Proof.
  apply (converged_fixpoint chainExample 1). vm_compute. reflexivity.
Defined.

(** A coupling in exact arithmetic: 12 teeth on axle 1, 20 teeth on axle 2. *)
Definition coupling_12_20 : Tool Qc :=
  {| type := coupling; id := "tool_1";
     connections := [{| name := "Gear A"; axleId := Some 1%Z |};
                     {| name := "Gear B"; axleId := Some 2%Z |}];
     params := {| teethA := Some (of_Z 12); teethB := Some (of_Z 20);
                  invertDirection := Some true; modes := ∅ |} |}.

Lemma or_default_nonzero (x : option Qc) (d : Qc) :
  d ≠ Q2Qc 0 → or_default x d ≠ Q2Qc 0.
Proof.
  intros Hd. unfold or_default. destruct x as [v|]; [|done].
  destruct (truthy v) eqn:Hv; [|done].
  simpl in Hv. apply negb_true_iff in Hv. unfold Qc_eq_bool in Hv.
  by destruct (Qcanon.Qc_eq_dec v (Q2Qc 0)).
Qed.

Lemma exact_16_nonzero : (of_Z 16 : Qc) ≠ Q2Qc 0.
Proof. intros H. apply (f_equal this) in H. vm_compute in H. discriminate. Qed.

(** X5. A coupling conserves power in exact arithmetic: whenever it outputs,
    the product of the speed and the torque it outputs is that of its input,
    negated when [invertDirection] is on (the default); the numbers of teeth
    cancel, zero teeth having been replaced by 16. *)
Theorem coupling_power (tool : Tool Qc) gearModeNum av o :
  evaluateCoupling tool gearModeNum av = res_output o →
  ∃ c input,
    c ∈ connections tool ∧ hasInput tool c av = true ∧
    getInput c av = Some input ∧
    nmul (o_speed o) (o_torque o) =
      nmul (if default true (invertDirection (params tool))
            then of_Z (-1) else of_Z 1)
           (nmul (speed input) (torque input)).
Proof.
  unfold evaluateCoupling.
  destruct (findConnection "Gear A" tool) as [cA|] eqn:HA; [|done].
  destruct (findConnection "Gear B" tool) as [cB|] eqn:HB; [|done].
  apply findConnection_elem in HA, HB.
  pose proof (or_default_nonzero (teethA (params tool)) _ exact_16_nonzero) as HtA.
  pose proof (or_default_nonzero (teethB (params tool)) _ exact_16_nonzero) as HtB.
  set (tA := or_default (teethA (params tool)) (of_Z 16)) in *.
  set (tB := or_default (teethB (params tool)) (of_Z 16)) in *.
  destruct (hasInput tool cA av) eqn:HiA, (hasInput tool cB av) eqn:HiB; simpl;
    try done.
  - destruct (axleId cB) as [out|]; [|done].
    destruct (getInput cA av) as [input|] eqn:Hin; [|done].
    intros [= <-]. exists cA, input. split_and!; [done..|]. simpl.
    destruct (invertDirection (params tool)) as [[]|]; simpl; field; done.
  - destruct (axleId cA) as [out|]; [|done].
    destruct (getInput cB av) as [input|] eqn:Hin; [|done].
    intros [= <-]. exists cB, input. split_and!; [done..|]. simpl.
    destruct (invertDirection (params tool)) as [[]|]; simpl; field; done.
Qed.

Lemma coupling_power_witness :
  ∃ o, evaluateCoupling coupling_12_20 1
         {[ 1%Z := {| speed := of_Z 3; torque := of_Z 5; outputBy := "source" |} ]}
       = res_output o ∧
       nmul (o_speed o) (o_torque o) = of_Z (-15).
Proof.
  eexists. split; [reflexivity|].
  edestruct (coupling_power coupling_12_20 1
               {[ 1%Z := {| speed := of_Z 3; torque := of_Z 5;
                            outputBy := "source" |} ]})
    as (c & input & Hc & Hi & Hin & Heq); [reflexivity|].
  etrans; [exact Heq|].
  assert (c = {| name := "Gear A"; axleId := Some 1%Z |}) as ->.
  { apply elem_of_cons in Hc as [->|Hc]; [done|].
    apply list_elem_of_singleton in Hc as ->. discriminate Hi. }
  injection Hin as <-. apply Qc_is_canon. reflexivity.
Defined.

End Propagation.

(* ===================================================================== *)
(** ** The editor keeps its state well formed *)
(* ===================================================================== *)

Module EditorFacts.
Import Arith Gearbox GearboxEval GearboxStep GearboxRun GearboxStable.
Import Propagation Editor.

Section Facts.
Context {num : Type} `{!Number num}.
Implicit Types (d : Data num) (t tool : Tool num) (e : Event num)
  (ts : list (Tool num)).

(** *** The axles in use *)

Lemma usedAxleIds_connections (used : gset Z) (conns : list Connection) a :
  a ∈ foldl (λ used conn,
              match axleId conn with
              | Some a => {[ a ]} ∪ used
              | None => used
              end) used conns ↔
  a ∈ used ∨ ∃ c, c ∈ conns ∧ axleId c = Some a.
Proof.
  revert used. induction conns as [|c conns IH]; intros used; simpl.
  - split; [by left|]. intros [?|(c & Hc & _)]; [done|].
    by apply elem_of_nil in Hc.
  - rewrite IH. split.
    + intros [Hin|(c' & Hc' & Ha)].
      * destruct (axleId c) as [a'|] eqn:Hc; [|by left].
        apply elem_of_union in Hin as [->%elem_of_singleton|Hin]; [|by left].
        right. exists c. split; [by left|done].
      * right. exists c'. split; [by right|done].
    + intros [Hin|(c' & Hc' & Ha)].
      * left. destruct (axleId c); [|done]. apply elem_of_union. by right.
      * apply elem_of_cons in Hc' as [->|Hc'].
        -- left. rewrite Ha. apply elem_of_union. left.
           by apply elem_of_singleton.
        -- right. by exists c'.
Qed.

Lemma elem_of_usedAxleIds ts a :
  a ∈ usedAxleIds ts ↔ ∃ t, t ∈ ts ∧ connected t a.
Proof.
  unfold usedAxleIds.
  assert (∀ used : gset Z,
    a ∈ foldl (λ used tool,
                foldl (λ used conn,
                        match axleId conn with
                        | Some a => {[ a ]} ∪ used
                        | None => used
                        end) used (connections tool)) used ts ↔
    a ∈ used ∨ ∃ t, t ∈ ts ∧ connected t a) as Hgen.
  { induction ts as [|t ts IH]; intros used; simpl.
    - split; [by left|]. intros [?|(t & Ht & _)]; [done|].
      by apply elem_of_nil in Ht.
    - rewrite IH, usedAxleIds_connections. split.
      + intros [[?|Hc]|(t' & Ht' & Hc)]; [by left| |].
        * right. exists t. split; [by left|done].
        * right. exists t'. split; [by right|done].
      + intros [?|(t' & Ht' & Hc)]; [by left; left|].
        apply elem_of_cons in Ht' as [->|Ht']; [by left; right|].
        right. by exists t'. }
  rewrite Hgen. split; [|by right]. intros [Hin|?]; [|done].
  by apply elem_of_empty in Hin.
Qed.

(** *** The invariants *)

(** The tools: the source comes first and is the only tool of type 'source'
    and the only one called 'source'; the others are called [tool_k], each
    with a number [k] of its own, below [nextToolId]. *)
Record tools_wf d : Prop := {
  wf_next_tool : 1 ≤ nextToolId d;
  wf_head : ∃ s rest, tools d = s :: rest ∧ id s = "source" ∧ type s = source;
  wf_ids : ∀ t, t ∈ tools d →
    (id t = "source" ∧ type t = source) ∨
    (type t ≠ source ∧ ∃ k, 1 ≤ k < nextToolId d ∧ id t = "tool_" +:+ pretty k);
  wf_nodup : NoDup (id <$> tools d);
}.

(** The axles: listed once each, numbered from 1 and below [nextAxleId];
    every axle that a connection names is listed, the list is never empty
    and the axle selected for the results is in it. *)
Record axles_wf d : Prop := {
  wf_next : (2 ≤ nextAxleId d)%Z;
  wf_axle_nodup : NoDup (axle_id <$> axles d);
  wf_axle_bound : ∀ a, a ∈ axle_id <$> axles d → (1 ≤ a < nextAxleId d)%Z;
  wf_listed : ∀ t a, t ∈ tools d → connected t a → a ∈ axle_id <$> axles d;
  wf_nonempty : axles d ≠ [];
  wf_selected : selectedAxleId d ∈ axle_id <$> axles d;
}.

Lemma tool_id_not_source (k : nat) : "tool_" +:+ pretty k ≠ "source".
Proof. done. Qed.

Lemma tool_id_inj (k k' : nat) :
  "tool_" +:+ pretty k = "tool_" +:+ pretty k' → k = k'.
Proof. intros Heq. apply (inj pretty). by simplify_eq/=. Qed.

(** *** resetData *)

Lemma resetData_tools_wf : tools_wf (resetData (num := num)).
Proof.
  split; simpl.
  - done.
  - by eexists _, _.
  - intros t ->%list_elem_of_singleton. by left.
  - apply NoDup_singleton.
Qed.

Lemma resetData_axles_wf : axles_wf (resetData (num := num)).
Proof.
  split; simpl; try done.
  - apply NoDup_singleton.
  - intros a ->%list_elem_of_singleton. lia.
  - intros t a ->%list_elem_of_singleton (c & Hc & Ha). simpl in Hc.
    apply list_elem_of_singleton in Hc as ->. simpl in Ha. injection Ha as <-.
    by left.
  - by left.
Qed.

(** *** addTool *)

Lemma addTool_new ty d :
  ∃ tool, tools (addTool ty d) = tools d ++ [tool] ∧ type tool = ty ∧
    id tool = "tool_" +:+ pretty (nextToolId d) ∧
    Forall (λ c, axleId c = None) (connections tool).
Proof.
  unfold addTool. destruct ty; simpl; eexists; split_and!; try done;
    repeat constructor.
Qed.

Lemma addTool_tools_wf ty d :
  ty ≠ source → tools_wf d → tools_wf (addTool ty d).
Proof.
  intros Hty [Hnext Hhead Hids Hnd].
  destruct (addTool_new ty d) as (tool & Htools & Htype & Hid & _).
  assert (nextToolId (addTool ty d) = S (nextToolId d)) as Hn
    by (unfold addTool; by destruct ty).
  split.
  - lia.
  - destruct Hhead as (s & rest & Hd & Hs). exists s, (rest ++ [tool]).
    split; [|done]. by rewrite Htools, Hd.
  - intros t. rewrite Htools, Hn. intros [Ht|Ht]%elem_of_app.
    + destruct (Hids t Ht) as [?|(? & k & Hk & ?)]; [by left|].
      right. split; [done|]. exists k. split; [lia|done].
    + apply list_elem_of_singleton in Ht as ->. right. split; [congruence|].
      exists (nextToolId d). split; [lia|done].
  - rewrite Htools, fmap_app. apply NoDup_app. split_and!; [done| |].
    + intros i Hi Hi'. simpl in Hi'. apply list_elem_of_singleton in Hi' as ->.
      apply list_elem_of_fmap in Hi as (t & Hit & Ht).
      destruct (Hids t Ht) as [[Hs _]|(_ & k & Hk & Hidk)].
      * rewrite Hid in Hit. rewrite Hs in Hit. by apply tool_id_not_source in Hit.
      * rewrite Hid, Hidk in Hit. apply tool_id_inj in Hit. lia.
    + apply NoDup_singleton.
Qed.

Lemma addTool_axles_wf ty d : axles_wf d → axles_wf (addTool ty d).
Proof.
  intros [Hnext Hnd Hbound Hlisted Hne Hsel].
  destruct (addTool_new ty d) as (tool & Htools & _ & _ & Hnone).
  assert (axles (addTool ty d) = axles d ∧
          nextAxleId (addTool ty d) = nextAxleId d ∧
          selectedAxleId (addTool ty d) = selectedAxleId d) as (Ha & Hn & Hs)
    by (unfold addTool; by destruct ty).
  split; rewrite ?Ha, ?Hn, ?Hs; try done.
  intros t a. rewrite Htools. intros [Ht|Ht]%elem_of_app Hc; [by eapply Hlisted|].
  apply list_elem_of_singleton in Ht as ->. destruct Hc as (c & Hc & Hca).
  rewrite Forall_forall in Hnone. rewrite (Hnone c Hc) in Hca. done.
Qed.

(** *** Operations that keep the ids and types of the tools *)

Definition shape ts : list (string * ToolType) := (λ t, (id t, type t)) <$> ts.

Lemma shape_elem_of ts t :
  t ∈ ts → (id t, type t) ∈ shape ts.
Proof. intros Ht. by apply (list_elem_of_fmap_2 (λ t, (id t, type t))). Qed.

Lemma shape_elem_of_inv ts i ty :
  (i, ty) ∈ shape ts → ∃ t, t ∈ ts ∧ id t = i ∧ type t = ty.
Proof.
  intros (t & [= -> ->] & Ht)%list_elem_of_fmap. by exists t.
Qed.

Lemma shape_ids ts : id <$> ts = fst <$> shape ts.
Proof. unfold shape. rewrite <- list_fmap_compose. done. Qed.

Lemma tools_wf_shape d d' :
  shape (tools d') = shape (tools d) → nextToolId d' = nextToolId d →
  tools_wf d → tools_wf d'.
Proof.
  intros Hshape Hnext [Hn Hhead Hids Hnd]. split.
  - by rewrite Hnext.
  - destruct Hhead as (s & rest & Hd & Hid & Hty). rewrite Hd in Hshape.
    destruct (tools d') as [|s' rest']; [done|]. injection Hshape as Hi Ht _.
    exists s', rest'. split; [done|]. split; congruence.
  - intros t' Ht'. apply shape_elem_of in Ht'. rewrite Hshape in Ht'.
    apply shape_elem_of_inv in Ht' as (t & Ht & Hi & Hty).
    rewrite Hnext, <- Hi, <- Hty. by apply Hids.
  - by rewrite shape_ids, Hshape, <- shape_ids.
Qed.

Lemma shape_insert ts i t t' :
  ts !! i = Some t → id t' = id t → type t' = type t →
  shape (<[i := t']> ts) = shape ts.
Proof.
  intros Hi Hid Hty. unfold shape. rewrite list_fmap_insert.
  apply list_insert_id. rewrite list_lookup_fmap, Hi. simpl. congruence.
Qed.

Lemma tools_cleanup d : tools (cleanupUnusedAxles d) = tools d.
Proof. done. Qed.

Lemma tools_updateAxleSelector d : tools (updateAxleSelector d) = tools d.
Proof. unfold updateAxleSelector. by repeat case_match. Qed.

Lemma nextToolId_updateAxleSelector d :
  nextToolId (updateAxleSelector d) = nextToolId d.
Proof. unfold updateAxleSelector. by repeat case_match. Qed.

Lemma updateConnection_shape toolId connName a d :
  shape (tools (updateConnection toolId connName a d)) = shape (tools d) ∧
  nextToolId (updateConnection toolId connName a d) = nextToolId d.
Proof.
  unfold updateConnection.
  destruct (list_find _ (tools d)) as [[i tool]|] eqn:Hfind; [|done].
  destruct (list_find _ (connections tool)) as [[j conn]|]; [|done].
  apply list_find_Some in Hfind as (Hi & _ & _).
  rewrite tools_updateAxleSelector, nextToolId_updateAxleSelector. simpl.
  split; [|done]. by apply (shape_insert _ _ tool).
Qed.

Lemma updateParam_shape toolId p d :
  shape (tools (updateParam toolId p d)) = shape (tools d) ∧
  nextToolId (updateParam toolId p d) = nextToolId d.
Proof.
  unfold updateParam.
  destruct (list_find _ (tools d)) as [[i tool]|] eqn:Hfind; [|done].
  apply list_find_Some in Hfind as (Hi & _ & _). simpl.
  split; [|done]. by apply (shape_insert _ _ tool).
Qed.

Lemma updateSelectorParams_shape d :
  shape (tools (updateSelectorParams d)) = shape (tools d).
Proof.
  unfold updateSelectorParams, shape. simpl. rewrite <- list_fmap_compose.
  apply list_fmap_ext. intros i t _. simpl. by case_decide.
Qed.

Lemma onNumGearModesChange_shape val d :
  shape (tools (onNumGearModesChange val d)) = shape (tools d) ∧
  nextToolId (onNumGearModesChange val d) = nextToolId d.
Proof.
  unfold onNumGearModesChange. case_match; [|done].
  by rewrite updateSelectorParams_shape.
Qed.

(** *** removeTool *)

Lemma removeTool_tools toolId d :
  tools_wf d →
  (tools (removeTool toolId d) = tools d ∧
   (toolId = "source" ∨ ∀ t, t ∈ tools d → id t ≠ toolId)) ∨
  (toolId ≠ "source" ∧
   ∃ l1 t l2, tools d = l1 ++ t :: l2 ∧ id t = toolId ∧ l1 ≠ [] ∧
     tools (removeTool toolId d) = l1 ++ l2).
Proof.
  intros [_ Hhead _ _]. unfold removeTool.
  destruct (String.eqb toolId "source") eqn:Hsrc.
  { left. split; [done|]. left. by apply String.eqb_eq. }
  apply String.eqb_neq in Hsrc.
  destruct (list_find _ (tools d)) as [[index t]|] eqn:Hfind.
  - right. split; [done|].
    apply list_find_Some in Hfind as (Hi & Hid & _).
    rewrite tools_updateAxleSelector, tools_cleanup. simpl.
    exists (take index (tools d)), t, (drop (S index) (tools d)). split_and!.
    + by rewrite take_drop_middle.
    + done.
    + destruct Hhead as (s & rest & Hd & Hs & _). rewrite Hd in *.
      destruct index; [|done]. simpl in Hi. congruence.
    + apply delete_take_drop.
  - left. split; [done|]. right.
    apply list_find_None in Hfind. rewrite Forall_forall in Hfind.
    intros t Ht. by apply Hfind.
Qed.

Lemma removeTool_nextToolId toolId d :
  nextToolId (removeTool toolId d) = nextToolId d.
Proof.
  unfold removeTool. repeat case_match; try done.
  by rewrite nextToolId_updateAxleSelector.
Qed.

Lemma removeTool_tools_wf toolId d : tools_wf d → tools_wf (removeTool toolId d).
Proof.
  intros Hwf.
  destruct (removeTool_tools toolId d Hwf)
    as [[Heq _]|(Hne & l1 & t & l2 & Hd & Hid & Hl1 & Heq)].
  { apply (tools_wf_shape d); [by rewrite Heq|apply removeTool_nextToolId|done]. }
  destruct Hwf as [Hn Hhead Hids Hnd]. split.
  - by rewrite removeTool_nextToolId.
  - destruct Hhead as (s & rest & Hd' & Hs). rewrite Heq.
    destruct l1 as [|s' l1]; [done|]. rewrite Hd in Hd'. injection Hd' as -> _.
    by eexists _, _.
  - intros t'. rewrite Heq, removeTool_nextToolId. intros Ht'. apply Hids.
    rewrite Hd. apply elem_of_app in Ht' as [?|?]; apply elem_of_app;
      [by left|right; by right].
  - rewrite Heq. rewrite Hd in Hnd. rewrite fmap_app in *.
    rewrite fmap_cons in Hnd. apply NoDup_app in Hnd as (H1 & H2 & H3).
    apply NoDup_cons in H3 as [_ H3]. apply NoDup_app. split_and!; [done| |done].
    intros i Hi Hi'. apply (H2 i Hi). by right.
Qed.

(** *** The axles *)

Record axles_pre d : Prop := {
  pre_next : (2 ≤ nextAxleId d)%Z;
  pre_nodup : NoDup (axle_id <$> axles d);
  pre_bound : ∀ a, a ∈ axle_id <$> axles d → (1 ≤ a < nextAxleId d)%Z;
  pre_listed : ∀ t a, t ∈ tools d → connected t a → a ∈ axle_id <$> axles d;
}.

Lemma axles_wf_pre d : axles_wf d → axles_pre d.
Proof. intros []. by split. Qed.

Lemma updateAxleSelector_wf d :
  axles_pre d → axles d ≠ [] → axles_wf (updateAxleSelector d).
Proof.
  intros [Hnext Hnd Hbound Hlisted] Hne. unfold updateAxleSelector.
  destruct (List.find _ (axles d)) as [x|] eqn:Hfind.
  - split; try done. apply find_some in Hfind as [Hin Heq].
    apply Z.eqb_eq in Heq. rewrite <- Heq.
    apply list_elem_of_fmap_2. by apply list_elem_of_In.
  - destruct (axles d) as [|a0 l] eqn:Hax; [done|].
    split; simpl; rewrite ?Hax; try done. by left.
Qed.

Lemma cleanup_pre d :
  axles_pre d →
  axles_pre (cleanupUnusedAxles d) ∧ axles (cleanupUnusedAxles d) ≠ [].
Proof.
  intros [Hnext Hnd Hbound Hlisted]. unfold cleanupUnusedAxles.
  set (l := filter (λ a, axle_id a ∈ usedAxleIds (tools d)) (axles d)).
  assert (∀ t a, t ∈ tools d → connected t a → a ∈ axle_id <$> l) as Hl.
  { intros t a Ht Hc.
    pose proof (Hlisted t a Ht Hc) as Hin.
    apply list_elem_of_fmap in Hin as (x & -> & Hx).
    apply list_elem_of_fmap_2. apply list_elem_of_filter. split; [|done].
    apply elem_of_usedAxleIds. eauto. }
  destruct l as [|x l'] eqn:Hfl; simpl.
  - split; [|done]. split; simpl; try done.
    + apply NoDup_singleton.
    + intros a ->%list_elem_of_singleton. lia.
    + intros t a Ht Hc. pose proof (Hl t a Ht Hc) as Hin.
      by apply elem_of_nil in Hin.
  - split; [|done]. rewrite <- Hfl. split; simpl; try done.
    + eapply sublist_NoDup; [exact Hnd|].
      apply fmap_sublist, sublist_filter.
    + intros a (y & -> & Hy)%list_elem_of_fmap. apply Hbound.
      apply list_elem_of_fmap_2. by apply list_elem_of_filter in Hy as [_ Hy].
    + intros t a Ht Hc. rewrite Hfl. by eapply Hl.
Qed.

Lemma cleanup_axles_wf d :
  axles_pre d → axles_wf (updateAxleSelector (cleanupUnusedAxles d)).
Proof.
  intros Hpre. destruct (cleanup_pre d Hpre). by apply updateAxleSelector_wf.
Qed.

Lemma removeTool_axles_wf toolId d : axles_wf d → axles_wf (removeTool toolId d).
Proof.
  intros Hwf. unfold removeTool. case_match; [done|].
  destruct (list_find _ (tools d)) as [[index t]|]; [|done].
  apply cleanup_axles_wf. destruct Hwf as [Hnext Hnd Hbound Hlisted _ _].
  split; simpl; try done.
  intros t' a Ht'. apply Hlisted. by eapply list_elem_of_delete_inv.
Qed.

Lemma updateConnection_axles_wf toolId connName a d :
  axles_wf d → (∀ a', a = Some a' → a' ∈ axle_id <$> axles d) →
  axles_wf (updateConnection toolId connName a d).
Proof.
  intros Hwf Ha. unfold updateConnection.
  destruct (list_find _ (tools d)) as [[i tool]|] eqn:Hfind; [|done].
  destruct (list_find _ (connections tool)) as [[j conn]|] eqn:Hfindc; [|done].
  apply list_find_Some in Hfind as (Hi & _ & _).
  apply list_find_Some in Hfindc as (Hj & _ & _).
  apply cleanup_axles_wf. destruct Hwf as [Hnext Hnd Hbound Hlisted _ _].
  split; simpl; try done.
  intros t' a' Ht' Hc.
  apply list_elem_of_lookup in Ht' as [i' Hi'].
  apply list_lookup_insert_Some in Hi' as [(-> & <- & _)|[_ Hi']].
  - destruct Hc as (c & Hc & Hca). simpl in Hc.
    apply list_elem_of_lookup in Hc as [j' Hj'].
    apply list_lookup_insert_Some in Hj' as [(-> & <- & _)|[_ Hj']].
    + simpl in Hca. by apply Ha.
    + apply (Hlisted tool); [by eapply list_elem_of_lookup_2|].
      exists c. split; [by eapply list_elem_of_lookup_2|done].
  - apply (Hlisted t'); [by eapply list_elem_of_lookup_2|done].
Qed.

Lemma onConnectionChange_axles_wf toolId connName choice d :
  axles_wf d →
  offered d (change_connection toolId connName choice) →
  axles_wf (onConnectionChange toolId connName choice d).
Proof.
  intros Hwf Hoff. destruct choice as [| |a]; simpl in *.
  - apply updateConnection_axles_wf.
    + destruct Hwf as [Hnext Hnd Hbound Hlisted Hne _].
      apply updateAxleSelector_wf; [|simpl; by destruct (axles d)].
      split; simpl.
      * lia.
      * rewrite fmap_app. apply NoDup_app. split_and!; [done| |apply NoDup_singleton].
        intros a Ha ->%list_elem_of_singleton. apply Hbound in Ha.
        simpl in Ha. lia.
      * intros a. rewrite fmap_app.
        intros [Ha | ->%list_elem_of_singleton]%elem_of_app; [|simpl; lia].
        apply Hbound in Ha. lia.
      * intros t a Ht Hc. rewrite fmap_app. apply elem_of_app. left.
        by eapply Hlisted.
    + intros a' [= <-].
      assert (axles (updateAxleSelector
                {| numGearModes := numGearModes d; tools := tools d;
                   axles := axles d ++
                     [{| axle_id := nextAxleId d;
                         axle_name := "Axle " +:+ pretty (nextAxleId d) |}];
                   nextToolId := nextToolId d;
                   nextAxleId := (nextAxleId d + 1)%Z;
                   selectedAxleId := selectedAxleId d |})
              = axles d ++ [{| axle_id := nextAxleId d;
                               axle_name := "Axle " +:+ pretty (nextAxleId d) |}])
        as -> by (unfold updateAxleSelector; by repeat case_match).
      rewrite fmap_app. apply elem_of_app. right. by left.
  - by apply updateConnection_axles_wf.
  - apply updateConnection_axles_wf; [done|]. by intros a' [= <-].
Qed.

Lemma axles_wf_same_connections d d' :
  axles d' = axles d → nextAxleId d' = nextAxleId d →
  selectedAxleId d' = selectedAxleId d →
  (∀ t' a, t' ∈ tools d' → connected t' a → ∃ t, t ∈ tools d ∧ connected t a) →
  axles_wf d → axles_wf d'.
Proof.
  intros Ha Hn Hs Hc [Hnext Hnd Hbound Hlisted Hne Hsel].
  split; rewrite ?Ha, ?Hn, ?Hs; try done.
  intros t' a Ht' Hc'. destruct (Hc t' a Ht' Hc') as (t & Ht & Hct).
  by eapply Hlisted.
Qed.

Lemma updateParam_axles_wf toolId p d : axles_wf d → axles_wf (updateParam toolId p d).
Proof.
  unfold updateParam.
  destruct (list_find _ (tools d)) as [[i tool]|] eqn:Hfind; [|done].
  apply list_find_Some in Hfind as (Hi & _ & _).
  apply axles_wf_same_connections; try done. simpl.
  intros t' a [i' Hi']%list_elem_of_lookup Hc.
  apply list_lookup_insert_Some in Hi' as [(-> & <- & _)|[_ Hi']].
  - exists tool. split; [by eapply list_elem_of_lookup_2|done].
  - exists t'. split; [by eapply list_elem_of_lookup_2|done].
Qed.

Lemma onNumGearModesChange_axles_wf val d :
  axles_wf d → axles_wf (onNumGearModesChange val d).
Proof.
  unfold onNumGearModesChange. case_match; [|done].
  apply axles_wf_same_connections; try done. simpl.
  intros t' a (t & -> & Ht)%list_elem_of_fmap Hc.
  exists t. split; [done|]. by case_decide.
Qed.

(** The states of the editor are well formed. *)
Lemma reachable_wf d : reachable d → tools_wf d ∧ axles_wf d.
Proof.
  induction 1 as [|d e _ [IHt IHa] Hoff].
  - split; [apply resetData_tools_wf|apply resetData_axles_wf].
  - destruct e as [ty|toolId|toolId connName choice|toolId p|val|a]; simpl in *.
    + split; [by apply addTool_tools_wf|by apply addTool_axles_wf].
    + split; [by apply removeTool_tools_wf|by apply removeTool_axles_wf].
    + split; [|by apply onConnectionChange_axles_wf].
      destruct choice; simpl.
      * match goal with |- tools_wf (updateConnection ?i ?n ?a ?d') =>
          destruct (updateConnection_shape i n a d') as [Hs Hn];
          apply (tools_wf_shape d); [|by rewrite Hn, nextToolId_updateAxleSelector|done]
        end.
        rewrite Hs. by rewrite tools_updateAxleSelector.
      * destruct (updateConnection_shape toolId connName None d) as [Hs Hn].
        by apply (tools_wf_shape d).
      * destruct (updateConnection_shape toolId connName (Some a) d) as [Hs Hn].
        by apply (tools_wf_shape d).
    + split; [|by apply updateParam_axles_wf].
      destruct (updateParam_shape toolId p d) as [Hs Hn].
      by apply (tools_wf_shape d).
    + split; [|by apply onNumGearModesChange_axles_wf].
      destruct (onNumGearModesChange_shape val d) as [Hs Hn].
      by apply (tools_wf_shape d).
    + split; [by apply (tools_wf_shape d)|].
      destruct IHa. by split.
Qed.

Lemma filter_all {A} (P : A → Prop) `{!∀ x, Decision (P x)} (l : list A) :
  Forall P l → filter P l = l.
Proof.
  induction 1 as [|x l Hx _ IH]; [done|].
  rewrite filter_cons_True by done. by rewrite IH.
Qed.

Lemma gearbox_Some d : tools_wf d → ∃ g, gearbox d = Some g ∧
  Gearbox.tools g = tools d ∧ head (tools d) = Some (sourceTool g).
Proof.
  intros [_ (s & rest & Hd & _) _ _]. unfold gearbox. rewrite Hd. simpl.
  by eexists.
Qed.

(** X6. In every state of the editor the source comes first in [tools] and
    is the only tool of type 'source'; every other tool is called [tool_k]
    for a number [k] below [nextToolId]; no two tools share an id. So the
    gearbox that [compute()] reads has the unique ids that the statuses of
    the computation rely on. *)
Theorem editor_tool_ids d :
  reachable d →
  (∃ s rest, tools d = s :: rest ∧ id s = "source" ∧ type s = source ∧
     ∀ t, t ∈ rest →
       type t ≠ source ∧
       ∃ k, 1 ≤ k < nextToolId d ∧ id t = "tool_" +:+ pretty k) ∧
  NoDup (id <$> tools d) ∧
  ∃ g, gearbox d = Some g ∧ sourceTool g ∈ Gearbox.tools g ∧ unique_ids g.
Proof.
  intros [Hwf _]%reachable_wf.
  destruct (gearbox_Some d Hwf) as (g & Hg & Htools & Hhead).
  destruct Hwf as [Hn (s & rest & Hd & Hs & Hty) Hids Hnd]. split_and!.
  - exists s, rest. split_and!; [done..|]. intros t Ht.
    destruct (Hids t) as [[Hid _]|?]; [rewrite Hd; by right| |done].
    rewrite Hd in Hnd. simpl in Hnd. apply NoDup_cons in Hnd as [Hnotin _].
    destruct Hnotin. rewrite Hs, <- Hid. by apply list_elem_of_fmap_2.
  - done.
  - exists g. split_and!; [done| |].
    + rewrite Htools. by apply head_Some_elem_of.
    + split; rewrite Htools; [done|].
      intros t Ht Hid. destruct (Hids t Ht) as [[_ ?]|(_ & k & _ & Hk)]; [done|].
      rewrite Hk in Hid. by apply tool_id_not_source in Hid.
Qed.

(** X7. In every state of the editor the list of axles is not empty and has
    no id twice, every id in it is at least 1 and below [nextAxleId] (so
    '+ New Axle' never reuses an id), every axle that a connection of a tool
    names is in the list, and so is the axle selected for the results. *)
Theorem editor_axles d :
  reachable d →
  axles d ≠ [] ∧ NoDup (axle_id <$> axles d) ∧
  (∀ a, a ∈ axle_id <$> axles d → (1 ≤ a < nextAxleId d)%Z) ∧
  (∀ t c a, t ∈ tools d → c ∈ connections t → axleId c = Some a →
     a ∈ axle_id <$> axles d) ∧
  selectedAxleId d ∈ axle_id <$> axles d.
Proof.
  intros [_ [Hnext Hnd Hbound Hlisted Hne Hsel]]%reachable_wf.
  split_and!; try done.
  intros t c a Ht Hc Ha. apply (Hlisted t); [done|]. by exists c.
Qed.

(** X8. [removeTool] in a state of the editor: the source cannot be removed;
    for any other id the tools left are exactly those with another id, in
    their order (all of them when no tool has the id), and the source is
    still the first. *)
Theorem removeTool_spec d toolId :
  reachable d →
  tools (removeTool toolId d) =
    (if String.eqb toolId "source" then tools d
     else filter (λ t, id t ≠ toolId) (tools d)) ∧
  head (tools (removeTool toolId d)) = head (tools d).
Proof.
  intros [Hwf _]%reachable_wf.
  destruct (removeTool_tools toolId d Hwf)
    as [[Heq Hor]|(Hne & l1 & t & l2 & Hd & Hid & Hl1 & Heq)].
  - rewrite Heq. split; [|done].
    destruct (String.eqb toolId "source") eqn:Hsrc; [done|].
    apply String.eqb_neq in Hsrc. destruct Hor as [?|Hnone]; [done|].
    symmetry. apply filter_all. by apply Forall_forall.
  - rewrite Heq. apply String.eqb_neq in Hne. rewrite Hne. split.
    + destruct Hwf as [_ _ _ Hnd]. rewrite Hd in *.
      rewrite fmap_app, fmap_cons in Hnd.
      apply NoDup_app in Hnd as (_ & H2 & H3).
      apply NoDup_cons in H3 as [H3 _].
      rewrite filter_app. rewrite filter_cons_False; [|intros Hn; by apply Hn].
      rewrite !filter_all; [done| |]; apply Forall_forall; intros t' Ht' Hid'.
      * apply H3. rewrite <- Hid in Hid'. rewrite <- Hid'.
        by apply list_elem_of_fmap_2.
      * apply (H2 (id t')); [by apply list_elem_of_fmap_2|].
        rewrite Hid', <- Hid. by left.
    + rewrite Hd. by destruct l1.
Qed.

(** X9. [cleanupUnusedAxles], in any state: the list it leaves is not
    empty; it keeps, in their order, the listed axles that a connection of
    some tool names, and nothing else but 'Axle 1' when it keeps none;
    running it again changes nothing. *)
Theorem cleanupUnusedAxles_spec d :
  let d' := cleanupUnusedAxles d in
  let used x := ∃ t, t ∈ tools d ∧ connected t (axle_id x) in
  axles d' ≠ [] ∧
  (∀ x, x ∈ axles d → used x → x ∈ axles d') ∧
  (∀ x, x ∈ axles d' →
     (x ∈ axles d ∧ used x) ∨
     (axles d' = [{| axle_id := 1; axle_name := "Axle 1" |}] ∧
      ∀ y, y ∈ axles d → ¬ used y)) ∧
  axles d' `sublist_of` axles d ++ [{| axle_id := 1; axle_name := "Axle 1" |}] ∧
  cleanupUnusedAxles d' = d'.
Proof.
  intros d' used. unfold d', cleanupUnusedAxles. cbv zeta.
  set (P := λ a : Axle, axle_id a ∈ usedAxleIds (tools d)).
  assert (∀ x, P x ↔ used x) as HP by (intros x; apply elem_of_usedAxleIds).
  assert (∀ x, x ∈ filter P (axles d) ↔ x ∈ axles d ∧ used x) as Hin.
  { intros x. rewrite list_elem_of_filter, HP. tauto. }
  destruct (filter P (axles d)) as [|x0 l] eqn:Hl; simpl.
  - split_and!.
    + done.
    + intros x Hx Hu. exfalso. eapply elem_of_nil, Hin. eauto.
    + intros x _. right. split; [done|]. intros y Hy Hu.
      eapply elem_of_nil, Hin. eauto.
    + by apply sublist_inserts_l.
    + unfold set_axles. simpl. fold P.
      destruct (decide (P {| axle_id := 1; axle_name := "Axle 1" |})).
      * by rewrite filter_cons_True.
      * by rewrite filter_cons_False.
  - split_and!.
    + done.
    + intros x Hx Hu. apply Hin. eauto.
    + intros x Hx%Hin. by left.
    + apply sublist_inserts_r. rewrite <- Hl. apply sublist_filter.
    + unfold set_axles. simpl. fold P. rewrite <- Hl. rewrite filter_all.
      * by rewrite Hl.
      * apply Forall_forall. by intros x [Hx _]%list_elem_of_filter.
Qed.



End Facts.

Lemma snapTeeth_NaN isTeethA prevValue : snapTeeth isTeethA prevValue None = None.
Proof.
  unfold snapTeeth. destruct isTeethA, prevValue as [p|]; simpl; try done;
    by destruct (p =? 0)%Z.
Qed.

Lemma validTeeth_A v :
  validTeeth true v ↔ (v = 1 ∨ (8 ≤ v ∧ (v - 8) mod 4 = 0))%Z.
Proof. unfold validTeeth. intuition. Qed.

Lemma validTeeth_B v : validTeeth false v ↔ (8 ≤ v ∧ (v - 8) mod 4 = 0)%Z.
Proof. unfold validTeeth. intuition discriminate. Qed.

Ltac snap_cases :=
  repeat (match goal with
    | |- context [(?a =? ?b)%Z] => destruct (Z.eqb_spec a b)
    | |- context [(?a <? ?b)%Z] => destruct (Z.ltb_spec a b)
    | |- context [(?a <=? ?b)%Z] => destruct (Z.leb_spec a b)
    end; simpl; try (exfalso; Z.to_euclidean_division_equations; lia)).

Ltac snap_goal :=
  repeat (intros; match goal with
                  | |- _ ∧ _ => split
                  | H : Some _ = Some _ |- _ => injection H as H
                  | H : None = Some _ |- _ => discriminate H
                  end);
  intros; try (Z.to_euclidean_division_equations; lia).

(** X12. The listener of a teeth input: a value that [parseInt] could not
    read stays [NaN]; any other value ends as a valid number of teeth (1 for
    Gear A only, or 8, 12, 16, ...), a valid value is kept as it is, and an
    invalid value typed over a valid one jumps to the nearest valid value in
    the direction of the change: up to the least valid value above it, down
    to the greatest valid value below it, or to the minimum when there is
    none below. *)
Theorem snapTeeth_valid isTeethA prevValue v :
  snapTeeth isTeethA prevValue None = None ∧
  ∃ r, snapTeeth isTeethA prevValue (Some v) = Some r ∧
    validTeeth isTeethA r ∧
    (validTeeth isTeethA v → r = v) ∧
    (∀ p, prevValue = Some p → validTeeth isTeethA p → ¬ validTeeth isTeethA v →
       ((p < v)%Z →
          (v ≤ r)%Z ∧ ∀ w, validTeeth isTeethA w → (v ≤ w)%Z → (r ≤ w)%Z) ∧
       ((v < p)%Z →
          (∀ w, validTeeth isTeethA w → (w ≤ v)%Z → (w ≤ r)%Z) ∧
          ((r ≤ v)%Z ∨ r = (if isTeethA then 1 else 8)%Z))).
Proof.
  split; [apply snapTeeth_NaN|].
  destruct isTeethA.
  - setoid_rewrite validTeeth_A.
    unfold snapTeeth, ceil_quarter, floor_quarter.
    destruct prevValue as [p|]; simpl; snap_cases;
      (eexists; split; [reflexivity|]); snap_goal.
  - setoid_rewrite validTeeth_B.
    unfold snapTeeth, ceil_quarter, floor_quarter.
    destruct prevValue as [p|]; simpl; snap_cases;
      (eexists; split; [reflexivity|]); snap_goal.
Qed.

Import Examples.

(** A session of the editor: a coupling between axle 1 and a new axle, and a
    selector. *)
Definition session1 : Data float := handle (click_add coupling) resetData.
Definition session2 : Data float :=
  handle (change_connection "tool_1" "Gear A" (choice_axle 1)) session1.
Definition session3 : Data float :=
  handle (change_connection "tool_1" "Gear B" choice_new) session2.
Definition session : Data float := handle (click_add selector) session3.

Lemma session_reachable : reachable session.
Proof.
  unfold session, session3, session2, session1.
  repeat apply reachable_handle; try apply reachable_reset; try done.
  simpl. by left.
Qed.

Lemma editor_tool_ids_witness :
  ∃ g, gearbox session = Some g ∧ unique_ids g.
Proof.
  destruct (editor_tool_ids session session_reachable) as (_ & _ & g & Hg & _ & Hu).
  by exists g.
Defined.

Lemma editor_axles_witness :
  NoDup (axle_id <$> axles session) ∧
  selectedAxleId session ∈ axle_id <$> axles session.
Proof.
  destruct (editor_axles session session_reachable) as (_ & Hnd & _ & _ & Hsel).
  by split.
Defined.

Lemma removeTool_spec_witness :
  tools (removeTool "tool_1" session) =
    filter (λ t, id t ≠ "tool_1") (tools session).
Proof.
  by destruct (removeTool_spec session "tool_1" session_reachable) as [Heq _].
Defined.



End EditorFacts.

(* ===================================================================== *)
(** ** The number of gear modes and the computation *)
(* ===================================================================== *)

Module GearModes.
Import Arith Gearbox Editor.

Section Modes.
Context {num : Type} `{!Number num}.
Implicit Types (d : Data num) (tool t : Tool num) (g : Gearbox num).

(** What [updateSelectorParams] does to one tool. *)
Definition filled (n : nat) tool : Tool num :=
  if decide (type tool = selector) then
    {| type := type tool; id := id tool; connections := connections tool;
       params :=
         {| teethA := teethA (params tool); teethB := teethB (params tool);
            invertDirection := invertDirection (params tool);
            modes := fillModes n (modes (params tool)) |} |}
  else tool.

Lemma fillModes_lookup n ms k :
  fillModes n ms !! k =
    if decide (1 ≤ k ≤ n) then
      match ms !! k with
      | Some s => if String.eqb s "" then Some "Locked" else Some s
      | None => Some "Locked"
      end
    else ms !! k.
Proof.
  unfold fillModes. revert k. induction n as [|n IH]; intros k.
  - simpl. rewrite decide_False by lia. done.
  - rewrite seq_S, foldl_app. simpl.
    set (ms' := foldl _ ms (seq 1 n)) in *.
    assert (ms' !! S n = ms !! S n) as Hsame
      by (rewrite IH; by rewrite decide_False by lia).
    destruct (decide (k = S n)) as [->|Hne].
    + rewrite decide_True by lia. rewrite Hsame.
      destruct (ms !! S n) as [s|] eqn:Hs.
      * destruct (String.eqb s ""); [by rewrite lookup_insert_eq|].
        by rewrite Hsame.
      * by rewrite lookup_insert_eq.
    + assert (∀ ms'' : gmap nat string,
                (ms'' = ms' ∨ ms'' = <[S n := "Locked"]> ms') →
                ms'' !! k = ms' !! k) as Hk.
      { intros ms'' [->| ->]; [done|]. by rewrite lookup_insert_ne. }
      trans (ms' !! k).
      * apply Hk. destruct (ms' !! S n) as [s|]; [|by right].
        destruct (String.eqb s ""); [by right|by left].
      * rewrite IH. destruct (decide (1 ≤ k ≤ n)).
        -- by rewrite decide_True by lia.
        -- by rewrite decide_False by lia.
Qed.

Lemma selection_filled n t gm : selection (filled n t) gm = selection t gm.
Proof.
  unfold filled. case_decide; [|done]. unfold selection. simpl.
  rewrite fillModes_lookup. case_decide; [|done].
  destruct (modes (params t) !! gm) as [s|]; [|done].
  by destruct (String.eqb s "") eqn:Hs; [|rewrite Hs].
Qed.

Lemma filled_id n t : id (filled n t) = id t.
Proof. unfold filled. by case_decide. Qed.

Lemma filled_type n t : type (filled n t) = type t.
Proof. unfold filled. by case_decide. Qed.

Lemma filled_connections n t : connections (filled n t) = connections t.
Proof. unfold filled. by case_decide. Qed.

Lemma evaluateTool_filled n t gm av :
  evaluateTool (filled n t) gm av = evaluateTool t gm av.
Proof.
  unfold evaluateTool. rewrite filled_type.
  destruct (type t) eqn:Hty; [done| | |]; unfold filled;
    rewrite ?decide_False by congruence; [done| |done].
  rewrite decide_True by done.
  pose proof (selection_filled n t gm) as Hsel. unfold filled in Hsel.
  rewrite decide_True in Hsel by done.
  unfold evaluateSelector. rewrite Hsel. done.
Qed.

Lemma getToolLabel_filled n s s' l i :
  getToolLabel {| sourceTool := s'; Gearbox.tools := filled n <$> l |} i
  = getToolLabel {| sourceTool := s; Gearbox.tools := l |} i.
Proof.
  unfold getToolLabel. simpl. destruct (String.eqb i "source"); [done|].
  induction l as [|t l IH]; simpl; [done|].
  rewrite filled_id. destruct (String.eqb (id t) i); [|done].
  by rewrite filled_type.
Qed.

Lemma toolStep_filled n s s' l gm st t :
  toolStep {| sourceTool := s'; Gearbox.tools := filled n <$> l |} gm st
    (filled n t)
  = toolStep {| sourceTool := s; Gearbox.tools := l |} gm st t.
Proof.
  unfold toolStep. rewrite filled_type, evaluateTool_filled, filled_id.
  case_decide; [done|].
  assert (handleOutputs1 (filled n t) = handleOutputs1 t) as ->.
  { unfold handleOutputs1. by rewrite filled_id. }
  assert (∀ o st0,
    handleOutput {| sourceTool := s'; Gearbox.tools := filled n <$> l |}
      (filled n t) o st0
    = handleOutput {| sourceTool := s; Gearbox.tools := l |} t o st0) as Hh.
  { intros o st0. unfold handleOutput. rewrite filled_id.
    destruct (axleValues st0 !! o_axleId o); [|done].
    case_bool_decide; [|done]. by rewrite (getToolLabel_filled n s s'). }
  destruct (r_output _) as [o|]; [|done].
  destruct (or_null _); [done|]. by rewrite Hh.
Qed.

Lemma sweep_filled n s s' l gm st :
  sweep {| sourceTool := s'; Gearbox.tools := filled n <$> l |} gm st
  = sweep {| sourceTool := s; Gearbox.tools := l |} gm st.
Proof.
  unfold sweep. simpl.
  generalize ({| axleValues := axleValues st; status := status st;
                 changed := false; iterations := S (iterations st) |}).
  assert (∀ l0 st0,
    foldl (toolStep {| sourceTool := s'; Gearbox.tools := filled n <$> l |} gm)
      st0 (filled n <$> l0)
    = foldl (toolStep {| sourceTool := s; Gearbox.tools := l |} gm) st0 l0)
    as Hfold; [|by intros; apply Hfold].
  induction l0 as [|t l0 IH]; intros st0; simpl; [done|].
  by rewrite (toolStep_filled n s s'), IH.
Qed.

Lemma computeGearMode_filled n s l gm :
  computeGearMode
    {| sourceTool := filled n s; Gearbox.tools := filled n <$> l |} gm
  = computeGearMode {| sourceTool := s; Gearbox.tools := l |} gm.
Proof.
  unfold computeGearMode.
  assert (initialState
            {| sourceTool := filled n s; Gearbox.tools := filled n <$> l |}
          = initialState {| sourceTool := s; Gearbox.tools := l |}) as ->.
  { unfold initialState. simpl. by rewrite filled_connections, filled_id. }
  generalize (initialState {| sourceTool := s; Gearbox.tools := l |}).
  induction maxIterations as [|b IH]; intros st; simpl; [done|].
  destruct (changed st); [|done]. by rewrite (sweep_filled n s), IH.
Qed.

(** X13. Changing the number of gear modes changes no result: the
    'Locked' that [updateSelectorParams] stores for the modes of a selector
    that have no choice yet is what the computation assumes for them anyway,
    so every gear mode computes the same axle values and statuses before
    and after the change. *)
Theorem onNumGearModesChange_results val d g :
  gearbox d = Some g →
  ∃ g', gearbox (onNumGearModesChange val d) = Some g' ∧
    ∀ gearModeNum,
      computeGearMode g' gearModeNum = computeGearMode g gearModeNum.
Proof.
  intros Hg. unfold onNumGearModesChange.
  destruct (js_ge val (Some 1%Z) && js_ge (Some 9%Z) val); [|by exists g].
  unfold gearbox in *. simpl.
  destruct (tools d) as [|s l]; [done|]. simpl in *. injection Hg as <-.
  eexists. split; [done|]. intros gm.
  apply (computeGearMode_filled _ s (s :: l) gm).
Qed.

End Modes.

Lemma onNumGearModesChange_results_witness :
  ∃ g g', gearbox EditorFacts.session = Some g ∧
    gearbox (onNumGearModesChange (Some 5%Z) EditorFacts.session) = Some g' ∧
    (modes ∘ params <$> Gearbox.tools g' !! 2%nat) = Some {[ 1%nat := "Locked"; 2%nat := "Locked"; 3%nat := "Locked"; 4%nat := "Locked"; 5%nat := "Locked" ]} ∧
    computeGearMode g' 5 = computeGearMode g 5.
Proof.
  destruct (gearbox EditorFacts.session) as [g|] eqn:Hg;
    [|vm_compute in Hg; discriminate].
  destruct (onNumGearModesChange_results (Some 5%Z) EditorFacts.session g Hg)
    as (g' & Hg' & Heq).
  exists g, g'. split; [done|]. split; [done|]. split; [|apply Heq].
  vm_compute in Hg'. injection Hg' as <-. reflexivity.
Defined.

End GearModes.

(* ===================================================================== *)
(** ** The gear-coupling table: what is listed *)
(* ===================================================================== *)

Module CouplingTable.
Import Gears GearCouplings.
Local Open Scope float_scope.

(** The pairs the two loops keep: every selected gear as Gear A with every
    selected gear that is not a worm gear as Gear B, in the order of the
    loops. *)
Definition pairsOf (selectedTeeth : list Gear) : list (Gear * float) :=
  a ← selectedTeeth;
  b ← selectedTeeth;
  match b with
  | teeth n => [(a, n)]
  | _ => []
  end.

(** The row of a pair. *)
Definition rowOf (fuel : nat) (maxOverfit maxUnderfit : float)
    (p : Gear * float) (r : Coupling) : Prop :=
  gearA r = p.1 ∧ gearB r = p.2 ∧
  dist r = calculateCenterDistance p.1 p.2 ∧
  ratio r = calculateGearRatio p.1 p.2 ∧
  findMountingPositions fuel (dist r) maxOverfit maxUnderfit = Some (positions r).

Lemma insertCoupling_perm row sorted : insertCoupling row sorted ≡ₚ row :: sorted.
Proof.
  induction sorted as [|r rest IH]; simpl; [done|].
  destruct (compareCouplings row r <? 0); [done|].
  rewrite IH. apply Permutation_swap.
Qed.

Lemma sortCouplings_perm rows : sortCouplings rows ≡ₚ rows.
Proof.
  unfold sortCouplings.
  assert (∀ acc, foldl (λ sorted row, insertCoupling row sorted) acc rows
                   ≡ₚ rows ++ acc) as Hgen.
  { induction rows as [|r rows IH]; intros acc; simpl; [done|].
    rewrite IH, insertCoupling_perm. by rewrite Permutation_middle. }
  rewrite Hgen. by rewrite app_nil_r.
Qed.

Section Loops.
Variables (fuel : nat) (maxOverfit maxUnderfit : float).

Let inner (gearA : Gear) :=
  foldl (λ results gearB,
    rs ← results;
    row ← couplingRow fuel maxOverfit maxUnderfit gearA gearB;
    Some (rs ++ row)).

Let innerPairs (a : Gear) (l : list Gear) : list (Gear * float) :=
  b ← l; match b with teeth n => [(a, n)] | _ => [] end.

Lemma inner_None gearA l : inner gearA None l = None.
Proof. induction l as [|b l IH]; [done|]. simpl. apply IH. Qed.

Lemma inner_spec gearA l acc :
  match inner gearA (Some acc) l with
  | Some res =>
      ∃ rows, res = acc ++ rows ∧
        Forall2 (rowOf fuel maxOverfit maxUnderfit) (innerPairs gearA l) rows
  | None =>
      ∃ n, teeth n ∈ l ∧
        findMountingPositions fuel (calculateCenterDistance gearA n)
          maxOverfit maxUnderfit = None
  end.
Proof.
  revert acc. induction l as [|b l IH]; intros acc; simpl.
  - exists []. split; [by rewrite app_nil_r|constructor].
  - unfold couplingRow. destruct b as [| |n]; simpl.
    + rewrite app_nil_r. specialize (IH acc).
      destruct (inner gearA (Some acc) l) as [res|].
      * done.
      * destruct IH as (n & Hn & Hf). exists n. split; [by right|done].
    + rewrite app_nil_r. specialize (IH acc).
      destruct (inner gearA (Some acc) l) as [res|].
      * done.
      * destruct IH as (n & Hn & Hf). exists n. split; [by right|done].
    + destruct (findMountingPositions fuel (calculateCenterDistance gearA n)
                  maxOverfit maxUnderfit) as [ps|] eqn:Hps; simpl.
      * specialize (IH (acc ++ [{| gearA := gearA; gearB := n;
                                    ratio := calculateGearRatio gearA n;
                                    dist := calculateCenterDistance gearA n;
                                    positions := ps |}])).
        destruct (inner gearA _ l) as [res|].
        -- destruct IH as (rows & -> & Hrows). eexists (_ :: rows).
           split; [by rewrite <- app_assoc|].
           constructor; [|done]. by split_and!.
        -- destruct IH as (n' & Hn' & Hf). exists n'. split; [by right|done].
      * rewrite inner_None. exists n. split; [by left|done].
Qed.

Lemma outer_None l l' :
  foldl (λ results gearA, inner gearA results l') None l = None.
Proof.
  induction l as [|a l IH]; [done|]. simpl. by rewrite inner_None.
Qed.

Lemma outer_spec l l' acc :
  match foldl (λ results gearA, inner gearA results l') (Some acc) l with
  | Some res =>
      ∃ rows, res = acc ++ rows ∧
        Forall2 (rowOf fuel maxOverfit maxUnderfit)
          (a ← l; innerPairs a l') rows
  | None =>
      ∃ a n, a ∈ l ∧ teeth n ∈ l' ∧
        findMountingPositions fuel (calculateCenterDistance a n)
          maxOverfit maxUnderfit = None
  end.
Proof.
  revert acc. induction l as [|a l IH]; intros acc; simpl.
  - exists []. split; [by rewrite app_nil_r|constructor].
  - pose proof (inner_spec a l' acc) as Hin.
    destruct (inner a (Some acc) l') as [res|].
    + destruct Hin as (rows & -> & Hrows). specialize (IH (acc ++ rows)).
      destruct (foldl _ (Some (acc ++ rows)) l) as [res'|].
      * destruct IH as (rows' & -> & Hrows'). exists (rows ++ rows').
        split; [by rewrite <- app_assoc|]. by apply Forall2_app.
      * destruct IH as (a' & n & Ha' & Hn & Hf). exists a', n.
        split_and!; [by right|done|done].
    + rewrite outer_None. destruct Hin as (n & Hn & Hf). exists a, n.
      split_and!; [by left|done|done].
Qed.

End Loops.

(** X14. The table of [calculateGearCouplings] lists every selected gear as
    Gear A with every selected gear that is not a worm gear as Gear B, once
    for each such pair and nothing else: the rows are a permutation of the
    rows of these pairs, each with the center distance, the ratio and the
    mounting positions of its pair. The table is computed whenever the
    enumerations of all the pairs return. *)
Theorem calculateGearCouplings_rows fuel selectedTeeth maxOverfit maxUnderfit :
  match calculateGearCouplings fuel selectedTeeth maxOverfit maxUnderfit with
  | Some rows =>
      ∃ unsorted,
        Forall2 (rowOf fuel maxOverfit maxUnderfit) (pairsOf selectedTeeth)
          unsorted ∧
        rows ≡ₚ unsorted
  | None =>
      ∃ a n, a ∈ selectedTeeth ∧ teeth n ∈ selectedTeeth ∧
        findMountingPositions fuel (calculateCenterDistance a n)
          maxOverfit maxUnderfit = None
  end.
Proof.
  unfold calculateGearCouplings.
  pose proof (outer_spec fuel maxOverfit maxUnderfit selectedTeeth selectedTeeth [])
    as Hout.
  simpl in Hout.
  destruct (foldl _ (Some []) selectedTeeth) as [res|]; simpl.
  - destruct Hout as (rows & -> & Hrows). exists rows. split; [done|].
    apply sortCouplings_perm.
  - done.
Qed.

(** *** The gears selected *)

Lemma STANDARD_TEETH_NoDup : NoDup STANDARD_TEETH.
Proof.
  unfold STANDARD_TEETH.
  repeat (apply NoDup_cons; split;
          [rewrite ?not_elem_of_cons; split_and?;
           first [by apply not_elem_of_nil | discriminate]|]).
  apply NoDup_nil_2.
Qed.

Lemma eqb_refl_not_nan (n : float) : is_nan n = false → (n =? n) = true.
Proof. unfold is_nan. intros Hn. by apply negb_false_iff in Hn. Qed.

Lemma includes_false selected n :
  is_nan n = false → includes selected n = false → teeth n ∉ selected.
Proof.
  intros Hnan Hinc Hin. unfold includes in Hinc.
  assert (existsb (λ g, match g with
                         | teeth m => (m =? n) || (is_nan m && is_nan n)
                         | _ => false
                         end) selected = true) as Htrue; [|congruence].
  apply existsb_exists. exists (teeth n). split; [by apply list_elem_of_In|].
  by rewrite eqb_refl_not_nan.
Qed.

Lemma includes_true selected n :
  is_nan n = false → includes selected n = true →
  ∃ m, teeth m ∈ selected ∧ (m =? n) = true.
Proof.
  intros Hnan Hinc. unfold includes in Hinc.
  apply existsb_exists in Hinc as (g & Hg%list_elem_of_In & Heq).
  destruct g as [| |m]; [done..|]. exists m. split; [done|].
  rewrite Hnan, andb_false_r, orb_false_r in Heq. done.
Qed.

(** X15. The gears that [getSelectedTeeth] returns are the checked standard
    gears, in the order of the page, followed by custom numbers of teeth:
    each of these is a number above 0 that the custom input holds; no gear
    is listed twice; and every number above 0 of the custom input is listed,
    as itself or as an equal number listed before. *)
Theorem getSelectedTeeth_spec (checked : Gear → bool) (customValues : list float) :
  let selected := getSelectedTeeth checked customValues in
  NoDup selected ∧
  (∃ custom,
     selected = List.filter checked STANDARD_TEETH ++ (teeth <$> custom) ∧
     Forall (λ n, is_nan n = false ∧ (0 <? n) = true ∧ n ∈ customValues) custom) ∧
  (∀ n, n ∈ customValues → is_nan n = false → (0 <? n) = true →
     ∃ m, teeth m ∈ selected ∧ (m =? n) = true).
Proof.
  unfold getSelectedTeeth. cbv zeta.
  set (step := λ (selected : list Gear) (num : float),
         if negb (is_nan num) && (0 <? num) && negb (includes selected num)
         then selected ++ [teeth num] else selected).
  assert (∀ values acc,
    NoDup acc →
    NoDup (foldl step acc values) ∧
    (∃ custom, foldl step acc values = acc ++ (teeth <$> custom) ∧
       Forall (λ n, is_nan n = false ∧ (0 <? n) = true ∧ n ∈ values) custom) ∧
    (∀ n, n ∈ values → is_nan n = false → (0 <? n) = true →
       ∃ m, teeth m ∈ foldl step acc values ∧ (m =? n) = true)) as Hgen.
  { induction values as [|v values IH]; intros acc Hnd; simpl.
    - split_and!; [done| |intros n Hn; by apply elem_of_nil in Hn].
      exists []. split; [by rewrite app_nil_r|constructor].
    - assert (NoDup (step acc v)) as Hnd'.
      { unfold step. destruct (is_nan v) eqn:Hnan; simpl; [done|].
        destruct (0 <? v); simpl; [|done].
        destruct (includes acc v) eqn:Hinc; simpl; [done|].
        apply NoDup_app. split_and!; [done| |apply NoDup_singleton].
        intros g Hg ->%list_elem_of_singleton.
        by apply (includes_false acc v). }
      destruct (IH (step acc v) Hnd') as (Hnd'' & (custom & Heq & Hall) & Hrep).
      split_and!; [done| |].
      + assert (step acc v = acc ∨
                (step acc v = acc ++ [teeth v] ∧ is_nan v = false ∧
                 (0 <? v) = true)) as [Hs|(Hs & Hnan & Hpos)].
        { unfold step. destruct (is_nan v); simpl; [by left|].
          destruct (0 <? v); simpl; [|by left].
          destruct (includes acc v); simpl; [by left|by right]. }
        * exists custom. split; [by rewrite Heq, Hs|].
          eapply Forall_impl; [exact Hall|]. intros n (? & ? & ?).
          split_and!; [done..|by right].
        * exists (v :: custom). split; [by rewrite Heq, Hs, <- app_assoc|].
          constructor; [split_and!; [done..|by left]|].
          eapply Forall_impl; [exact Hall|]. intros n (? & ? & ?).
          split_and!; [done..|by right].
      + intros n [->|Hn]%elem_of_cons Hnan Hpos; [|by apply Hrep].
        assert (∃ m, teeth m ∈ step acc v ∧ (m =? v) = true) as (m & Hm & Hmv).
        { unfold step. rewrite Hnan, Hpos. simpl.
          destruct (includes acc v) eqn:Hinc; simpl.
          - by apply includes_true.
          - exists v. split; [apply elem_of_app; right; by left|].
            by apply eqb_refl_not_nan. }
        exists m. split; [|done]. rewrite Heq. apply elem_of_app. by left. }
  apply Hgen. apply NoDup_ListNoDup, List.NoDup_filter, NoDup_ListNoDup.
  apply STANDARD_TEETH_NoDup.
Qed.

End CouplingTable.

(* ===================================================================== *)
(** ** The order of the liftarm table *)
(* ===================================================================== *)

Module SortedRows.
Import Arith Liftarms RemoveLarger.

Section Exact.
(** In exact arithmetic. *)
Variable Others : Type.
Local Abbreviation Row := (Row (num := Qc) Others).
Implicit Types (row r a b : Row) (candidates rows sorted : list Row).
Local Open Scope Qc_scope.

(** "Sx, Sy, aLen, bLen": [a] comes strictly before [b]. *)
Definition precedes a b : Prop :=
  sx a < sx b ∨
  (sx a = sx b ∧
   (sy a < sy b ∨
    (sy a = sy b ∧
     (aLen a < aLen b ∨ (aLen a = aLen b ∧ bLen a < bLen b))))).

#[local] Instance Qc_lexico : Lexico Qc := Qclt.

#[local] Instance Qc_lexico_po : StrictOrder (@lexico Qc _).
Proof. unfold lexico, Qc_lexico. apply _. Qed.

#[local] Instance Qc_lexico_trichotomy : TrichotomyT (@lexico Qc _).
Proof.
  intros x y. unfold lexico, Qc_lexico.
  destruct (Qc_dec x y) as [[?|?]|?]; [left; by left|by right|left; by right].
Defined.

Definition rowKey r : Qc * (Qc * (Qc * Qc)) := (sx r, (sy r, (aLen r, bLen r))).

Lemma precedes_lexico a b : precedes a b ↔ lexico (rowKey a) (rowKey b).
Proof. reflexivity. Qed.

Lemma sub_neg (x y : Qc) : nltb (nsub x y) (of_Z 0) = true ↔ x < y.
Proof.
  simpl. rewrite QcOrder.ltb_lt. change (Q2Qc (inject_Z 0)) with 0.
  rewrite (Qcplus_lt_mono_r (x - y) 0 y).
  replace (x - y + y) with x by ring. by rewrite Qcplus_0_l.
Qed.

Lemma neqb_eq (x y : Qc) : neqb x y = true ↔ x = y.
Proof.
  simpl. unfold Qc_eq_bool. destruct (Qcanon.Qc_eq_dec x y); split; congruence.
Qed.

(** The comparator is negative exactly when its first argument comes
    strictly before the second. *)
Lemma compareRows_neg a b :
  nltb (compareRows a b) (of_Z 0) = true ↔ precedes a b.
Proof.
  unfold compareRows, precedes.
  assert (∀ x : Qc, ¬ x < x) as Hirr by (intros x; apply (irreflexivity Qclt)).
  destruct (neqb (sx a) (sx b)) eqn:Hx; cbn [negb].
  2:{ rewrite sub_neg. assert (sx a ≠ sx b) as Hne.
      { intros Heq. apply neqb_eq in Heq. congruence. }
      tauto. }
  apply neqb_eq in Hx. rewrite Hx.
  destruct (neqb (sy a) (sy b)) eqn:Hy; cbn [negb].
  2:{ rewrite sub_neg. assert (sy a ≠ sy b) as Hne.
      { intros Heq. apply neqb_eq in Heq. congruence. }
      specialize (Hirr (sx b)). tauto. }
  apply neqb_eq in Hy. rewrite Hy.
  destruct (neqb (aLen a) (aLen b)) eqn:Ha; cbn [negb].
  2:{ rewrite sub_neg. assert (aLen a ≠ aLen b) as Hne.
      { intros Heq. apply neqb_eq in Heq. congruence. }
      pose proof (Hirr (sx b)). pose proof (Hirr (sy b)). tauto. }
  apply neqb_eq in Ha. rewrite Ha. rewrite sub_neg.
  pose proof (Hirr (sx b)). pose proof (Hirr (sy b)).
  pose proof (Hirr (aLen b)). tauto.
Qed.

(** No row comes strictly before a row listed before it. *)
Definition inOrder rows : Prop := StronglySorted (λ a b, ¬ precedes b a) rows.

Lemma insertRow_inOrder row sorted :
  inOrder sorted → inOrder (insertRow row sorted).
Proof.
  unfold inOrder. induction sorted as [|r rest IH]; intros Hs; cbn [insertRow].
  - repeat constructor.
  - apply StronglySorted_cons in Hs as [Hall Hs].
    destruct (nltb (compareRows row r) (of_Z 0)) eqn:Hcmp.
    + apply compareRows_neg in Hcmp.
      apply StronglySorted_cons. split; [|by apply StronglySorted_cons].
      constructor.
      * intros Hrr. apply precedes_lexico in Hcmp, Hrr.
        apply (irreflexivity lexico (rowKey row)).
        trans (rowKey r); [exact Hcmp|exact Hrr].
      * rewrite Forall_forall in *. intros x Hx Hxr.
        apply (Hall x Hx). apply precedes_lexico in Hcmp, Hxr.
        change (lexico (rowKey x) (rowKey r)).
        trans (rowKey row); [exact Hxr|exact Hcmp].
    + apply StronglySorted_cons. split; [|by apply IH].
      rewrite insertRow_perm. constructor; [|done].
      intros Hp. apply compareRows_neg in Hp. congruence.
Qed.

Lemma sortRows_inOrder rows : inOrder (sortRows rows).
Proof.
  unfold sortRows.
  assert (∀ acc, inOrder acc →
            inOrder (foldl (λ sorted row, insertRow row sorted) acc rows))
    as Hgen.
  { induction rows as [|r rows IH]; intros acc Hacc; simpl; [done|].
    by apply IH, insertRow_inOrder. }
  apply Hgen. constructor.
Qed.

Lemma offer_false (st : list Row * gmap string Qc) candidates :
  (foldl (offer false) st candidates).1 = st.1 ++ candidates.
Proof.
  revert st. induction candidates as [|r rows IH]; intros [results m]; simpl.
  - by rewrite app_nil_r.
  - rewrite IH. simpl. by rewrite <- app_assoc.
Qed.

Lemma offer_sublist removeLarger (st : list Row * gmap string Qc) candidates :
  ∀ r, r ∈ (foldl (offer removeLarger) st candidates).1 →
       r ∈ st.1 ∨ r ∈ candidates.
Proof.
  revert st. induction candidates as [|r' rows IH]; intros st r; simpl.
  - by left.
  - intros [Hin|Hin]%IH; [|right; by right].
    destruct st as [results m]. unfold offer in Hin.
    destruct removeLarger.
    + destruct (m !! keyRemoveLarger r') as [v|].
      * destruct (ngeb _ _); simpl in Hin; [by left|].
        apply elem_of_app in Hin as [? | ->%list_elem_of_singleton];
          [by left|right; by left].
      * simpl in Hin.
        apply elem_of_app in Hin as [? | ->%list_elem_of_singleton];
          [by left|right; by left].
    + simpl in Hin.
      apply elem_of_app in Hin as [? | ->%list_elem_of_singleton];
        [by left|right; by left].
Qed.

(** X16. The table that [calculatePositions] returns is in the order "Sx,
    Sy, aLen, bLen" (in exact arithmetic): no row comes strictly before a
    row listed before it. Every row of the table is one of the candidate
    rows, and without "remove larger" the table is a permutation of the
    candidates: the sort loses and repeats nothing. *)
Theorem calculatePositions_sorted removeLarger candidates :
  inOrder (calculatePositions removeLarger candidates) ∧
  (∀ r, r ∈ calculatePositions removeLarger candidates → r ∈ candidates) ∧
  calculatePositions false candidates ≡ₚ candidates.
Proof.
  unfold calculatePositions. split_and!.
  - destruct (foldl _ _ candidates) as [results m]. apply sortRows_inOrder.
  - intros r.
    pose proof (offer_sublist removeLarger ([], ∅) candidates r) as Hsub.
    destruct (foldl _ _ candidates) as [results m]. simpl in Hsub.
    rewrite sortRows_perm. intros Hr.
    destruct Hsub as [Hnil|?]; [|by apply elem_of_nil in Hnil|done].
    destruct removeLarger; [|done]. unfold spliceLarger in Hr.
    apply list_elem_of_In, filter_In in Hr as [Hr _]. by apply list_elem_of_In.
  - pose proof (offer_false ([], ∅) candidates) as Hall.
    destruct (foldl _ _ candidates) as [results m]. simpl in Hall.
    by rewrite sortRows_perm, Hall.
Qed.

End Exact.

End SortedRows.

(* ===================================================================== *)
(** ** The inputs of the liftarm calculator are in range *)
(* ===================================================================== *)

Module LiftarmInputsFacts.
Import Arith LiftarmInputs QcOrder.
Local Open Scope Qc_scope.

(** [Math.max(lo, Math.min(hi, v))] is [v] brought into the range. *)
Lemma clamp_range (lo hi v : Qc) :
  lo <= hi →
  lo <= Math_max lo (Math_min hi v) <= hi ∧
  (lo <= v <= hi → Math_max lo (Math_min hi v) = v) ∧
  (Math_max lo (Math_min hi v) = lo ∨ Math_max lo (Math_min hi v) = hi ∨
   Math_max lo (Math_min hi v) = v).
Proof.
  intros Hlh. unfold Math_max, Math_min.
  destruct (Qc_leb hi v) eqn:H1.
  - apply leb_le in H1. destruct (Qc_leb lo hi) eqn:H2.
    + split_and!; [done|apply Qcle_refl| |by right; left].
      intros [_ Hv]. by apply Qcle_antisym.
    + apply leb_gt in H2. by apply Qclt_not_le in H2.
  - apply leb_gt in H1. destruct (Qc_leb lo v) eqn:H2.
    + apply leb_le in H2. split_and!; [done|by apply Qclt_le_weak|done|].
      by right; right.
    + apply leb_gt in H2. split_and!; [apply Qcle_refl|done| |by left].
      intros [Hv _]. by apply Qclt_not_le in H2.
Qed.

(** A multiple of the step. *)
Definition onStep (step v : Qc) : Prop := ∃ k : Z, v = Q2Qc (inject_Z k) * step.

Lemma step_nonzero halfStuds : stepOf halfStuds ≠ 0.
Proof.
  destruct halfStuds; intros H; apply (f_equal this) in H; vm_compute in H;
    discriminate.
Qed.

Lemma onStep_1 halfStuds : onStep (stepOf halfStuds) 1.
Proof.
  destruct halfStuds; [exists 2%Z|exists 1%Z]; apply Qc_is_canon; reflexivity.
Qed.

Lemma onStep_0 halfStuds : onStep (stepOf halfStuds) 0.
Proof. exists 0%Z. apply Qc_is_canon. reflexivity. Qed.

Lemma onStep_15 halfStuds : onStep (stepOf halfStuds) (Q2Qc 15).
Proof.
  destruct halfStuds; [exists 30%Z|exists 15%Z]; apply Qc_is_canon; reflexivity.
Qed.

Lemma floor_integer (k : Z) :
  Math_floor (Q2Qc (inject_Z k)) = Q2Qc (inject_Z k).
Proof.
  unfold Math_floor. do 2 f_equal. simpl.
  rewrite (Qfloor_comp _ (inject_Z k)) by apply Qred_correct.
  apply Qfloor_Z.
Qed.

Lemma ceil_integer (k : Z) :
  Math_ceil (Q2Qc (inject_Z k)) = Q2Qc (inject_Z k).
Proof.
  unfold Math_ceil. do 2 f_equal. simpl.
  rewrite (Qceiling_comp _ (inject_Z k)) by apply Qred_correct.
  apply Qceiling_Z.
Qed.

Lemma snapDown_onStep step v :
  step ≠ 0 → onStep step v → Math_floor (v / step) * step = v.
Proof.
  intros Hs [k ->].
  replace (Q2Qc (inject_Z k) * step / step) with (Q2Qc (inject_Z k))
    by (field; done).
  by rewrite floor_integer.
Qed.

Lemma snapUp_onStep step v :
  step ≠ 0 → onStep step v → Math_ceil (v / step) * step = v.
Proof.
  intros Hs [k ->].
  replace (Q2Qc (inject_Z k) * step / step) with (Q2Qc (inject_Z k))
    by (field; done).
  by rewrite ceil_integer.
Qed.

Lemma clamp_onStep step lo hi v :
  lo <= hi → onStep step lo → onStep step hi → onStep step v →
  onStep step (Math_max lo (Math_min hi v)).
Proof.
  intros Hlh Hlo Hhi Hv.
  by destruct (clamp_range lo hi v Hlh) as (_ & _ & [-> | [-> | ->]]).
Qed.

Lemma le_0_15 : 0 <= Q2Qc 15.
Proof. by apply leb_le. Qed.
Lemma le_1_15 : 1 <= Q2Qc 15.
Proof. by apply leb_le. Qed.
Lemma le_0_1 : (0 : Qc) <= 1.
Proof. by apply leb_le. Qed.

(** Making the minimum not greater than the maximum. *)
Lemma order_range (lo hi mn mx : Qc) :
  lo <= mn <= hi → lo <= mx <= hi →
  let mn' := if Qc_ltb mx mn then mx else mn in
  lo <= mn' ∧ mn' <= mx ∧ (mn <= mx → mn' = mn) ∧ (mn' = mn ∨ mn' = mx).
Proof.
  intros [H1 H2] [H3 H4]. simpl. destruct (Qc_ltb mx mn) eqn:Hlt.
  - apply ltb_lt in Hlt. split_and!; [done|apply Qcle_refl| |by right].
    intros Hle. by apply Qclt_not_le in Hlt.
  - apply ltb_ge in Hlt. split_and!; [done|done|done|by left].
Qed.

(** X17. Whatever the six inputs hold (in exact arithmetic), the numbers
    passed to [calculatePositions] are in range and in order: 1 <= minA <=
    maxA <= 15, 0 <= minB <= maxB <= 15, 0 <= minDecimal <= maxDecimal <= 1;
    the four lengths are multiples of the step (0.5 with half studs, else
    1); and the numbers so computed are left as they are when they are read
    again. *)
Theorem calcButton_click_range halfStuds
    rawMinA rawMinB rawMaxA rawMaxB rawMinDecimal rawMaxDecimal :
  let i := calcButton_click halfStuds rawMinA rawMinB rawMaxA rawMaxB
             rawMinDecimal rawMaxDecimal in
  let step := stepOf halfStuds in
  (1 <= finalMinA i ∧ finalMinA i <= finalMaxA i ∧ finalMaxA i <= Q2Qc 15) ∧
  (0 <= finalMinB i ∧ finalMinB i <= finalMaxB i ∧ finalMaxB i <= Q2Qc 15) ∧
  (0 <= finalMinDecimal i ∧ finalMinDecimal i <= finalMaxDecimal i ∧
   finalMaxDecimal i <= 1) ∧
  (onStep step (finalMinA i) ∧ onStep step (finalMaxA i) ∧
   onStep step (finalMinB i) ∧ onStep step (finalMaxB i)) ∧
  calcButton_click halfStuds (Some (finalMinA i)) (Some (finalMinB i))
    (Some (finalMaxA i)) (Some (finalMaxB i)) (Some (finalMinDecimal i))
    (Some (finalMaxDecimal i)) = i.
Proof.
  intros i step.
  pose proof (step_nonzero halfStuds) as Hstep. fold step in Hstep.
  set (snapDown v := Math_floor (v / step) * step).
  set (snapUp v := Math_ceil (v / step) * step).
  assert (∀ v, onStep step (snapDown v)) as HsD by (intros v; by eexists).
  assert (∀ v, onStep step (snapUp v)) as HsU by (intros v; by eexists).
  set (cMaxA := Math_max 1 (Math_min (Q2Qc 15) (snapDown (default (Q2Qc 4) rawMaxA)))).
  set (cMaxB := Math_max 0 (Math_min (Q2Qc 15) (snapDown (default (Q2Qc 4) rawMaxB)))).
  set (cMinA := Math_max 1 (Math_min (Q2Qc 15) (snapUp (default 1 rawMinA)))).
  set (cMinB := Math_max 0 (Math_min (Q2Qc 15) (snapUp (default 0 rawMinB)))).
  set (cMinD := Math_max 0 (Math_min 1 (default 0 rawMinDecimal))).
  set (cMaxD := Math_max 0 (Math_min 1 (default 1 rawMaxDecimal))).
  destruct (clamp_range 1 (Q2Qc 15) (snapDown (default (Q2Qc 4) rawMaxA)) le_1_15)
    as (RMaxA & _ & _).
  destruct (clamp_range 0 (Q2Qc 15) (snapDown (default (Q2Qc 4) rawMaxB)) le_0_15)
    as (RMaxB & _ & _).
  destruct (clamp_range 1 (Q2Qc 15) (snapUp (default 1 rawMinA)) le_1_15)
    as (RMinA & _ & _).
  destruct (clamp_range 0 (Q2Qc 15) (snapUp (default 0 rawMinB)) le_0_15)
    as (RMinB & _ & _).
  destruct (clamp_range 0 1 (default 0 rawMinDecimal) le_0_1) as (RMinD & _ & _).
  destruct (clamp_range 0 1 (default 1 rawMaxDecimal) le_0_1) as (RMaxD & _ & _).
  fold cMaxA in RMaxA. fold cMaxB in RMaxB. fold cMinA in RMinA.
  fold cMinB in RMinB. fold cMinD in RMinD. fold cMaxD in RMaxD.
  assert (onStep step cMaxA) as SMaxA
    by (apply clamp_onStep; [apply le_1_15|apply onStep_1|apply onStep_15|done]).
  assert (onStep step cMaxB) as SMaxB
    by (apply clamp_onStep; [apply le_0_15|apply onStep_0|apply onStep_15|done]).
  assert (onStep step cMinA) as SMinA
    by (apply clamp_onStep; [apply le_1_15|apply onStep_1|apply onStep_15|done]).
  assert (onStep step cMinB) as SMinB
    by (apply clamp_onStep; [apply le_0_15|apply onStep_0|apply onStep_15|done]).
  destruct (order_range 1 (Q2Qc 15) cMinA cMaxA RMinA RMaxA) as (A1 & A2 & _ & A4).
  destruct (order_range 0 (Q2Qc 15) cMinB cMaxB RMinB RMaxB) as (B1 & B2 & _ & B4).
  destruct (order_range 0 1 cMinD cMaxD RMinD RMaxD) as (D1 & D2 & _ & D4).
  cbv zeta in A1, A2, A4, B1, B2, B4, D1, D2, D4.
  set (fMinA := if Qc_ltb cMaxA cMinA then cMaxA else cMinA) in *.
  set (fMinB := if Qc_ltb cMaxB cMinB then cMaxB else cMinB) in *.
  set (fMinD := if Qc_ltb cMaxD cMinD then cMaxD else cMinD) in *.
  assert (onStep step fMinA) as SfA by (by destruct A4 as [-> | ->]).
  assert (onStep step fMinB) as SfB by (by destruct B4 as [-> | ->]).
  assert (i = {| finalMinA := fMinA; finalMaxA := cMaxA; finalMinB := fMinB;
                 finalMaxB := cMaxB; finalMinDecimal := fMinD;
                 finalMaxDecimal := cMaxD |}) as Hi by reflexivity.
  rewrite Hi. simpl. split_and!; try done; try apply RMaxA; try apply RMaxB;
    try apply RMaxD.
  unfold calcButton_click. cbv zeta.
  cbn [default finalMinA finalMaxA finalMinB finalMaxB finalMinDecimal
       finalMaxDecimal]. unfold id. fold step.
  rewrite !snapDown_onStep, !snapUp_onStep by done.
  assert (fMinA <= Q2Qc 15) as A3 by (etrans; [exact A2|apply RMaxA]).
  assert (fMinB <= Q2Qc 15) as B3 by (etrans; [exact B2|apply RMaxB]).
  assert (fMinD <= 1) as D3 by (etrans; [exact D2|apply RMaxD]).
  destruct (clamp_range 1 (Q2Qc 15) cMaxA le_1_15) as (_ & EMaxA & _).
  destruct (clamp_range 0 (Q2Qc 15) cMaxB le_0_15) as (_ & EMaxB & _).
  destruct (clamp_range 1 (Q2Qc 15) fMinA le_1_15) as (_ & EMinA & _).
  destruct (clamp_range 0 (Q2Qc 15) fMinB le_0_15) as (_ & EMinB & _).
  destruct (clamp_range 0 1 fMinD le_0_1) as (_ & EMinD & _).
  destruct (clamp_range 0 1 cMaxD le_0_1) as (_ & EMaxD & _).
  rewrite EMaxA, EMaxB, EMinA, EMinB, EMinD, EMaxD by done.
  destruct (order_range 1 (Q2Qc 15) fMinA cMaxA) as (_ & _ & OA & _); [done..|].
  destruct (order_range 0 (Q2Qc 15) fMinB cMaxB) as (_ & _ & OB & _); [done..|].
  destruct (order_range 0 1 fMinD cMaxD) as (_ & _ & OD & _); [done..|].
  cbv zeta in OA, OB, OD. rewrite OA, OB, OD by done.
  done.
Qed.

End LiftarmInputsFacts.

(* ===================================================================== *)
(** ** One row for each key *)
(* ===================================================================== *)

Module SeenFacts.
Import Arith LiftarmsSeen.

Section Facts.
Context {num : Type} `{!Number num} {Others : Type}.
Implicit Types (row r : Row (num := num) Others)
  (candidates l : list (string * Row (num := num) Others)).

Lemma insertRow_keeps row (sorted : list (Row (num := num) Others)) :
  insertRow row sorted ≡ₚ row :: sorted.
Proof.
  induction sorted as [|r rest IH]; simpl; [done|].
  destruct (nltb _ _); [done|]. rewrite IH. apply Permutation_swap.
Qed.

Lemma sortRows_keeps (rows : list (Row (num := num) Others)) :
  sortRows rows ≡ₚ rows.
Proof.
  unfold sortRows.
  assert (∀ acc, foldl (λ sorted row, insertRow row sorted) acc rows
                 ≡ₚ acc ++ rows) as H; [|apply (H [])].
  induction rows as [|row rows IH]; intros acc; simpl.
  - by rewrite app_nil_r.
  - rewrite IH, insertRow_keeps. simpl. apply Permutation_middle.
Qed.

(** The candidate at [i] is the first with its key. *)
Definition firstOfKey candidates (i : nat) : Prop :=
  ∀ j c c', j < i → candidates !! j = Some c → candidates !! i = Some c' →
            c.1 ≠ c'.1.

(** What the enumeration has recorded after the candidates [l]. *)
Record recorded l (st : list (Row (num := num) Others) * gset string) : Prop := {
  rec_seen : st.2 = list_to_set l.*1;
  rec_nodup : ∃ idx, NoDup idx ∧ st.1 = omap (λ i, snd <$> l !! i) idx ∧
      length idx = length st.1 ∧
      (∀ i, i ∈ idx ↔ i < length l ∧ firstOfKey l i) ∧
      size st.2 = length idx;
}.

Lemma firstOfKey_app_l l c i :
  i < length l → firstOfKey (l ++ [c]) i ↔ firstOfKey l i.
Proof.
  intros Hi. unfold firstOfKey. split; intros H j c1 c2 Hj H1 H2.
  - apply (H j); [done| |]; rewrite lookup_app_l; [done|lia|done|lia].
  - rewrite lookup_app_l in H1 by lia. rewrite lookup_app_l in H2 by lia.
    by apply (H j).
Qed.

Lemma firstOfKey_last l c :
  firstOfKey (l ++ [c]) (length l) ↔ c.1 ∉ l.*1.
Proof.
  unfold firstOfKey. split.
  - intros H Hin. apply list_elem_of_fmap in Hin as (c0 & Hk & Hin).
    apply list_elem_of_lookup in Hin as (j & Hj).
    pose proof (lookup_lt_Some _ _ _ Hj) as Hlt.
    apply (H j c0 c); [done| |by apply list_lookup_middle|by symmetry].
    by rewrite lookup_app_l.
  - intros Hnot j c1 c2 Hj H1 H2.
    rewrite lookup_app_l in H1 by lia.
    rewrite list_lookup_middle in H2 by done. injection H2 as <-.
    intros Heq. apply Hnot. rewrite <- Heq.
    apply list_elem_of_fmap. exists c1. split; [done|].
    by apply list_elem_of_lookup_2 in H1.
Qed.

Lemma offer_recorded l st c :
  recorded l st → recorded (l ++ [c]) (offer st c).
Proof.
  destruct st as [results seen], c as [key row].
  intros [Hseen (idx & Hnd & Hrows & Hlen & His & Hsize)]. simpl in *.
  assert (∀ i, i ∈ idx → i < length l) as Hlt by (intros i Hi; by apply His).
  assert (omap (λ i, snd <$> (l ++ [(key, row)]) !! i) idx
          = omap (λ i, snd <$> l !! i) idx) as Hsame.
  { apply list_omap_ext, Forall_Forall2_diag, Forall_forall. intros i Hi.
    rewrite lookup_app_l; [done|by apply Hlt]. }
  destruct (decide (key ∈ seen)) as [Hin|Hnot].
  - split; simpl.
    + rewrite fmap_app, list_to_set_app_L, <- Hseen. simpl. apply set_eq. intros k.
      rewrite !elem_of_union, elem_of_singleton, elem_of_empty.
      split; [tauto|]. by intros [?|[->|[]]].
    + exists idx. split_and!; try done.
      * by rewrite Hsame.
      * intros i. rewrite His. rewrite length_app. simpl. split.
        -- intros [Hi Hf]. split; [lia|]. by apply firstOfKey_app_l.
        -- intros [Hi Hf].
           destruct (decide (i = length l)) as [->|Hne].
           ++ apply firstOfKey_last in Hf. simpl in Hf.
              exfalso. apply Hf. rewrite Hseen in Hin.
              by apply elem_of_list_to_set in Hin.
           ++ split; [lia|]. apply firstOfKey_app_l in Hf; [done|lia].
  - assert (key ∉ l.*1) as Hnot'.
    { intros Hin. apply Hnot. rewrite Hseen. by apply elem_of_list_to_set. }
    split; simpl.
    + rewrite fmap_app, list_to_set_app_L, <- Hseen. simpl. apply set_eq. intros k.
      rewrite !elem_of_union, elem_of_singleton, elem_of_empty. tauto.
    + exists (idx ++ [length l]). split_and!.
      * apply NoDup_app. split_and!; [done| |apply NoDup_singleton].
        intros i Hi ->%list_elem_of_singleton. apply Hlt in Hi. lia.
      * rewrite omap_app. simpl. rewrite list_lookup_middle by done. simpl.
        by rewrite Hsame, Hrows.
      * rewrite !length_app. simpl. lia.
      * intros i. rewrite elem_of_app, list_elem_of_singleton, His, length_app.
        simpl. split.
        -- intros [[Hi Hf]| ->].
           ++ split; [lia|]. by apply firstOfKey_app_l.
           ++ split; [lia|]. by apply firstOfKey_last.
        -- intros [Hi Hf].
           destruct (decide (i = length l)) as [->|Hne]; [by right|].
           left. split; [lia|]. apply firstOfKey_app_l in Hf; [done|lia].
      * rewrite size_union by (by apply disjoint_singleton_l). rewrite size_singleton, length_app.
        simpl. lia.
Qed.

Lemma foldl_offer_recorded l : recorded l (foldl offer ([], ∅) l).
Proof.
  induction l as [|c l IH] using rev_ind.
  - split; simpl; [done|]. exists []. split_and!; try done.
    + apply NoDup_nil_2.
    + intros i. split; [by intros ?%elem_of_nil|]. simpl. lia.
  - rewrite foldl_app. simpl. by apply offer_recorded.
Qed.

(** X18. The enumerator that keeps the set [seen] records a candidate row
    exactly when no earlier candidate had the same key: the result holds
    the first row of each key and nothing else, one row for each key that
    occurs among the candidates. *)
Theorem calculatePositions_first_of_key candidates :
  (∀ row, row ∈ calculatePositions candidates ↔
      ∃ i key, candidates !! i = Some (key, row) ∧
        ∀ j key' row', j < i → candidates !! j = Some (key', row') →
                       key' ≠ key) ∧
  length (calculatePositions candidates)
  = size (list_to_set candidates.*1 : gset string).
Proof.
  unfold calculatePositions.
  pose proof (foldl_offer_recorded candidates) as Hrec.
  destruct (foldl offer ([], ∅) candidates) as [results seen].
  destruct Hrec as [Hseen (idx & Hnd & Hrows & Hlen & His & Hsize)].
  simpl in *. split.
  - intros row. rewrite sortRows_keeps, Hrows, list_elem_of_omap. split.
    + intros (i & Hi & Hrow). apply His in Hi as [Hi Hf].
      destruct (candidates !! i) as [[key row']|] eqn:Hc; [|done].
      simpl in Hrow. injection Hrow as ->.
      exists i, key. split; [done|]. intros j key' row' Hj Hj'.
      by apply (Hf j (key', row') (key, row)).
    + intros (i & key & Hc & Hf). exists i. rewrite Hc. split; [|done].
      apply His. split; [by apply lookup_lt_Some in Hc|].
      intros j [key' row'] c' Hj Hj' Hc'. rewrite Hc in Hc'.
      injection Hc' as <-. simpl. by apply (Hf j key' row').
  - rewrite sortRows_keeps, <- Hseen. lia.
Qed.

End Facts.
End SeenFacts.

(* ===================================================================== *)
(** ** The routines return the points where the circles meet *)
(* ===================================================================== *)

Module RealCircles.
Import Reals Lra RealGeometry.
Local Open Scope R_scope.



Section TwoCircles.
Variables (c0 c1 : Point).

Let dx := x c1 - x c0.
Let dy := y c1 - y c0.
Let d := sqrt (dx * dx + dy * dy).




Hypothesis d_nonzero : d ≠ 0.


Variables (r0 r1 : R).

Let a := (r0 * r0 - r1 * r1 + d * d) / (2 * d).
Let h2 := r0 * r0 - a * a.








End TwoCircles.







End RealCircles.

(* ===================================================================== *)
(** ** What the table shows *)
(* ===================================================================== *)

Module DataTableFacts.
Import Arith DataTable.

(** *** A stable sort *)

Lemma sorted_weaken {A} (R R' : A → A → Prop) (l : list A) :
  (∀ a b, R a b → R' a b) → StronglySorted R l → StronglySorted R' l.
Proof.
  intros HR. induction 1 as [|a l Hs IH Ha]; constructor; [done|].
  eapply Forall_impl; [exact Ha|]. apply HR.
Qed.

Section Sort.
Context {num : Type} `{!Number num}.
Implicit Types (row r a b : Row num) (rows sorted : list (Row num)).

Variable cmp : Row num → Row num → Z.

(** [a] must precede [b]; [a] need not follow [b]. *)
Definition before a b : Prop := (cmp a b < 0)%Z.
Definition notAfter a b : Prop := ¬ before b a.

Hypothesis before_notAfter : ∀ a b, before a b → notAfter a b.
Hypothesis notAfter_trans : ∀ a b c, notAfter a b → notAfter b c → notAfter a c.

Lemma before_trans_r a b c : before a b → notAfter b c → before a c.
Proof using notAfter_trans.
  intros Hab Hbc. destruct (decide (cmp a c < 0)%Z) as [|Hn]; [done|].
  exfalso. assert (notAfter c a) as Hca by exact Hn.
  by apply (notAfter_trans b c a Hbc Hca).
Qed.

Lemma insertBy_perm row sorted : insertBy cmp row sorted ≡ₚ row :: sorted.
Proof using Type.
  induction sorted as [|r rest IH]; simpl; [done|].
  destruct (cmp row r <? 0)%Z; [done|]. rewrite IH. apply Permutation_swap.
Qed.

Lemma sortBy_foldl_perm sorted rows :
  foldl (λ sorted row, insertBy cmp row sorted) sorted rows ≡ₚ sorted ++ rows.
Proof using Type.
  revert sorted. induction rows as [|row rows IH]; intros sorted; simpl.
  - by rewrite app_nil_r.
  - rewrite IH, insertBy_perm. simpl. apply Permutation_middle.
Qed.

Lemma sortBy_perm rows : sortBy cmp rows ≡ₚ rows.
Proof using Type. apply (sortBy_foldl_perm []). Qed.

Lemma filter_none (P : Row num → Prop) `{!∀ r, Decision (P r)} rows :
  Forall (λ r, ¬ P r) rows → filter P rows = [].
Proof using Type.
  induction 1 as [|r rows Hr _ IH]; [done|].
  by rewrite filter_cons_False.
Qed.

(** The order of a list sorted by [cmp] whose ties are in the order [R]. *)
Definition tiesBy (R : Row num → Row num → Prop) a b : Prop :=
  notAfter a b ∧ (notAfter b a → R a b).

Lemma insertBy_sorted R row sorted :
  StronglySorted (tiesBy R) sorted → Forall (λ r, R r row) sorted →
  StronglySorted (tiesBy R) (insertBy cmp row sorted).
Proof using before_notAfter notAfter_trans.
  induction sorted as [|r rest IH]; intros Hs HR; simpl.
  - by repeat constructor.
  - apply StronglySorted_inv in Hs as [Hrest Hr].
    apply Forall_cons in HR as [HRr HRrest].
    destruct (cmp row r <? 0)%Z eqn:Hlt.
    + apply Z.ltb_lt in Hlt. constructor; [by constructor|].
      assert (∀ c, notAfter r c → tiesBy R row c) as Hall.
      { intros c Hc. assert (before row c) as Hp
          by (by apply (before_trans_r row r c)).
        split; [by apply before_notAfter|]. by intros Hn. }
      constructor.
      * apply Hall. intros Hp. by apply (before_notAfter r r).
      * eapply Forall_impl; [exact Hr|]. intros c [Hc _]. by apply Hall.
    + apply Z.ltb_ge in Hlt. constructor; [by apply IH|].
      rewrite insertBy_perm. constructor; [|done].
      split; [unfold notAfter, before; lia|]. done.
Qed.

Lemma sortBy_sorted R rows :
  StronglySorted R rows → StronglySorted (tiesBy R) (sortBy cmp rows).
Proof using before_notAfter notAfter_trans.
  unfold sortBy.
  assert (∀ sorted,
    StronglySorted (tiesBy R) sorted → StronglySorted R rows →
    Forall (λ r, Forall (R r) rows) sorted →
    StronglySorted (tiesBy R)
      (foldl (λ sorted row, insertBy cmp row sorted) sorted rows)) as H.
  { induction rows as [|row rows IH]; intros sorted Hs HR Hall; simpl; [done|].
    apply StronglySorted_inv in HR as [HR Hrow]. apply IH; [|done|].
    - apply insertBy_sorted; [done|].
      eapply Forall_impl; [exact Hall|]. by intros r [? _]%Forall_cons.
    - rewrite insertBy_perm. constructor; [done|].
      eapply Forall_impl; [exact Hall|]. by intros r [_ ?]%Forall_cons. }
  intros HR. apply H; [constructor|done|constructor].
Qed.

(** Rows of the same class, none of which before another, stay in the
    order in which they were. *)
Lemma insertBy_stable (P : Row num → Prop) `{!∀ r, Decision (P r)} row sorted :
  (∀ a b, P a → P b → notAfter a b) →
  StronglySorted notAfter sorted →
  filter P (insertBy cmp row sorted) = filter P sorted ++ filter P [row].
Proof using before_notAfter notAfter_trans.
  intros Hties. induction sorted as [|r rest IH]; intros Hs; simpl; [done|].
  apply StronglySorted_inv in Hs as [Hrest Hr].
  destruct (cmp row r <? 0)%Z eqn:Hlt.
  - apply Z.ltb_lt in Hlt. rewrite (filter_cons _ row).
    destruct (decide (P row)) as [HP|HP].
    + assert (filter P (r :: rest) = []) as ->; [|by rewrite filter_cons_True].
      apply filter_none.
      assert (∀ c, notAfter r c → ¬ P c) as Hall.
      { intros c Hc HPc.
        assert (before row c) as Hp by (by apply (before_trans_r row r c)).
        by apply (Hties c row HPc HP). }
      constructor.
      * apply Hall. intros Hp. by apply (before_notAfter r r).
      * eapply Forall_impl; [exact Hr|]. apply Hall.
    + rewrite (filter_cons_False _ row) by done. by rewrite app_nil_r.
  - rewrite !(filter_cons _ r). rewrite IH by done.
    by destruct (decide (P r)).
Qed.

Lemma tiesBy_True sorted :
  StronglySorted (tiesBy (λ _ _, True)) sorted ↔ StronglySorted notAfter sorted.
Proof using Type.
  split; apply sorted_weaken.
  - by intros a b [? _].
  - by intros a b ?.
Qed.

Lemma insertBy_notAfter row sorted :
  StronglySorted notAfter sorted →
  StronglySorted notAfter (insertBy cmp row sorted).
Proof using before_notAfter notAfter_trans.
  intros Hs%tiesBy_True. apply tiesBy_True, insertBy_sorted; [done|].
  by apply Forall_true.
Qed.

Lemma sortBy_stable (P : Row num → Prop) `{!∀ r, Decision (P r)} rows :
  (∀ a b, P a → P b → notAfter a b) →
  filter P (sortBy cmp rows) = filter P rows.
Proof using before_notAfter notAfter_trans.
  intros Hties. unfold sortBy.
  assert (∀ sorted, StronglySorted notAfter sorted →
    filter P (foldl (λ sorted row, insertBy cmp row sorted) sorted rows)
    = filter P sorted ++ filter P rows) as Hfold;
    [|apply (Hfold []); constructor].
  induction rows as [|row rows IH]; intros sorted Hs; simpl.
  - by rewrite app_nil_r.
  - rewrite IH by (by apply insertBy_notAfter).
    rewrite insertBy_stable by done.
    by rewrite <- app_assoc, <- filter_app.
Qed.

End Sort.

(** *** The comparator *)

Section Exact.
(** In exact arithmetic. *)
Local Open Scope Qc_scope.
Implicit Types (row r a b : Row Qc) (t : Table Qc).

(** The two rows are in the order of the column [c], in the direction
    [d]. *)
Definition ordered (c : string) (d : Direction) a b : Prop :=
  match d with
  | asc => sortValue c a <= sortValue c b
  | desc => sortValue c b <= sortValue c a
  end.

Lemma comparison_neg c d a b :
  (comparison c d a b < 0)%Z ↔ ¬ ordered c d b a.
Proof.
  unfold comparison, ordered. cbn [nltb exact].
  destruct (Qc_ltb (sortValue c a) (sortValue c b)) eqn:H1;
    destruct (Qc_ltb (sortValue c b) (sortValue c a)) eqn:H2;
    try apply QcOrder.ltb_lt in H1; try apply QcOrder.ltb_lt in H2;
    try (apply not_true_iff_false in H1; rewrite QcOrder.ltb_lt in H1;
         apply Qcnot_lt_le in H1);
    try (apply not_true_iff_false in H2; rewrite QcOrder.ltb_lt in H2;
         apply Qcnot_lt_le in H2);
    try (exfalso; apply (Qclt_not_le _ _ H1); by apply Qclt_le_weak);
    destruct d; simpl; split; intros H; try done; try lia;
    try (by apply Qclt_not_le); try (by destruct H).
Qed.

Lemma notAfter_inOrder c d a b :
  notAfter (comparison c d) a b ↔ ordered c d a b.
Proof.
  unfold notAfter, before. rewrite comparison_neg.
  split; [|by intros ? ?]. intros Hn.
  unfold ordered in *. destruct d; apply Qcnot_lt_le; intros Hlt;
    apply Hn; by apply Qclt_not_le.
Qed.

Lemma inOrder_total c d a b : ordered c d a b ∨ ordered c d b a.
Proof.
  unfold ordered. destruct d;
    destruct (Qclt_le_dec (sortValue c a) (sortValue c b)) as [?%Qclt_le_weak|?];
    auto.
Qed.

Lemma inOrder_trans c d a b b' :
  ordered c d a b → ordered c d b b' → ordered c d a b'.
Proof.
  unfold ordered. destruct d; intros H1 H2; by eapply Qcle_trans.
Qed.

Lemma comparison_before_notAfter c d a b :
  before (comparison c d) a b → notAfter (comparison c d) a b.
Proof.
  unfold before. rewrite comparison_neg, notAfter_inOrder. intros Hn.
  by destruct (inOrder_total c d a b).
Qed.

Lemma comparison_notAfter_trans c d a b b' :
  notAfter (comparison c d) a b → notAfter (comparison c d) b b' →
  notAfter (comparison c d) a b'.
Proof. rewrite !notAfter_inOrder. apply inOrder_trans. Qed.

Lemma sortBy_inOrder c d (R : Row Qc → Row Qc → Prop) rows :
  StronglySorted R rows →
  StronglySorted
    (λ a b, ordered c d a b ∧ (sortValue c a = sortValue c b → R a b))
    (sortBy (comparison c d) rows).
Proof.
  intros HR.
  apply (sorted_weaken (tiesBy (comparison c d) R)).
  - intros a b [Hab Hties]. apply notAfter_inOrder in Hab. split; [done|].
    intros Heq. apply Hties, notAfter_inOrder. unfold ordered.
    rewrite Heq. destruct d; apply Qcle_refl.
  - apply sortBy_sorted;
      [apply comparison_before_notAfter|apply comparison_notAfter_trans|done].
Qed.

Lemma sortBy_ties c d rows v :
  filter (λ r, sortValue c r = v) (sortBy (comparison c d) rows)
  = filter (λ r, sortValue c r = v) rows.
Proof.
  apply sortBy_stable;
    [apply comparison_before_notAfter|apply comparison_notAfter_trans|].
  intros a b Ha Hb. apply notAfter_inOrder. unfold ordered.
  rewrite Ha, Hb. destruct d; apply Qcle_refl.
Qed.

Lemma sorted_any (rows : list (Row Qc)) : StronglySorted (λ _ _, True) rows.
Proof.
  induction rows; constructor; [done|]. by apply Forall_true.
Qed.

Lemma inRange_spec (fv : gmap string (Range Qc)) row key :
  inRange fv row key = true ↔
  ∀ f v, fv !! key = Some f → row !! key = Some v →
    (∀ m, min f = Some m → m <= v) ∧ (∀ m, max f = Some m → v <= m).
Proof.
  unfold inRange. destruct (fv !! key) as [f|]; [|done].
  destruct (row !! key) as [v|].
  - trans ((∀ m, min f = Some m → m <= v) ∧ (∀ m, max f = Some m → v <= m)).
    + cbn [nltb exact].
      assert ((∀ m, min f = Some m → m <= v) ↔
              match min f with Some m => Qc_ltb v m | None => false end = false)
        as ->.
      { destruct (min f) as [lo|]; [|done]. rewrite QcOrder.ltb_ge.
        split; [by intros H; apply H|by intros H m [= <-]]. }
      assert ((∀ m, max f = Some m → v <= m) ↔
              match max f with Some m => Qc_ltb m v | None => false end = false)
        as ->.
      { destruct (max f) as [hi|]; [|done]. rewrite QcOrder.ltb_ge.
        split; [by intros H; apply H|by intros H m [= <-]]. }
      destruct (match min f with Some m => Qc_ltb v m | None => false end),
        (match max f with Some m => Qc_ltb m v | None => false end);
        split; try done; by intros [? ?].
    + split; [by intros H f' v' [= <-] [= <-]|by intros H; apply H].
  - split; [done|]. by destruct (min f), (max f).
Qed.

(** X21. [applyFilters]: the table shows the rows of the data that are in
    the range of every column's filter (a bound that is empty or no number
    does not count, and a value that is no number is in every range), as
    often as they occur in the data; without a sort column in the order of
    the data, and with one in the order of that column in the direction of
    the sort, rows with the same value in the order of the data. *)
Theorem applyFilters_shown t :
  let t' := applyFilters t in
  let passing :=
    List.filter (λ row, forallb (inRange (filterValues t) row) (columns t))
      (data t) in
  data t' = data t ∧
  (∀ row, row ∈ passing ↔
     row ∈ data t ∧
     ∀ key f v, key ∈ columns t → filterValues t !! key = Some f →
       row !! key = Some v →
       (∀ m, min f = Some m → m <= v) ∧ (∀ m, max f = Some m → v <= m)) ∧
  filteredData t' ≡ₚ passing ∧
  (sortColumn t = None → filteredData t' = passing) ∧
  (∀ c, sortColumn t = Some c →
     StronglySorted (ordered c (sortDirection t)) (filteredData t') ∧
     ∀ v, filter (λ r, sortValue c r = v) (filteredData t')
          = filter (λ r, sortValue c r = v) passing).
Proof.
  intros t' passing. unfold t', applyFilters. fold passing. cbn [sortColumn].
  assert (∀ row, row ∈ passing ↔
     row ∈ data t ∧
     ∀ key f v, key ∈ columns t → filterValues t !! key = Some f →
       row !! key = Some v →
       (∀ m, min f = Some m → m <= v) ∧ (∀ m, max f = Some m → v <= m))
    as Hpass.
  { intros row. unfold passing.
    rewrite list_elem_of_In, filter_In, <- list_elem_of_In, forallb_forall.
    apply and_iff_compat_l. split.
    - intros Hall key f v Hkey. apply inRange_spec, Hall.
      by apply list_elem_of_In.
    - intros Hall key Hkey%list_elem_of_In. apply inRange_spec.
      intros f v. by apply Hall. }
  destruct (sortColumn t) as [c|] eqn:Hc; simpl.
  - split_and!; [done|done|apply sortBy_perm|done|].
    intros c' [= <-]. split; [|intros v; apply sortBy_ties].
    eapply sorted_weaken; [|apply (sortBy_inOrder c _ (λ _ _, True))].
    + by intros a b [? _].
    + apply sorted_any.
  - split_and!; done.
Qed.

(** X22. Two clicks on headers: after a click on the header of one column
    and then on the header of another, the rows shown are the same rows,
    in ascending order of the second column, and those with the same value
    there are in the order that the first click gave them, the order of the
    first column. A second click on the same header gives the descending
    order. *)
Theorem headerClick_twice c1 c2 t :
  c1 ∈ columns t → c2 ∈ columns t →
  let t1 := headerClick c1 t in
  let t2 := headerClick c2 t1 in
  filteredData t2 ≡ₚ filteredData t ∧
  StronglySorted
    (λ a b, ordered c2 (sortDirection t2) a b ∧
            (sortValue c2 a = sortValue c2 b →
             ordered c1 (sortDirection t1) a b))
    (filteredData t2) ∧
  (sortDirection t2 = desc ↔ c1 = c2 ∧ sortDirection t1 = asc).
Proof.
  intros _ _ t1 t2. split_and!.
  - unfold t2, t1, headerClick, applySort. cbn [filteredData].
    by rewrite !sortBy_perm.
  - unfold t2. unfold headerClick at 1. unfold applySort at 1.
    cbn [filteredData sortDirection].
    apply sortBy_inOrder.
    unfold t1, headerClick, applySort. cbn [filteredData sortDirection].
    eapply sorted_weaken; [|apply (sortBy_inOrder c1 _ (λ _ _, True))].
    + by intros a b [? _].
    + apply sorted_any.
  - unfold t2. unfold headerClick at 1. unfold applySort at 1.
    cbn [sortDirection].
    assert (sortColumn t1 = Some c1) as -> by done.
    destruct (decide (c1 = c2)) as [->|Hne].
    + rewrite bool_decide_eq_true_2 by done.
      destruct (sortDirection t1).
      * rewrite bool_decide_eq_true_2 by done. by simpl.
      * rewrite bool_decide_eq_false_2 by done. simpl.
        split; [done|]. by intros [_ ?].
    + rewrite bool_decide_eq_false_2 by congruence. simpl.
      split; [done|]. by intros [? _].
Qed.

End Exact.

(** The rows (aLen, bLen) = (3, 2), (2, 2), (3, 1). *)
Definition rows3 : list (Row Qc) :=
  [ {[ "aLen" := Q2Qc 3; "bLen" := Q2Qc 2 ]};
    {[ "aLen" := Q2Qc 2; "bLen" := Q2Qc 2 ]};
    {[ "aLen" := Q2Qc 3; "bLen" := Q2Qc 1 ]} ].

Definition table3 : Table Qc := setData rows3 (new ["aLen"; "bLen"]).

Lemma headerClick_twice_witness :
  filteredData (headerClick "bLen" (headerClick "aLen" table3)) ≡ₚ rows3 ∧
  StronglySorted
    (λ a b, ordered "bLen" asc a b ∧
            (sortValue "bLen" a = sortValue "bLen" b → ordered "aLen" asc a b))
    (filteredData (headerClick "bLen" (headerClick "aLen" table3))).
Proof.
  assert ("aLen" ∈ columns table3) as H1 by (by left).
  assert ("bLen" ∈ columns table3) as H2 by (right; by left).
  pose proof (headerClick_twice "aLen" "bLen" table3 H1 H2) as H.
  cbv zeta in H. destruct H as (Hperm & Hsorted & _).
  split; [exact Hperm|exact Hsorted].
Defined.

End DataTableFacts.

(* ===================================================================== *)
(** ** The comparisons with a tolerance, and the table of distances *)
(* ===================================================================== *)

Module DistancesFacts.
Import Reals Lra RealGeometry Distances.
Local Open Scope R_scope.

Lemma TOLERANCE_pos : 0 < FloatUtils.TOLERANCE.
Proof. unfold FloatUtils.TOLERANCE. apply Rinv_0_lt_compat, pow_lt. lra. Qed.





Lemma Rleb_false x y : FloatUtils.Rleb x y = false ↔ y < x.
Proof.
  unfold FloatUtils.Rleb. destruct (Rle_dec x y); split; try done; lra.
Qed.

Ltac tolerance :=
  pose proof TOLERANCE_pos;
  unfold FloatUtils.eq, FloatUtils.neq, FloatUtils.gt, FloatUtils.gte,
    FloatUtils.lt, FloatUtils.lte, FloatUtils.Rltb, FloatUtils.Rleb, Rabs in *;
  repeat match goal with
         | |- context [Rlt_dec ?x ?y] => destruct (Rlt_dec x y)
         | |- context [Rle_dec ?x ?y] => destruct (Rle_dec x y)
         | |- context [Rcase_abs ?x] => destruct (Rcase_abs x)
         | H : context [Rlt_dec ?x ?y] |- _ => destruct (Rlt_dec x y)
         | H : context [Rle_dec ?x ?y] |- _ => destruct (Rle_dec x y)
         | H : context [Rcase_abs ?x] |- _ => destruct (Rcase_abs x)
         end;
  simpl in *; try done; try lra.


(** *** The table *)






End DistancesFacts.
